(** * Layout-conversion utilities of the TritonGPU transforms

    A shallow embedding of [lib/Dialect/TritonGPU/Transforms/Utility.cpp]:
    the layout inversion rule, the cost classifier, the backward
    rematerialization simulator, the forward-in-loop check, the loop
    hoisting decision, the rewrite of a conversion chain and the loop
    type fix-up pattern; and the smaller helpers of the file: the
    instruction shape of a matrix multiply-accumulate, the first user of a
    value, the colour of a layout, and the index arithmetic of
    [linearize] and [delinearize].

    The IR is an arena: an [Operation *] is an index into the list of
    operations, a [Block *] an index into the list of blocks, and a null
    pointer is [None].  A function that would follow a pointer to something
    the arena does not hold, or fail a [cast<>], has undefined behaviour in
    C++; the embedding returns [None] (or [Undefined]) there. *)

From Stdlib Require Import ZArith Lia.
From stdpp Require Import base decidable option list numbers countable gmap sorting
  strings.

(** ** Part I: the data model and the functions *)

(** *** Layout descriptors and types *)

(** Modelled from the spec: the layout attributes are declared in the
    dialect headers; the five variants and the fields the functions read
    ([getDim], [getParent], [getVec]) are those of section 3. *)
Inductive Attribute : Type :=
| BlockedEncodingAttr (sizePerThread threadsPerWarp warpsPerCTA order : list N)
| SliceEncodingAttr (dim : N) (parent : Attribute)
| MmaEncodingAttr (versionMajor : N) (warpsPerCTA : list N)
| DotOperandEncodingAttr (opIdx : N) (parent : Attribute)
| SharedEncodingAttr (vec perPhase maxPhase : N) (order : list N).

#[global] Instance Attribute_eq_dec : EqDecision Attribute.
Proof. solve_decision. Defined.

(** [mlir::Type], as far as the functions look into it. *)
Inductive Ty : Type :=
| IntegerType (width : N)
| FloatType (width : N)
| PointerType (pointeeType : Ty)
| RankedTensorType (shape : list Z) (elementType : Ty)
                   (encoding : option Attribute).

#[global] Instance Ty_eq_dec : EqDecision Ty.
Proof. solve_decision. Defined.

Definition isRankedTensorType (t : Ty) : bool :=
  match t with RankedTensorType _ _ _ => true | _ => false end.

(** [ptrTy.getPointeeType().isa<RankedTensorType>()] under
    [dyn_cast<triton::PointerType>]. *)
Definition isPointerToTensor (t : Ty) : bool :=
  match t with PointerType p => isRankedTensorType p | _ => false end.

Definition getEncoding (t : Ty) : option Attribute :=
  match t with RankedTensorType _ _ e => e | _ => None end.

(** [RankedTensorType::getNumElements]. *)
Definition getNumElements (shape : list Z) : Z := foldr Z.mul 1%Z shape.

(** *** Operations, values, blocks *)

(** The operation classes the file tests with [isa<>] / [dyn_cast<>]; the
    axis attribute of [ExpandDimsOp] and [ReduceOp] is carried by the tag. *)
Inductive OpKind : Type :=
| LoadOp | StoreOp | CatOp | ViewOp
| ExpandDimsOp (axis : N) | ReduceOp (axis : N)
| ExtractSliceOp | AllocTensorOp | InsertSliceAsyncOp
| AtomicRMWOp | AtomicCASOp | DotOp
| YieldOp | ForOp | IfOp | WhileOp | ConditionOp
| ConvertLayoutOp | ConstantOp | MakeRangeOp | SplatOp
| AssertOp | PrintOp
| OtherOp (name : nat).

#[global] Instance OpKind_eq_dec : EqDecision OpKind.
Proof. solve_decision. Defined.

(** [Operation *] and [Block *]: positions in the arena. *)
Abbreviation OpId := nat (only parsing).
Abbreviation BlockId := nat (only parsing).

Record BlockArgument : Type := mkArg { argOwner : BlockId; argNumber : nat }.

#[global] Instance BlockArgument_eq_dec : EqDecision BlockArgument.
Proof. solve_decision. Defined.

(** An [mlir::Value] is a result of an operation or an argument of a block. *)
Inductive Value : Type :=
| OpResult (owner : OpId) (resultNumber : nat)
| BlockArg (arg : BlockArgument).

#[global] Instance Value_eq_dec : EqDecision Value.
Proof. solve_decision. Defined.

#[global] Instance Value_countable : Countable Value.
Proof.
  refine (inj_countable'
            (λ v, match v with
                  | OpResult o i => inl (o, i)
                  | BlockArg a => inr (argOwner a, argNumber a)
                  end)
            (λ x, match x with
                  | inl (o, i) => OpResult o i
                  | inr (b, n) => BlockArg (mkArg b n)
                  end) _).
  intros [o i | [b n]]; reflexivity.
Defined.

Record Operation : Type := mkOp {
  opKind : OpKind;
  opOperands : list Value;
  opResultTypes : list Ty;
  opRegions : list (list BlockId);
  opBlock : option BlockId;
  hasSameOperandsAndResultEncoding : bool;
  hasElementwise : bool;
  hasInferTypeOpInterface : bool
}.

Record Block : Type := mkBlock {
  blockArgTypes : list Ty;
  blockOps : list OpId;
  blockParentOp : option OpId
}.

(** The arena.  A slot of [irOps] is [None] once its operation has been
    erased. *)
Record IR : Type := mkIR {
  irOps : list (option Operation);
  irBlocks : list Block
}.

(** An IR none of whose operations has been erased. *)
Definition buildIR (ops : list Operation) (blocks : list Block) : IR :=
  mkIR (Some <$> ops) blocks.

Definition getOp (g : IR) (o : OpId) : option Operation := mjoin (irOps g !! o).
Definition getBlock (g : IR) (b : BlockId) : option Block := irBlocks g !! b.

(** [Value::getDefiningOp]: null for a block argument. *)
Definition getDefiningOp (v : Value) : option OpId :=
  match v with OpResult o _ => Some o | BlockArg _ => None end.

(** [Value::getType]. *)
Definition getType (g : IR) (v : Value) : option Ty :=
  match v with
  | OpResult o i => op ← getOp g o; opResultTypes op !! i
  | BlockArg a => b ← getBlock g (argOwner a); blockArgTypes b !! argNumber a
  end.

(** *** Containers of the LLVM support library *)

(** [llvm::SetVector]: insertion order, no duplicates. *)
Definition setInsert {A} `{EqDecision A} (x : A) (s : list A) : list A :=
  if decide (x ∈ s) then s else s ++ [x].

Definition setContains {A} `{EqDecision A} (x : A) (s : list A) : bool :=
  bool_decide (x ∈ s).

(** [llvm::MapVector]: insertion order; [insert] keeps an existing entry. *)
Fixpoint mapLookup {K V} `{EqDecision K} (k : K) (m : list (K * V)) : option V :=
  match m with
  | [] => None
  | (k', v) :: m' => if decide (k = k') then Some v else mapLookup k m'
  end.

Definition mapInsert {K V} `{EqDecision K} (k : K) (v : V) (m : list (K * V))
  : list (K * V) :=
  match mapLookup k m with Some _ => m | None => m ++ [(k, v)] end.

(** *** What the surrounding framework provides

    [isSingleValue] (triton/Analysis/Utility.h), [isExpensiveCat]
    (TritonGPU dialect) and the module attributes read by
    [getNumWarps] / [getThreadsPerWarp] are not part of this file. *)
Class Framework : Type := {
  isSingleValue : IR → Value → bool;
  isExpensiveCat : IR → OpId → Attribute → bool;
  getNumWarps : IR → Z;
  getThreadsPerWarp : IR → Z;
  (** [InferTypeOpInterface::inferReturnTypes] of an operation: [None] when
      it fails. *)
  inferReturnTypes : IR → OpId → option (list Ty);
  (** [mlir::multiRootTopologicalSort]. *)
  multiRootTopologicalSort : IR → list OpId → list OpId
}.

(** *** Layout inversion *)

(** [invertEncoding]: [Some ret] on [success()], [None] on [failure()]. *)
Definition invertEncoding (targetEncoding : Attribute) (op : Operation)
  : option Attribute :=
  let ret := targetEncoding in
  let ret := match opKind op with
             | ExpandDimsOp axis => SliceEncodingAttr axis targetEncoding
             | _ => ret
             end in
  match opKind op with
  | ReduceOp axis =>
      match targetEncoding with
      | SliceEncodingAttr dim parent =>
          if decide (dim ≠ axis) then None else Some parent
      | _ => None
      end
  | ViewOp | CatOp => None
  | _ => Some ret
  end.

(** *** Cost classifier *)

Section Classifier.
Context `{Framework}.

Definition isExpensiveLoadOrStore (g : IR) (op : Operation) : option bool :=
  ptr ← opOperands op !! 0;
  if isSingleValue g ptr then Some false
  else
    ptrType ← getType g ptr;
    match ptrType with
    | RankedTensorType shape _ _ =>
        if decide (getNumElements shape < getNumWarps g * getThreadsPerWarp g)%Z
        then Some false else Some true
    | _ => None
    end.

Definition isExpensiveToRemat (g : IR) (op : option OpId)
    (targetEncoding : Attribute) : option bool :=
  match op with
  | None => Some true
  | Some o =>
      opr ← getOp g o;
      match opKind opr with
      | LoadOp | StoreOp => isExpensiveLoadOrStore g opr
      | CatOp => Some (isExpensiveCat g o targetEncoding)
      | ExtractSliceOp | AllocTensorOp | InsertSliceAsyncOp
      | AtomicRMWOp | AtomicCASOp | DotOp => Some true
      | YieldOp | ForOp | IfOp | WhileOp | ConditionOp => Some true
      | _ => Some false
      end
  end.

Definition canFoldConversion (g : IR) (o : OpId) (targetEncoding : Attribute)
  : option bool :=
  opr ← getOp g o;
  match opKind opr with
  | CatOp => Some (negb (isExpensiveCat g o targetEncoding))
  | ConvertLayoutOp | ConstantOp | MakeRangeOp | SplatOp | ViewOp => Some true
  | _ => Some false
  end.
End Classifier.

(** *** Backward rematerialization simulator *)

Definition INT_MAX : Z := 2147483647%Z.

(** What a function that runs a loop hands back: its result, undefined
    behaviour (a pointer outside the arena, a failed [cast<>]), or the loop
    bound of the embedding reached. *)
Inductive Result (A : Type) : Type :=
| Done (a : A)
| Undefined
| OutOfFuel.
Arguments Done {A} a.
Arguments Undefined {A}.
Arguments OutOfFuel {A}.

#[global] Instance Result_ret : MRet Result := λ A a, Done a.
#[global] Instance Result_bind : MBind Result := λ A B f r,
  match r with
  | Done a => f a
  | Undefined => Undefined
  | OutOfFuel => OutOfFuel
  end.

(** A pointer followed, or a [cast<>] made: [None] is undefined behaviour. *)
Definition ofOption {A} (o : option A) : Result A :=
  match o with Some a => Done a | None => Undefined end.

(** A [for] loop over [l] that threads a state. *)
Fixpoint foldResult {A S} (f : S → A → Result S) (l : list A) (s : S)
  : Result S :=
  match l with
  | [] => Done s
  | x :: l => s ← f s x; foldResult f l s
  end.

(** A [for] loop over [l] whose body may [return failure()] ([Done false]). *)
Fixpoint allResult {A} (f : A → Result bool) (l : list A) : Result bool :=
  match l with
  | [] => Done true
  | x :: l => ok ← f x; if ok : bool then allResult f l else Done false
  end.

(** The three containers the simulator receives by reference. *)
Record SimState : Type := mkSim {
  processed : list OpId;
  layout : list Attribute;
  toConvert : list (Value * Attribute)
}.

(** The work stack is a [std::vector] used at its back; the embedding keeps
    it reversed, the back of the vector being the head of the list. *)
Abbreviation Queue := (list (option OpId * Attribute)).

(** How the loop over the operands of [currOp] ends: [return INT_MAX], or
    the end of the operand list. *)
Inductive OperandFlow : Type :=
| Abort (toConvert : list (Value * Attribute))
| Proceed (numCvts : Z) (queue : Queue) (toConvert : list (Value * Attribute)).

(** The locals of the loop: [numCvts], [queue], and the three containers. *)
Record LoopState : Type := mkLoop {
  lsNumCvts : Z;
  lsQueue : Queue;
  lsSim : SimState
}.

Inductive StepFlow : Type :=
| Next (s : LoopState)
| Exit (r : Z) (st : SimState)
| Stuck.

Section Simulator.
Context `{Framework}.

(** The body of [for (Value argI : currOp->getOperands())], lines 387-419. *)
Fixpoint visitOperands (g : IR) (currOp : Operation) (currLayout : Attribute)
    (processed : list OpId) (args : list Value)
    (numCvts : Z) (queue : Queue) (toConvert : list (Value * Attribute))
  : option OperandFlow :=
  match args with
  | [] => Some (Proceed numCvts queue toConvert)
  | argI :: rest =>
      match invertEncoding currLayout currOp with
      | None => Some (Abort toConvert)
      | Some newEncoding =>
          if bool_decide (is_Some (mapLookup argI toConvert)) &&
             bool_decide (mapLookup argI toConvert ≠ Some newEncoding)
          then Some (Abort toConvert)
          else
            ty ← getType g argI;
            if isPointerToTensor ty then Some (Abort toConvert)
            else
              let opArgI := getDefiningOp argI in
              let toConvert := mapInsert argI newEncoding toConvert in
              let continue :=
                visitOperands g currOp currLayout processed rest
                              numCvts queue toConvert in
              if negb (isRankedTensorType ty) then continue
              else match opArgI with
              | None => continue
              | Some o =>
                  if setContains o processed then continue
                  else
                    opr ← getOp g o;
                    if bool_decide (opBlock opr ≠ opBlock currOp) then continue
                    else
                      fold ← canFoldConversion g o newEncoding;
                      if fold : bool then continue
                      else
                        visitOperands g currOp currLayout processed rest
                          (numCvts + 1)%Z ((Some o, newEncoding) :: queue)
                          toConvert
              end
      end
  end.

(** One iteration of [while (!queue.empty())], lines 373-419, on a
    non-empty stack: [Exit] is the [break] or the [return INT_MAX]. *)
Definition simulateStep (g : IR) (s : LoopState) : StepFlow :=
  match lsQueue s with
  | [] => Exit (lsNumCvts s) (lsSim s)
  | (currOp, currLayout) :: queue =>
      match isExpensiveToRemat g currOp currLayout with
      | None => Stuck
      | Some true => Exit (lsNumCvts s) (lsSim s)
      | Some false =>
          match currOp ≫= (λ o, opr ← getOp g o; Some (o, opr)) with
          | None => Stuck
          | Some (o, opr) =>
              let numCvts := (lsNumCvts s - 1)%Z in
              let processed := setInsert o (processed (lsSim s)) in
              let layout := setInsert currLayout (layout (lsSim s)) in
              match visitOperands g opr currLayout processed
                      (opOperands opr) numCvts queue (toConvert (lsSim s)) with
              | None => Stuck
              | Some (Abort toConvert) =>
                  Exit INT_MAX (mkSim processed layout toConvert)
              | Some (Proceed numCvts queue toConvert) =>
                  Next (mkLoop numCvts queue (mkSim processed layout toConvert))
              end
          end
      end
  end.

(** The loop itself and the final [return numCvts]. *)
Fixpoint simulateLoop (fuel : nat) (g : IR) (s : LoopState)
  : Result (Z * SimState) :=
  match lsQueue s with
  | [] => Done (lsNumCvts s, lsSim s)
  | _ :: _ =>
      match fuel with
      | O => OutOfFuel
      | S fuel =>
          match simulateStep g s with
          | Next s' => simulateLoop fuel g s'
          | Exit r st => Done (r, st)
          | Stuck => Undefined
          end
      end
  end.

(** [numCvts] starts at 1 and the stack holds the seed. *)
Definition simulateBackwardRematerialization (fuel : nat) (g : IR)
    (initOp : option OpId) (st : SimState) (targetEncoding : Attribute)
  : Result (Z * SimState) :=
  simulateLoop fuel g (mkLoop 1%Z [(initOp, targetEncoding)] st).

(** The operations marked processed (line 384) by the successive
    iterations that run to the end of their operand loop, in order: what a
    trace of the loop would show. *)
Fixpoint visits (fuel : nat) (g : IR) (s : LoopState) : list OpId :=
  match fuel with
  | O => []
  | S fuel =>
      match simulateStep g s, lsQueue s with
      | Next s', (Some o, _) :: _ => o :: visits fuel g s'
      | _, _ => []
      end
  end.
End Simulator.

(** *** Uses and the forward slice *)

(** The uses of [v] by the operation [o]: one entry per operand slot. *)
Definition operandUses (v : Value) (o : OpId) (op : Operation)
  : list (OpId * nat) :=
  omap (λ '(i, w), if decide (w = v) then Some (o, i) else None)
       (zip (seq 0 (length (opOperands op))) (opOperands op)).

(** [Value::getUses].  MLIR keeps the uses in a linked list whose order is
    an artefact of how the IR was built; the embedding lists them in arena
    order. *)
Definition getUses (g : IR) (v : Value) : list (OpId * nat) :=
  concat (imap (λ o op, from_option (operandUses v o) [] op) (irOps g)).

(** [Value::getUsers]: the owner of each use, repeated when an operation
    uses the value more than once. *)
Definition getUsers (g : IR) (v : Value) : list OpId := fst <$> getUses g v.

Record OpUseInfo : Type := mkUse {
  useValue : Value;
  useOp : OpId;
  useIndex : nat
}.

(** The operations of all blocks of all regions of [op], in order. *)
Definition regionOps (g : IR) (op : Operation) : option (list OpId) :=
  blocks ← mapM (getBlock g) (concat (opRegions op));
  Some (concat (blockOps <$> blocks)).

(** The uses of all results of [o], result by result. *)
Definition resultUses (g : IR) (o : OpId) (op : Operation)
  : list (Value * (OpId * nat)) :=
  concat ((λ i, (λ u, (OpResult o i, u)) <$> getUses g (OpResult o i))
          <$> seq 0 (length (opResultTypes op))).

Fixpoint getForwardSliceOpUseInfo (fuel : nat) (g : IR) (op : option OpId)
    (acc : list OpId * list OpUseInfo) : Result (list OpId * list OpUseInfo) :=
  match op with
  | None => Done acc
  | Some o =>
      match fuel with
      | O => OutOfFuel
      | S fuel =>
          opr ← ofOption (getOp g o);
          nested ← ofOption (regionOps g opr);
          acc ← foldResult
                  (λ acc blockOp,
                     if setContains blockOp (fst acc) then Done acc
                     else getForwardSliceOpUseInfo fuel g (Some blockOp) acc)
                  nested acc;
          acc ← foldResult
                  (λ acc '(v, (blockOp, idx)),
                     let acc := (fst acc, snd acc ++ [mkUse v blockOp idx]) in
                     if setContains blockOp (fst acc) then Done acc
                     else getForwardSliceOpUseInfo fuel g (Some blockOp) acc)
                  (resultUses g o opr) acc;
          Done (setInsert o (fst acc), snd acc)
      end
  end.

(** *** Forward rematerialization in a loop *)

Definition isSharedEncoding (a : Attribute) : bool :=
  match a with SharedEncodingAttr _ _ _ _ => true | _ => false end.
Definition isSliceEncoding (a : Attribute) : bool :=
  match a with SliceEncodingAttr _ _ => true | _ => false end.
Definition isDotOperandEncoding (a : Attribute) : bool :=
  match a with DotOperandEncodingAttr _ _ => true | _ => false end.

Definition isYieldOp (op : Operation) : bool :=
  bool_decide (opKind op = YieldOp).
Definition isConvertLayoutOp (op : Operation) : bool :=
  bool_decide (opKind op = ConvertLayoutOp).

(** [isa<triton::StoreOp, triton::AssertOp, triton::PrintOp, triton::ReduceOp>]. *)
Definition isPassthrough (op : Operation) : bool :=
  match opKind op with
  | StoreOp | AssertOp | PrintOp | ReduceOp _ => true
  | _ => false
  end.

(** [arg.getArgNumber() - 1] in [unsigned] arithmetic. *)
Definition argIdxOf (arg : BlockArgument) : Z :=
  ((Z.of_nat (argNumber arg) - 1) mod 2 ^ 32)%Z.

Section Forward.
Context `{Framework}.

(** The body of the loop over the operands of a slice operation, lines
    526-534.  [argOp] is the producer the simulator is seeded with. *)
Definition checkProducer (fuel : nat) (g : IR) (cvtSliceOps : list OpId)
    (targetEncoding : Attribute) (argOp : option OpId) : Result bool :=
  '(numAddedConvs, _) ←
    simulateBackwardRematerialization fuel g argOp (mkSim [] [] [])
                                      targetEncoding;
  match argOp with
  | None => Done true
  | Some a =>
      opr ← ofOption (getOp g a);
      if negb (isConvertLayoutOp opr) && negb (setContains a cvtSliceOps) &&
         bool_decide (numAddedConvs > 0)%Z
      then Done false else Done true
  end.

(** The body of the first loop, lines 508-536, with the producer of an
    operand given by [producerOf]. *)
Definition checkSliceOp (producerOf : Value → option OpId)
    (fuel : nat) (g : IR) (startOp : option OpId)
    (cvtSliceOps : list OpId) (targetEncoding : Attribute) (o : OpId)
  : Result bool :=
  op ← ofOption (getOp g o);
  if isYieldOp op then Done true
  else
    ok ← (if bool_decide (Some o ≠ startOp) then
            expensive ← ofOption (isExpensiveToRemat g (Some o) targetEncoding);
            if expensive : bool then Done false
            else if negb (hasSameOperandsAndResultEncoding op) &&
                    negb (hasElementwise op) && negb (isPassthrough op)
            then Done false else Done true
          else Done true);
    if ok : bool then
      allResult (λ value, checkProducer fuel g cvtSliceOps targetEncoding
                                        (producerOf value))
                (opOperands op)
    else Done false.

(** The body of the second loop, lines 540-554. *)
Definition checkYieldUse (g : IR) (arg : BlockArgument) (u : OpUseInfo)
  : Result bool :=
  op ← ofOption (getOp g (useOp u));
  if isYieldOp op then
    let yieldIdx := Z.of_nat (useIndex u) in
    if bool_decide (yieldIdx ≠ argIdxOf arg) then
      argType ← ofOption (getType g (BlockArg arg));
      if isRankedTensorType argType then
        yielded ← ofOption (opOperands op !! useIndex u);
        yieldType ← ofOption (getType g yielded);
        if negb (isRankedTensorType yieldType) ||
           bool_decide (getEncoding argType ≠ getEncoding yieldType)
        then Done false else Done true
      else Undefined
    else Done true
  else Done true.

Definition forwardCheck (producerOf : Value → option OpId)
    (fuel : nat) (g : IR) (startOp : option OpId) (arg : BlockArgument)
    (targetEncoding : Attribute) : Result bool :=
  if isSharedEncoding targetEncoding || isSliceEncoding targetEncoding
  then Done false
  else
    '(cvtSliceOps, cvtSliceOpUseInfo) ←
      getForwardSliceOpUseInfo fuel g startOp ([], []);
    ok ← allResult (checkSliceOp producerOf fuel g startOp cvtSliceOps
                                 targetEncoding) cvtSliceOps;
    if ok : bool then allResult (checkYieldUse g arg) cvtSliceOpUseInfo
    else Done false.

(** [simulateForwardRematerializationInLoop]: line 526 takes the producer
    from the block argument [arg], whatever the operand [value] is. *)
Definition simulateForwardRematerializationInLoop (fuel : nat) (g : IR)
    (startOp : option OpId) (arg : BlockArgument)
    (targetEncoding : Attribute) : Result bool :=
  forwardCheck (λ value, getDefiningOp (BlockArg arg))
               fuel g startOp arg targetEncoding.

(** The check as section 4.4 words it: the simulator is seeded at the
    producer of the operand. *)
Definition forwardCheckAsSpecified (fuel : nat) (g : IR)
    (startOp : option OpId) (arg : BlockArgument)
    (targetEncoding : Attribute) : Result bool :=
  forwardCheck (λ value, getDefiningOp value)
               fuel g startOp arg targetEncoding.
End Forward.

(** *** Moving a conversion out of a loop *)

(** The locals of [canMoveOutOfLoop]: [cvts] (a vector, received by
    reference), [cvtTypes] and [others] (sets). *)
Record HoistState : Type := mkHoist {
  hsCvts : list OpId;
  hsCvtTypes : list Ty;
  hsOthers : list OpId
}.

Definition getVec (a : Attribute) : N :=
  match a with SharedEncodingAttr vec _ _ _ => vec | _ => 0%N end.

(** [forOp.getBody()]: the first block of the first region. *)
Definition getBody (forOp : Operation) : option BlockId :=
  region ← opRegions forOp !! 0; region !! 0.

(** The body of [for (auto user : arg.getUsers())], lines 622-640. *)
Definition classifyUser (g : IR) (oldType : Ty) (st : HoistState)
    (user : OpId) : Result HoistState :=
  op ← ofOption (getOp g user);
  if isConvertLayoutOp op then
    newType ← ofOption (opResultTypes op !! 0);
    if isRankedTensorType newType then
      oldEnc ← ofOption (getEncoding oldType);
      newEnc ← ofOption (getEncoding newType);
      if isSharedEncoding oldEnc && isDotOperandEncoding newEnc then Done st
      else if isSharedEncoding newEnc && bool_decide (getVec newEnc = 1%N)
      then Done st
      else Done (mkHoist (hsCvts st ++ [user])
                         (setInsert newType (hsCvtTypes st)) (hsOthers st))
    else Undefined
  else Done (mkHoist (hsCvts st) (hsCvtTypes st) (setInsert user (hsOthers st))).

Section Hoisting.
Context `{Framework}.

(** [canMoveOutOfLoop]: the [LogicalResult] and the vector [cvts]. *)
Definition canMoveOutOfLoop (fuel : nat) (g : IR) (arg : BlockArgument)
    (cvts : list OpId) : Result (bool * list OpId) :=
  owner ← ofOption (getBlock g (argOwner arg));
  parentOp ← ofOption (blockParentOp owner);
  parent ← ofOption (getOp g parentOp);
  if bool_decide (opKind parent = WhileOp) then Done (false, cvts)
  else if bool_decide (opKind parent ≠ ForOp) then Done (true, cvts)
  else
    oldType ← ofOption (getType g (BlockArg arg));
    if isRankedTensorType oldType then
      st ← foldResult (classifyUser g oldType) (getUsers g (BlockArg arg))
                      (mkHoist cvts [] []);
      let cvts := hsCvts st in
      match cvts with
      | [] => Done (true, cvts)
      | _ :: _ =>
          match hsCvtTypes st with
          | [cvtType] =>
              body ← ofOption (getBody parent);
              ok ← allResult
                     (λ cvt, op ← ofOption (getOp g cvt);
                             Done (bool_decide (opBlock op = Some body)))
                     cvts;
              if ok : bool then
                targetEncoding ← ofOption (getEncoding cvtType);
                ok ← allResult
                       (λ other,
                          op ← ofOption (getOp g other);
                          if bool_decide (opBlock op ≠ Some body) then Done false
                          else simulateForwardRematerializationInLoop
                                 fuel g (Some other) arg targetEncoding)
                       (hsOthers st);
                Done (ok, cvts)
              else Done (false, cvts)
          | _ => Done (false, cvts)
          end
      end
    else Undefined.
End Hoisting.

(** A conversion the hoisting decision skips: [user] converts the argument
    of type [oldType] from a shared layout into a dot-operand layout, or
    into a shared layout whose vectorization factor is 1. *)
Definition noopConversion (g : IR) (oldType : Ty) (user : OpId) : Prop :=
  ∃ op newType oldEnc newEnc,
    getOp g user = Some op ∧ opKind op = ConvertLayoutOp ∧
    opResultTypes op !! 0 = Some newType ∧ isRankedTensorType newType = true ∧
    getEncoding oldType = Some oldEnc ∧ getEncoding newType = Some newEnc ∧
    ((isSharedEncoding oldEnc = true ∧ isDotOperandEncoding newEnc = true) ∨
     (isSharedEncoding newEnc = true ∧ getVec newEnc = 1%N)).

(** *** Changing the IR *)

Definition setOperands (operands : list Value) (op : Operation) : Operation :=
  mkOp (opKind op) operands (opResultTypes op) (opRegions op) (opBlock op)
       (hasSameOperandsAndResultEncoding op) (hasElementwise op)
       (hasInferTypeOpInterface op).

Definition setResultTypes (types : list Ty) (op : Operation) : Operation :=
  mkOp (opKind op) (opOperands op) types (opRegions op) (opBlock op)
       (hasSameOperandsAndResultEncoding op) (hasElementwise op)
       (hasInferTypeOpInterface op).

Definition setRegions (regions : list (list BlockId)) (op : Operation)
  : Operation :=
  mkOp (opKind op) (opOperands op) (opResultTypes op) regions (opBlock op)
       (hasSameOperandsAndResultEncoding op) (hasElementwise op)
       (hasInferTypeOpInterface op).

Definition setBlock (b : option BlockId) (op : Operation) : Operation :=
  mkOp (opKind op) (opOperands op) (opResultTypes op) (opRegions op) b
       (hasSameOperandsAndResultEncoding op) (hasElementwise op)
       (hasInferTypeOpInterface op).

Definition setBlockOps (ops : list OpId) (b : Block) : Block :=
  mkBlock (blockArgTypes b) ops (blockParentOp b).

(** A new operation, or block, takes the next free slot of the arena. *)
Definition addOp (g : IR) (op : Operation) : IR :=
  mkIR (irOps g ++ [Some op]) (irBlocks g).

Definition addBlock (g : IR) (b : Block) : IR :=
  mkIR (irOps g) (irBlocks g ++ [b]).

Definition updateOp (g : IR) (o : OpId) (f : Operation → Operation) : IR :=
  mkIR (alter (fmap f) o (irOps g)) (irBlocks g).

Definition updateBlock (g : IR) (b : BlockId) (f : Block → Block) : IR :=
  mkIR (irOps g) (alter f b (irBlocks g)).

(** [Operation::remove]: take [o] out of the block that holds it. *)
Definition unlink (g : IR) (o : OpId) : IR :=
  match getOp g o ≫= opBlock with
  | Some b =>
      updateOp (updateBlock g b (λ blk,
                  setBlockOps (filter (λ x, x ≠ o) (blockOps blk)) blk))
               o (setBlock None)
  | None => g
  end.

Fixpoint insertAfterIn (anchor new : OpId) (l : list OpId) : list OpId :=
  match l with
  | [] => []
  | x :: l => if decide (x = anchor) then x :: new :: l
              else x :: insertAfterIn anchor new l
  end.

Fixpoint insertBeforeIn (anchor new : OpId) (l : list OpId) : list OpId :=
  match l with
  | [] => []
  | x :: l => if decide (x = anchor) then new :: x :: l
              else x :: insertBeforeIn anchor new l
  end.

Definition linkWith (place : list OpId → list OpId) (g : IR) (o : OpId)
    (b : BlockId) : IR :=
  updateOp (updateBlock (unlink g o) b (λ blk,
              setBlockOps (place (blockOps blk)) blk))
           o (setBlock (Some b)).

(** [o->moveAfter(anchor)] and [o->moveBefore(anchor)]; the anchor is in a
    block. *)
Definition moveAfter (g : IR) (o anchor : OpId) : option IR :=
  a ← getOp g anchor; b ← opBlock a;
  Some (linkWith (insertAfterIn anchor o) g o b).

Definition moveBefore (g : IR) (o anchor : OpId) : option IR :=
  a ← getOp g anchor; b ← opBlock a;
  Some (linkWith (insertBeforeIn anchor o) g o b).

(** [o->moveBefore(block, block->begin())]. *)
Definition moveToStart (g : IR) (o : OpId) (b : BlockId) : option IR :=
  _ ← getBlock g b;
  Some (linkWith (λ ops, o :: ops) g o b).

(** [IRMapping::lookupOrDefault]. *)
Definition lookupOrDefault (mapping : gmap Value Value) (v : Value) : Value :=
  default v (mapping !! v).

(** [mapper.map(op->getResults(), newOp->getResults())]. *)
Definition mapResults (o new : OpId) (n : nat) (mapping : gmap Value Value)
  : gmap Value Value :=
  foldr (λ i m, <[OpResult o i := OpResult new i]> m) mapping (seq 0 n).

(** [mapper.map(block->getArguments(), newBlock->getArguments())]. *)
Definition mapArguments (b new : BlockId) (n : nat)
    (mapping : gmap Value Value) : gmap Value Value :=
  foldr (λ i m, <[BlockArg (mkArg b i) := BlockArg (mkArg new i)]> m) mapping
        (seq 0 n).

(** The state threaded through a clone: the IR, the mapping, and the list
    being built (operations of a block, or blocks of a region). *)
Abbreviation CloneState := (IR * gmap Value Value * list nat)%type.

(** The clone of one operation of a block, appended to the list [ops] of
    the block under construction; [rec] clones an operation. *)
Definition cloneBlockOp
    (rec : IR → gmap Value Value → OpId → option BlockId →
           Result (IR * gmap Value Value * OpId))
    (newBlock : BlockId) (st : CloneState) (x : OpId) : Result CloneState :=
  let '(g, mapping, ops) := st in
  '(g, mapping, x') ← rec g mapping x (Some newBlock);
  Done (g, mapping, ops ++ [x']).

(** The clone of one block of a region of the operation [new]. *)
Definition cloneBlock
    (rec : IR → gmap Value Value → OpId → option BlockId →
           Result (IR * gmap Value Value * OpId))
    (new : OpId) (st : CloneState) (b : BlockId) : Result CloneState :=
  let '(g, mapping, blocks) := st in
  blk ← ofOption (getBlock g b);
  let newBlock := length (irBlocks g) in
  let g := addBlock g (mkBlock (blockArgTypes blk) [] (Some new)) in
  let mapping := mapArguments b newBlock (length (blockArgTypes blk)) mapping in
  '(g, mapping, ops) ←
    foldResult (cloneBlockOp rec newBlock) (blockOps blk) (g, mapping, []);
  Done (updateBlock g newBlock (setBlockOps ops), mapping, blocks ++ [newBlock]).

Definition cloneRegion
    (rec : IR → gmap Value Value → OpId → option BlockId →
           Result (IR * gmap Value Value * OpId))
    (new : OpId) (st : IR * gmap Value Value * list (list BlockId))
    (region : list BlockId)
  : Result (IR * gmap Value Value * list (list BlockId)) :=
  let '(g, mapping, regions) := st in
  '(g, mapping, blocks) ← foldResult (cloneBlock rec new) region (g, mapping, []);
  Done (g, mapping, regions ++ [blocks]).

(** [Operation::clone(mapper)]: the clone is created detached from any block
    ([dest = None]) or as a member of the block under construction; operands
    go through the mapping; regions are cloned block by block, operation by
    operation; then the results are mapped.  (MLIR remaps the operands of the
    operations of a cloned region in a second pass; for operations listed
    after their producers this is the same.) *)
Fixpoint cloneOp (fuel : nat) (g : IR) (mapping : gmap Value Value)
    (o : OpId) (dest : option BlockId)
  : Result (IR * gmap Value Value * OpId) :=
  match fuel with
  | O => OutOfFuel
  | S fuel =>
      op ← ofOption (getOp g o);
      let new := length (irOps g) in
      let g := addOp g (setBlock dest (setRegions []
                          (setOperands (lookupOrDefault mapping <$> opOperands op)
                                       op))) in
      '(g, mapping, regions) ←
        foldResult (cloneRegion (cloneOp fuel) new) (opRegions op)
                   (g, mapping, []);
      Done (updateOp g new (setRegions regions),
            mapResults o new (length (opResultTypes op)) mapping, new)
  end.

(** [newOp->getResult(i).setType(newTypes[i])] for every [i]. *)
Definition setInferredTypes (newTypes old : list Ty) : option (list Ty) :=
  if decide (length newTypes ≤ length old)
  then Some (newTypes ++ drop (length newTypes) old) else None.

Section Rewrite.
Context `{Framework}.

Definition cloneWithInferType (fuel : nat) (g : IR)
    (mapping : gmap Value Value) (o : OpId)
  : Result (IR * gmap Value Value * OpId) :=
  op ← ofOption (getOp g o);
  '(g, mapping, newOp) ← cloneOp fuel g mapping o None;
  preserveTypes ←
    allResult (λ v, match mapping !! v with
                    | None => Done true
                    | Some v' =>
                        t ← ofOption (getType g v);
                        t' ← ofOption (getType g v');
                        Done (bool_decide (t = t'))
                    end) (opOperands op);
  if preserveTypes : bool then Done (g, mapping, newOp)
  else
    new ← ofOption (getOp g newOp);
    match opResultTypes new with
    | [] => Done (g, mapping, newOp)
    | _ :: rest =>
        origType ← ofOption (opResultTypes op !! 0);
        arg0 ← ofOption (opOperands new !! 0);
        argType ← ofOption (getType g arg0);
        match origType, argType with
        | RankedTensorType shape elt _, RankedTensorType _ _ enc =>
            let newType := RankedTensorType shape elt enc in
            let g := updateOp g newOp (setResultTypes (newType :: rest)) in
            if hasInferTypeOpInterface new then
              match inferReturnTypes g newOp with
              | Some newTypes =>
                  types ← ofOption (setInferredTypes newTypes (newType :: rest));
                  Done (updateOp g newOp (setResultTypes types), mapping, newOp)
              | None => Done (g, mapping, newOp)
              end
            else Done (g, mapping, newOp)
        | _, _ => Done (g, mapping, newOp)
        end
    end.

(** Lines 580-587 of the loop body: when the producer of [currOperand] is
    marked processed it is cloned, the clone is moved after it, and the
    clone and its result 0 become [currOperation] and [currOperand].
    [processed] holds no null pointer (the simulator inserts none), so
    [processed.contains] of the producer of a block argument is false. *)
Definition rematerializeProducer (fuel : nat) (processed : list OpId)
    (g : IR) (mapping : gmap Value Value) (currOperand : Value)
  : Result (IR * gmap Value Value * option OpId * Value) :=
  let currOperation := getDefiningOp currOperand in
  match currOperation with
  | Some o =>
      if setContains o processed then
        '(g, mapping, newOperation) ← cloneWithInferType fuel g mapping o;
        g ← ofOption (moveAfter g newOperation o);
        Done (g, mapping, Some newOperation, OpResult newOperation 0)
      else Done (g, mapping, currOperation, currOperand)
  | None => Done (g, mapping, currOperation, currOperand)
  end.

(** Lines 588-600 of the loop body: the conversion of [currOperand] to the
    target layout, placed after [currOperation] or, for a block argument, at
    the start of its block.  The operations made by the rewriter are moved
    right away, so its insertion point does not show in the result. *)
Definition convertOperand (targetLayout : option Attribute) (g : IR)
    (mapping : gmap Value Value) (origOperand : Value)
    (currOperation : option OpId) (currOperand : Value)
  : Result (IR * gmap Value Value) :=
  currType ← ofOption (getType g currOperand);
  match currType with
  | RankedTensorType shape elt _ =>
      let newType := RankedTensorType shape elt targetLayout in
      let newOperand := length (irOps g) in
      let g := addOp g (mkOp ConvertLayoutOp [currOperand] [newType] [] None
                             false false false) in
      g ← match currOperation with
          | Some c => ofOption (moveAfter g newOperand c)
          | None =>
              match currOperand with
              | BlockArg a => ofOption (moveToStart g newOperand (argOwner a))
              | OpResult _ _ => Undefined
              end
          end;
      Done (g, <[origOperand := OpResult newOperand 0]> mapping)
  | _ => Undefined
  end.

(** The body of [for (Value currOperand : sortedValues)], lines 575-601;
    [toConvert.lookup] gives the null attribute for a value that is not in
    the plan. *)
Definition rematerializeOperand (fuel : nat)
    (toConvert : list (Value * Attribute)) (processed : list OpId)
    (st : IR * gmap Value Value) (currOperand : Value)
  : Result (IR * gmap Value Value) :=
  let '(g, mapping) := st in
  let origOperand := currOperand in
  let targetLayout := mapLookup currOperand toConvert in
  '(g, mapping, currOperation, currOperand) ←
    rematerializeProducer fuel processed g mapping currOperand;
  convertOperand targetLayout g mapping origOperand currOperation currOperand.

(** Lines 562-573: block arguments first, then result 0 of each producer in
    topological order. *)
Definition sortValues (g : IR) (toConvert : list (Value * Attribute))
  : list Value :=
  let '(tmp, sortedValues) :=
    foldl (λ '(tmp, sortedValues) '(v, _),
             match getDefiningOp v with
             | Some o => (setInsert o tmp, sortedValues)
             | None => (tmp, sortedValues ++ [v])
             end)
          ([], []) toConvert in
  sortedValues ++ ((λ o, OpResult o 0) <$> multiRootTopologicalSort g tmp).

Definition rematerializeConversionChain (fuel : nat) (g : IR)
    (toConvert : list (Value * Attribute)) (processed : list OpId)
    (mapping : gmap Value Value) : Result (IR * gmap Value Value) :=
  foldResult (rematerializeOperand fuel toConvert processed)
             (sortValues g toConvert) (g, mapping).
End Rewrite.

(** *** The loop type fix-up *)

(** [forOp.getInitArgs()]: the operands after the bounds and the step. *)
Definition getInitArgs (forOp : Operation) : list Value :=
  drop 3 (opOperands forOp).

(** Lines 28-34: is there an [i] at which the type of the initial value
    differs from the type of the region argument, or from the result type?
    The loop leaves at the first such [i]. *)
Fixpoint typesDiffer (g : IR) (initArgs : list Value)
    (iterArgTypes resultTypes : list Ty) : Result bool :=
  match initArgs with
  | [] => Done false
  | v :: initArgs =>
      t ← ofOption (getType g v);
      it ← ofOption (head iterArgTypes);
      if bool_decide (t ≠ it) then Done true
      else
        rt ← ofOption (head resultTypes);
        if bool_decide (t ≠ rt) then Done true
        else typesDiffer g initArgs (tail iterArgTypes) (tail resultTypes)
  end.

(** [shouldRematerialize] of line 27, for the loop [forOp]. *)
Definition shouldRematerialize (g : IR) (forOp : Operation) : Result bool :=
  body ← ofOption (getBody forOp);
  blk ← ofOption (getBlock g body);
  typesDiffer g (getInitArgs forOp) (drop 1 (blockArgTypes blk))
              (opResultTypes forOp).

(** Lines 43-46: every argument of the old body, the induction variable
    included, is mapped to the argument of the new body at the same
    position. *)
Definition loopMapping (body newBody : BlockId) (numArgs : nat)
  : gmap Value Value :=
  mapArguments body newBody numArgs ∅.

(** Every operation nested in [o], and [o] itself. *)
Fixpoint nestedOps (fuel : nat) (g : IR) (o : OpId) : Result (list OpId) :=
  match fuel with
  | O => OutOfFuel
  | S fuel =>
      op ← ofOption (getOp g o);
      ops ← ofOption (regionOps g op);
      inner ← foldResult (λ acc x, l ← nestedOps fuel g x; Done (acc ++ l))
                         ops [];
      Done (o :: inner)
  end.

(** [Value::replaceAllUsesWith] for each result of [o]. *)
Definition replaceResult (o new : OpId) (v : Value) : Value :=
  match v with
  | OpResult o' i => if decide (o' = o) then OpResult new i else v
  | BlockArg _ => v
  end.

Definition replaceAllUsesWith (g : IR) (o new : OpId) : IR :=
  mkIR ((λ slot : option Operation,
           (λ op, setOperands (replaceResult o new <$> opOperands op) op)
           <$> slot) <$> irOps g)
       (irBlocks g).

(** The slots of erased operations are emptied. *)
Definition freeOps (g : IR) (dead : list OpId) : IR :=
  mkIR (foldr (λ o ops, <[o := None]> ops) (irOps g) dead) (irBlocks g).

Module FixupLoop.

(** Lines 38-52, the rewrite proper.  [owned] lists [forOp] and the
    operations nested in it; the rewrite does not change the old body, so
    they are the operations that [replaceOp] destroys with the loop.  The
    builder of [scf.for] gives the new loop one region argument and one
    result per initial value, of the type of that value, after an induction
    variable of the type of the lower bound; with initial values it adds no
    terminator, and the clones are inserted at the end of the new body. *)
Definition rewriteLoop (fuel : nat) (g : IR) (forOp : OpId) (op : Operation)
    (body : BlockId) (blk : Block) (owned : list OpId) : Result IR :=
  let newInitArgs := getInitArgs op in
  lowerBound ← ofOption (opOperands op !! 0);
  _ ← ofOption (opOperands op !! 1);
  _ ← ofOption (opOperands op !! 2);
  ivType ← ofOption (getType g lowerBound);
  initTypes ← ofOption (mapM (getType g) newInitArgs);
  let newForOp := length (irOps g) in
  let newBody := length (irBlocks g) in
  let g := addOp g (mkOp ForOp (take 3 (opOperands op) ++ newInitArgs)
                         initTypes [[newBody]] None
                         (hasSameOperandsAndResultEncoding op)
                         (hasElementwise op) (hasInferTypeOpInterface op)) in
  let g := addBlock g (mkBlock (ivType :: initTypes) [] (Some newForOp)) in
  g ← ofOption (moveBefore g newForOp forOp);
  if decide (length (blockArgTypes blk) ≤ S (length initTypes)) then
    let mapping := loopMapping body newBody (length (blockArgTypes blk)) in
    '(g, mapping, ops) ←
      foldResult (cloneBlockOp (cloneOp fuel) newBody) (blockOps blk)
                 (g, mapping, []);
    let g := updateBlock g newBody (setBlockOps ops) in
    if decide (length (opResultTypes op) = length initTypes) then
      let g := replaceAllUsesWith g forOp newForOp in
      Done (freeOps (unlink g forOp) owned)
    else Undefined
  else Undefined.

(** [FixupLoop::matchAndRewrite]: [None] is [failure()], the IR untouched. *)
Definition matchAndRewrite (fuel : nat) (g : IR) (forOp : OpId)
  : Result (option IR) :=
  op ← ofOption (getOp g forOp);
  if bool_decide (opKind op = ForOp) then
    should ← shouldRematerialize g op;
    if should : bool then
      body ← ofOption (getBody op);
      blk ← ofOption (getBlock g body);
      owned ← nestedOps fuel g forOp;
      g ← rewriteLoop fuel g forOp op body blk owned;
      Done (Some g)
    else Done None
  else Undefined.

End FixupLoop.

(** The pattern is registered for [scf.for]: the driver offers it every
    loop of the module.  The first loop of [candidates] that the pattern
    rewrites, if any. *)
Fixpoint firstRewrite (fuel : nat) (g : IR) (candidates : list OpId)
  : Result (option IR) :=
  match candidates with
  | [] => Done None
  | o :: candidates =>
      match getOp g o with
      | Some op =>
          if bool_decide (opKind op = ForOp) then
            r ← FixupLoop.matchAndRewrite fuel g o;
            match r with
            | Some g' => Done (Some g')
            | None => firstRewrite fuel g candidates
            end
          else firstRewrite fuel g candidates
      | None => firstRewrite fuel g candidates
      end
  end.

(** Modelled from the spec: [applyPatternsAndFoldGreedily] is MLIR's greedy
    driver, "run a set of local rewrite rules to a fixpoint over a whole
    module" (section 6); it fails when it has not converged within its
    bound.  The result is the [LogicalResult] and the module. *)
Fixpoint applyPatternsAndFoldGreedily (maxRewrites fuel : nat) (g : IR)
  : Result (bool * IR) :=
  r ← firstRewrite fuel g (seq 0 (length (irOps g)));
  match r with
  | None => Done (true, g)
  | Some g' =>
      match maxRewrites with
      | O => Done (false, g')
      | S maxRewrites => applyPatternsAndFoldGreedily maxRewrites fuel g'
      end
  end.

(** [fixupLoops]. *)
Definition fixupLoops (maxRewrites fuel : nat) (g : IR) : Result (bool * IR) :=
  applyPatternsAndFoldGreedily maxRewrites fuel g.

(** What a change of the IR leaves alone when it only moves operations,
    rewires operands or adds slots: the kind, result types and regions of an
    operation, the argument types and parent of a block. *)
Definition opKept (op op' : Operation) : Prop :=
  opKind op' = opKind op ∧ opResultTypes op' = opResultTypes op ∧
  opRegions op' = opRegions op.

Definition blockKept (blk blk' : Block) : Prop :=
  blockArgTypes blk' = blockArgTypes blk ∧
  blockParentOp blk' = blockParentOp blk.

Definition signaturesKept (g g' : IR) : Prop :=
  (∀ o op, getOp g o = Some op → ∃ op', getOp g' o = Some op' ∧ opKept op op') ∧
  (∀ b blk, getBlock g b = Some blk →
            ∃ blk', getBlock g' b = Some blk' ∧ blockKept blk blk').




(** [g'] has every slot of [g] as it is in [g], and possibly more. *)
Definition extends (g g' : IR) : Prop :=
  irOps g `prefix_of` irOps g' ∧ irBlocks g `prefix_of` irBlocks g'.



(** A stack entry for an instruction of the arena that is not in [seen]. *)
Definition freshEntry (g : IR) (seen : list OpId)
    (e : option OpId * Attribute) : Prop :=
  ∃ o, fst e = Some o ∧ (o ∉ seen) ∧ is_Some (getOp g o).

(** Every operand of every instruction marked processed has an entry in
    the value-to-layout map. *)
Definition operandsRecorded (g : IR) (st : SimState) : Prop :=
  ∀ o opr v, o ∈ processed st → getOp g o = Some opr → v ∈ opOperands opr →
    is_Some (mapLookup v (toConvert st)).

(** What scenario A asks of an operand [v] when the layout [L] is pushed
    into it: it has a type that is not a pointer to a tensor, its producer
    can fold a conversion to [L], and no other layout is recorded for it. *)
Definition foldableOperand `{Framework} (g : IR)
    (tc : list (Value * Attribute)) (L : Attribute) (v : Value) : Prop :=
  (∃ ty, getType g v = Some ty ∧ isPointerToTensor ty = false) ∧
  (∃ o, getDefiningOp v = Some o ∧ canFoldConversion g o L = Some true) ∧
  (mapLookup v tc = None ∨ mapLookup v tc = Some L).

(** The IR is one the simulator can read without undefined behaviour:
    every operand of every operation has a type (so its producer, if any, is
    in the arena), and the pointer operand of a load or store passes the
    [cast<RankedTensorType>] of [isExpensiveLoadOrStore]. *)
Definition wellTypedOp `{Framework} (g : IR) (op : Operation) : bool :=
  forallb (λ v, bool_decide (is_Some (getType g v))) (opOperands op) &&
  match opKind op with
  | LoadOp | StoreOp => bool_decide (is_Some (isExpensiveLoadOrStore g op))
  | _ => true
  end.

Definition wellTypedIR `{Framework} (g : IR) : bool :=
  forallb (λ op, from_option (wellTypedOp g) true op) (irOps g).

(** The two quantities that decrease along the walk: the instructions of the
    arena not yet marked, and the stack entries of instructions already
    marked. *)
Definition unprocessed (g : IR) (seen : list OpId) : nat :=
  length (filter (λ o, o ∉ seen) (seq 0 (length (irOps g)))).

Definition staleEntry (seen : list OpId) (e : option OpId * Attribute) : Prop :=
  match fst e with Some o => o ∈ seen | None => False end.

#[global] Instance staleEntry_dec seen e : Decision (staleEntry seen e).
Proof. unfold staleEntry. destruct (fst e); apply _. Defined.

Definition staleEntries (seen : list OpId) (q : Queue) : nat :=
  length (filter (staleEntry seen) q).

(** *** Worked inputs

    One instance of the framework and a few small graphs, on which the
    functions are run below. *)

(** [isSingleValue] as the analysis library has it (a tensor with one
    element, or any value that is not a tensor); every concatenation is
    expensive; 4 warps of 32 threads; no operation infers its result types;
    the graphs below list their operations in program order, so sorting the
    indices is a topological sort. *)
Definition exampleFramework : Framework := {|
  isSingleValue := λ g v,
    match getType g v with
    | Some (RankedTensorType shape _ _) => bool_decide (getNumElements shape = 1%Z)
    | _ => true
    end;
  isExpensiveCat := λ _ _ _, true;
  getNumWarps := λ _, 4%Z;
  getThreadsPerWarp := λ _, 32%Z;
  inferReturnTypes := λ _ _, None;
  multiRootTopologicalSort := λ _ ops, merge_sort Nat.le ops
|}.

Definition blockedA : Attribute := BlockedEncodingAttr [1%N] [32%N] [4%N] [0%N].
Definition blockedB : Attribute := BlockedEncodingAttr [4%N] [32%N] [4%N] [0%N].
Definition tensorOf (enc : Attribute) : Ty :=
  RankedTensorType [1024%Z] (FloatType 32) (Some enc).

(** An operation without regions or traits. *)
Definition plainOp (k : OpKind) (operands : list Value) (results : list Ty)
    (b : BlockId) : Operation :=
  mkOp k operands results [] (Some b) false false false.

(** An elementwise arithmetic operation such as [arith.addf]. *)
Definition elementwiseOp (operands : list Value) (results : list Ty)
    (b : BlockId) : Operation :=
  mkOp (OtherOp 0) operands results [] (Some b) false true false.

Definition emptySim : SimState := mkSim [] [] [].

(** Scenario A: [%2 = addf %0, %1] on two constants, all in one block. *)
Definition addGraph : IR :=
  buildIR [ plainOp ConstantOp [] [tensorOf blockedA] 0;
            plainOp ConstantOp [] [tensorOf blockedA] 0;
            elementwiseOp [OpResult 0 0; OpResult 1 0] [tensorOf blockedA] 0 ]
          [ mkBlock [] [0; 1; 2] None ].

(** Scenario B: [%0 = atomic_rmw %arg0, %arg1] on two block arguments. *)
Definition atomicGraph : IR :=
  buildIR [ plainOp AtomicRMWOp [BlockArg (mkArg 0 0); BlockArg (mkArg 0 1)]
                    [tensorOf blockedA] 0 ]
          [ mkBlock [tensorOf blockedA; tensorOf blockedA] [0] None ].

(** [%0 = exp %arg0; %1 = neg %0; %2 = addf %0, %1]: the value [%0] is an
    operand of the seed [%2] and of its other operand [%1]. *)
Definition sharedOperandGraph : IR :=
  buildIR [ elementwiseOp [BlockArg (mkArg 0 0)] [tensorOf blockedA] 0;
            elementwiseOp [OpResult 0 0] [tensorOf blockedA] 0;
            elementwiseOp [OpResult 0 0; OpResult 1 0] [tensorOf blockedA] 0 ]
          [ mkBlock [tensorOf blockedA] [0; 1; 2] None ].

(** A loop [%r = for ... iter_args(%acc = %init)] whose body is
    [%1 = dot %init, %init, %init; %2 = exp %acc; %3 = addf %2, %1;
    yield %3]: the operand [%1] of the slice operation [%3] comes from a
    matrix product that is not in the forward slice of [%2]. *)
Definition loopGraph : IR :=
  buildIR [ mkOp ForOp
                 [BlockArg (mkArg 0 0); BlockArg (mkArg 0 1); BlockArg (mkArg 0 2);
                  BlockArg (mkArg 0 3)]
                 [tensorOf blockedA] [[1]] (Some 0) false false false;
            plainOp DotOp
                    [BlockArg (mkArg 0 3); BlockArg (mkArg 0 3); BlockArg (mkArg 0 3)]
                    [tensorOf blockedA] 1;
            elementwiseOp [BlockArg (mkArg 1 1)] [tensorOf blockedA] 1;
            elementwiseOp [OpResult 2 0; OpResult 1 0] [tensorOf blockedA] 1;
            plainOp YieldOp [OpResult 3 0] [] 1 ]
          [ mkBlock [IntegerType 32; IntegerType 32; IntegerType 32;
                     tensorOf blockedA] [0] None;
            mkBlock [IntegerType 32; tensorOf blockedA] [1; 2; 3; 4] (Some 0) ].

Definition sharedVec1 : Attribute := SharedEncodingAttr 1 1 1 [0%N].

(** Scenario C: the loop argument [%p] is used by one conversion into a
    shared layout of vectorization factor 1; the loop yields a constant. *)
Definition hoistGraph : IR :=
  buildIR [ mkOp ForOp
                 [BlockArg (mkArg 0 0); BlockArg (mkArg 0 1); BlockArg (mkArg 0 2);
                  BlockArg (mkArg 0 3)]
                 [tensorOf blockedA] [[1]] (Some 0) false false false;
            plainOp ConvertLayoutOp [BlockArg (mkArg 1 1)] [tensorOf sharedVec1] 1;
            plainOp ConstantOp [] [tensorOf blockedA] 1;
            plainOp YieldOp [OpResult 2 0] [] 1 ]
          [ mkBlock [IntegerType 32; IntegerType 32; IntegerType 32;
                     tensorOf blockedA] [0] None;
            mkBlock [IntegerType 32; tensorOf blockedA] [1; 2; 3] (Some 0) ].

(** [%0 = exp %p; %1 = neg %0] on a block argument [%p]. *)
Definition chainGraph : IR :=
  buildIR [ elementwiseOp [BlockArg (mkArg 0 0)] [tensorOf blockedA] 0;
            elementwiseOp [OpResult 0 0] [tensorOf blockedA] 0 ]
          [ mkBlock [tensorOf blockedA] [0; 1] None ].

(** The plan the simulator returns for [chainGraph], and for [transGraph]
    below, seeded at [%1] with the target [blockedB]: both [%1] and [%0]
    are marked processed. *)
Definition chainPlan : list (Value * Attribute) :=
  [(OpResult 0 0, blockedB); (BlockArg (mkArg 0 0), blockedB)].

(** [chainGraph] once the block argument has been converted:
    [%2 = convert_layout %p] at the start of the block. *)
Definition chainConverted : IR :=
  buildIR [ elementwiseOp [BlockArg (mkArg 0 0)] [tensorOf blockedA] 0;
            elementwiseOp [OpResult 0 0] [tensorOf blockedA] 0;
            plainOp ConvertLayoutOp [BlockArg (mkArg 0 0)] [tensorOf blockedB] 0 ]
          [ mkBlock [tensorOf blockedA] [2; 0; 1] None ].

(** Scenario D: [%r = for ... iter_args(%acc = %init)] whose argument and
    result are declared with layout A while [%init] and the yielded
    [%1 = exp %acc] carry layout B; [%3 = neg %r] uses the result. *)
Definition staleLoopGraph : IR :=
  buildIR [ mkOp ForOp
              [BlockArg (mkArg 0 0); BlockArg (mkArg 0 1); BlockArg (mkArg 0 2);
               BlockArg (mkArg 0 3)]
              [tensorOf blockedA] [[1]] (Some 0) false false false;
            elementwiseOp [BlockArg (mkArg 1 1)] [tensorOf blockedB] 1;
            plainOp YieldOp [OpResult 1 0] [] 1;
            elementwiseOp [OpResult 0 0] [tensorOf blockedB] 0 ]
          [ mkBlock [IntegerType 32; IntegerType 32; IntegerType 32;
                     tensorOf blockedB] [0; 3] None;
            mkBlock [IntegerType 32; tensorOf blockedA] [1; 2] (Some 0) ].

(** [staleLoopGraph] after the fix-up: the old loop and its body are gone,
    the new loop [%4] carries layout B in all four places, and [%3] uses the
    result of the new loop. *)
Definition staleLoopFixed : IR :=
  mkIR [ None; None; None;
         Some (elementwiseOp [OpResult 4 0] [tensorOf blockedB] 0);
         Some (mkOp ForOp
                 [BlockArg (mkArg 0 0); BlockArg (mkArg 0 1);
                  BlockArg (mkArg 0 2); BlockArg (mkArg 0 3)]
                 [tensorOf blockedB] [[2]] (Some 0) false false false);
         Some (elementwiseOp [BlockArg (mkArg 2 1)] [tensorOf blockedB] 2);
         Some (plainOp YieldOp [OpResult 5 0] [] 2) ]
       [ mkBlock [IntegerType 32; IntegerType 32; IntegerType 32;
                  tensorOf blockedB] [4; 3] None;
         mkBlock [IntegerType 32; tensorOf blockedA] [1; 2] (Some 0);
         mkBlock [IntegerType 32; tensorOf blockedB] [5; 6] (Some 4) ].

(** [%0 = trans %x; %1 = neg %0]: the argument [%x] already has layout B,
    the operation [%0] (one that changes the layout, such as a transposition)
    and its user have layout A. *)
Definition transGraph : IR :=
  buildIR [ plainOp (OtherOp 1) [BlockArg (mkArg 0 0)] [tensorOf blockedA] 0;
            elementwiseOp [OpResult 0 0] [tensorOf blockedA] 0 ]
          [ mkBlock [tensorOf blockedB] [0; 1] None ].

(** *** What the forward slice holds *)

(** Operand slot [useIndex u] of the operation [useOp u] holds
    [useValue u]. *)
Definition genuineUse (g : IR) (u : OpUseInfo) : Prop :=
  ∃ op, getOp g (useOp u) = Some op ∧
        opOperands op !! useIndex u = Some (useValue u).

(** The set [slice] holds whatever is one step away from its member [p]:
    the operations of the regions of [p] and the users of its results, each
    use of a result being listed in [uses]. *)
Definition sliceClosedAt (g : IR) (slice : list OpId) (uses : list OpUseInfo)
    (p : OpId) : Prop :=
  ∃ op, getOp g p = Some op ∧
    (∀ b blk x, b ∈ concat (opRegions op) → getBlock g b = Some blk →
                x ∈ blockOps blk → x ∈ slice) ∧
    (∀ i user k opu,
       i < length (opResultTypes op) → getOp g user = Some opu →
       opOperands opu !! k = Some (OpResult p i) →
       user ∈ slice ∧ mkUse (OpResult p i) user k ∈ uses).

(** How a call of [getForwardSliceOpUseInfo] takes the two accumulators
    from [acc] to [acc']: nothing is removed; every member that is new has
    its neighbours in the set; every use that is new is genuine, its owner
    is in the set and its value is a result of a member of the set or of one
    of the operations [pending], whose calls have not returned yet. *)
Definition sliceGrows (g : IR) (pending : list OpId)
    (acc acc' : list OpId * list OpUseInfo) : Prop :=
  (∀ x, x ∈ fst acc → x ∈ fst acc') ∧
  (∀ u, u ∈ snd acc → u ∈ snd acc') ∧
  (∀ p, p ∈ fst acc' → p ∈ fst acc ∨ sliceClosedAt g (fst acc') (snd acc') p) ∧
  (∀ u, u ∈ snd acc' →
     u ∈ snd acc ∨
     (genuineUse g u ∧ useOp u ∈ fst acc' ∧
      ∃ p i, useValue u = OpResult p i ∧ (p ∈ fst acc' ∨ p ∈ pending))) ∧
  (NoDup (fst acc) → NoDup (fst acc')).

(** *** The users of a loop argument *)

(** A user the hoisting decision can read: an operation of the arena, whose
    result 0, when it is a conversion, is a tensor with a layout (the
    [cast<RankedTensorType>] of line 625 passes, and [getEncoding] is not
    null at lines 627 and 630). *)
Definition wellFormedUser (g : IR) (u : OpId) : Prop :=
  ∃ op, getOp g u = Some op ∧
    (opKind op = ConvertLayoutOp →
     ∃ shape elt enc,
       opResultTypes op !! 0 = Some (RankedTensorType shape elt (Some enc))).

Definition notConversion (g : IR) (u : OpId) : Prop :=
  ∃ op, getOp g u = Some op ∧ opKind op ≠ ConvertLayoutOp.

(** A conversion the hoisting decision counts: [u] converts the argument,
    whose layout is [oldEnc], to the type [newType], and is neither of the
    two kinds skipped at lines 626-635. *)
Definition keptConversion (g : IR) (oldEnc : Attribute) (u : OpId)
    (newType : Ty) : Prop :=
  ∃ op shape elt newEnc,
    getOp g u = Some op ∧ opKind op = ConvertLayoutOp ∧
    opResultTypes op !! 0 = Some newType ∧
    newType = RankedTensorType shape elt (Some newEnc) ∧
    isSharedEncoding oldEnc && isDotOperandEncoding newEnc = false ∧
    isSharedEncoding newEnc && bool_decide (getVec newEnc = 1%N) = false.

(** The loop argument [%p] is converted twice in the body, to layout B and
    to a slice of layout B. *)
Definition twoTargetsGraph : IR :=
  buildIR [ mkOp ForOp
                 [BlockArg (mkArg 0 0); BlockArg (mkArg 0 1); BlockArg (mkArg 0 2);
                  BlockArg (mkArg 0 3)]
                 [tensorOf blockedA] [[1]] (Some 0) false false false;
            plainOp ConvertLayoutOp [BlockArg (mkArg 1 1)] [tensorOf blockedB] 1;
            plainOp ConvertLayoutOp [BlockArg (mkArg 1 1)]
                    [tensorOf (SliceEncodingAttr 0 blockedB)] 1;
            plainOp YieldOp [BlockArg (mkArg 1 1)] [] 1 ]
          [ mkBlock [IntegerType 32; IntegerType 32; IntegerType 32;
                     tensorOf blockedA] [0] None;
            mkBlock [IntegerType 32; tensorOf blockedA] [1; 2; 3] (Some 0) ].

(** *** The instruction shape of a matrix multiply-accumulate *)

(** [mlir::Type] as [mmaVersionToInstrShape] looks at the element type of
    its tensor: the float types it names, the integer types by width;
    [OtherFloat] stands for the float types the function does not name. *)
Inductive ElementType : Type :=
| Float8E5M2 | Float8E4M3FN | F16 | BF16 | F32
| OtherFloat (width : N)
| Integer (width : N).

(** [RankedTensorType::getElementTypeBitWidth]. *)
Definition getElementTypeBitWidth (t : ElementType) : N :=
  match t with
  | Float8E5M2 | Float8E4M3FN => 8
  | F16 | BF16 => 16
  | F32 => 32
  | OtherFloat w | Integer w => w
  end.

(** What [mmaVersionToInstrShape] hands back: a shape, or [assert(false)]
    followed by the vector the function returns when assertions are
    compiled out. *)
Inductive InstrShape : Type :=
| Shape (dims : list Z)
| Unsupported (fallback : list Z).

(** The vector [validN] of lines 81-94. *)
Definition validN (eltType : ElementType) : list Z :=
  let validN := [] in
  let validN :=
    match eltType with
    | Float8E5M2 | Float8E4M3FN | F16 | BF16 | F32 =>
        [256; 248; 240; 232; 224; 216; 208; 200; 192; 184; 176;
         168; 160; 152; 144; 136; 128; 120; 112; 104; 96; 88;
         80; 72; 64; 56; 48; 40; 32; 24; 16; 8]%Z
    | _ => validN
    end in
  match eltType with
  | Integer 8 =>
      [224; 208; 192; 176; 160; 144; 128; 112; 96; 80; 64; 48; 32;
       24; 16; 8]%Z
  | _ => validN
  end.

(** [mmaVersionToInstrShape]; [%] on [int64_t] is [Z.rem].  Reading
    [shape] past its end, or dividing by a bit width of 0, is undefined. *)
Definition mmaVersionToInstrShape (version : Z) (shape : list Z)
    (eltType : ElementType) : Result InstrShape :=
  if decide (version = 1%Z) then Done (Shape [16; 16]%Z)
  else if decide (version = 2%Z) then Done (Shape [16; 8]%Z)
  else if decide (version = 3%Z) then
    if decide (getElementTypeBitWidth eltType = 0%N) then Undefined
    else
      let k := (256 / Z.of_N (getElementTypeBitWidth eltType))%Z in
      shape0 ← ofOption (shape !! 0);
      if decide (Z.rem shape0 64 ≠ 0%Z) then Done (Unsupported [0; 0; 0]%Z)
      else
        shape1 ← ofOption (shape !! 1);
        if decide (Z.rem shape1 8 ≠ 0%Z) then Done (Unsupported [0; 0; 0]%Z)
        else
          match List.find (λ n, bool_decide (Z.rem shape1 n = 0%Z))
                          (validN eltType) with
          | Some n => Done (Shape [16%Z; n; k])
          | None => Done (Unsupported [0; 0; 0]%Z)
          end
  else Done (Unsupported [0; 0]%Z).

(** The element types for which [validN] is filled. *)
Definition mmaV3ElementType (eltType : ElementType) : bool :=
  match eltType with
  | Float8E5M2 | Float8E4M3FN | F16 | BF16 | F32 | Integer 8 => true
  | _ => false
  end.

(** *** Index arithmetic emitted by the builder *)

(** The values [delinearize] and [linearize] compute with.  An operation
    made by the builder is identified with its result and carries its
    operands, so that a value is the data-flow tree under it: a value handed
    in by the caller, a null [Value], or the result of one of the five
    [arith] operations the two functions create. *)
Inductive IndexValue : Type :=
| Given (n : nat)
| NullValue
| ConstantIntOp (value : Z) (width : N)
| RemSIOp (lhs rhs : IndexValue)
| DivSIOp (lhs rhs : IndexValue)
| MulIOp (lhs rhs : IndexValue)
| AddIOp (lhs rhs : IndexValue).

(** [ArrayRef::drop_back]; [None] on an empty array, where it is
    undefined. *)
Definition drop_back {A} (l : list A) : option (list A) :=
  match l with [] => None | _ => Some (take (length l - 1) l) end.

(** The loop of lines 696-700, and [remained] after it. *)
Fixpoint delinearizeLoop (remained : IndexValue) (dims : list N)
  : list IndexValue * IndexValue :=
  match dims with
  | [] => ([], remained)
  | d :: dims =>
      let dimSize := ConstantIntOp (Z.of_N d) 32 in
      let '(multiDim, last) := delinearizeLoop (DivSIOp remained dimSize) dims in
      (RemSIOp remained dimSize :: multiDim, last)
  end.

(** [delinearize] without an order; [None] when [assert(rank > 0)] fails. *)
Definition delinearize (linear : IndexValue) (shape : list N)
  : option (list IndexValue) :=
  let rank := length shape in
  if decide (rank = 0) then None
  else if decide (rank = 1) then Some [linear]
  else
    dims ← drop_back shape;
    let '(multiDim, remained) := delinearizeLoop linear dims in
    Some (multiDim ++ [remained]).

(** The body of the loop of lines 718-723. *)
Definition linearizeStep (linear : IndexValue) (en : IndexValue * N)
  : IndexValue :=
  let '(dim, dimShape) := en in
  let dimSize := ConstantIntOp (Z.of_N dimShape) 32 in
  AddIOp (MulIOp linear dimSize) dim.

(** [linearize] without an order.  [llvm::reverse] of a [llvm::zip] walks
    each of the two ranges back from its own end. *)
Definition linearize (multiDim : list IndexValue) (shape : list N)
  : option IndexValue :=
  match reverse multiDim with
  | [] => Some (ConstantIntOp 0 32)
  | back :: dimsReversed =>
      dims ← drop_back shape;
      Some (foldl linearizeStep back (zip dimsReversed (reverse dims)))
  end.

Section Ordered.
(** [reorder] of triton/Analysis/Utility.h is not part of this file. *)
Context (reorder : ∀ A : Type, list A → list nat → list A).

(** The loop of lines 681-683 on a vector of [rank] null values: writing
    past the end of the vector is undefined. *)
Fixpoint scatter (order : list nat) (reorderedMultiDim : list IndexValue)
    (multiDim : list IndexValue) : option (list IndexValue) :=
  match order, reorderedMultiDim with
  | o :: order, x :: reorderedMultiDim =>
      if decide (o < length multiDim)
      then scatter order reorderedMultiDim (<[o := x]> multiDim)
      else None
  | [], _ => Some multiDim
  | _ :: _, [] => None
  end.

(** [delinearize] with an order; [None] when an assertion fails. *)
Definition delinearizeOrdered (linear : IndexValue) (shape : list N)
    (order : list nat) : option (list IndexValue) :=
  let rank := length shape in
  if decide (rank = length order) then
    let reordered := reorder N shape order in
    reorderedMultiDim ← delinearize linear reordered;
    scatter order reorderedMultiDim (replicate rank NullValue)
  else None.

(** [linearize] with an order. *)
Definition linearizeOrdered (multiDim : list IndexValue) (shape : list N)
    (order : list nat) : option IndexValue :=
  linearize (reorder IndexValue multiDim order) (reorder N shape order).
End Ordered.

(** Two's complement wrap-around at [width] bits. *)
Definition wrap (width : N) (z : Z) : Z :=
  let half := (2 ^ (Z.of_N width - 1))%Z in
  ((z + half) mod (2 * half) - half)%Z.

(** The value of an [IndexValue] on 32-bit integers, the values of the
    caller being given by [env]: [arith.remsi] and [arith.divsi] round
    toward zero and are undefined for a zero divisor and for the quotient
    that overflows; [arith.muli] and [arith.addi] wrap around. *)
Fixpoint evalIndex (env : nat → Z) (v : IndexValue) : option Z :=
  match v with
  | Given n => Some (env n)
  | NullValue => None
  | ConstantIntOp value width => Some (wrap width value)
  | RemSIOp lhs rhs =>
      a ← evalIndex env lhs; b ← evalIndex env rhs;
      if decide (b = 0 ∨ (a = - 2 ^ 31 ∧ b = -1))%Z then None
      else Some (Z.rem a b)
  | DivSIOp lhs rhs =>
      a ← evalIndex env lhs; b ← evalIndex env rhs;
      if decide (b = 0 ∨ (a = - 2 ^ 31 ∧ b = -1))%Z then None
      else Some (Z.quot a b)
  | MulIOp lhs rhs =>
      a ← evalIndex env lhs; b ← evalIndex env rhs; Some (wrap 32 (a * b))
  | AddIOp lhs rhs =>
      a ← evalIndex env lhs; b ← evalIndex env rhs; Some (wrap 32 (a + b))
  end.

(** [reorder] as the header has it for an [order] within bounds:
    [result[i] = input[order[i]]]. *)
Definition exampleReorder (A : Type) (input : list A) (order : list nat)
  : list A :=
  omap (λ i, input !! i) order.

(** The position of the coordinate [coords ++ [last]] in an array whose
    dimensions but the last are [dims], the first dimension running
    fastest. *)
Fixpoint linearIndex (coords : list Z) (dims : list N) (last : Z) : Z :=
  match coords, dims with
  | m :: coords, d :: dims => (m + Z.of_N d * linearIndex coords dims last)%Z
  | _, _ => last
  end.

(** *** The first user of a value *)








(** *** The colour of a layout *)

(** [GraphLayoutMarker::getColor]; [None] where the function runs into an
    assertion (a tensor without a layout). *)
Definition getColor (type : Ty) : option string :=
  match type with
  | RankedTensorType _ _ layout =>
      match layout with
      | Some (BlockedEncodingAttr _ _ _ _) => Some "green"
      | Some (SliceEncodingAttr _ _) => Some "yellow"
      | Some (MmaEncodingAttr _ _) => Some "lightslateblue"
      | Some (DotOperandEncodingAttr _ _) => Some "orange"
      | Some (SharedEncodingAttr _ _ _ _) => Some "orangered"
      | None => None
      end
  | _ => Some "white"
  end.

(** The variant of a layout descriptor. *)
Definition layoutVariant (a : Attribute) : nat :=
  match a with
  | BlockedEncodingAttr _ _ _ _ => 0
  | SliceEncodingAttr _ _ => 1
  | MmaEncodingAttr _ _ => 2
  | DotOperandEncodingAttr _ _ => 3
  | SharedEncodingAttr _ _ _ _ => 4
  end.

(** *** The outcome of the rewrite of a conversion chain *)

(** The substitution map sends [v] to the result of a conversion whose
    result type carries the layout the plan [toConvert] records for [v]. *)
Definition convertedTo (g : IR) (mapping : gmap Value Value)
    (toConvert : list (Value * Attribute)) (v : Value) : Prop :=
  ∃ cvt cvtOp shape elt,
    mapping !! v = Some (OpResult cvt 0) ∧ getOp g cvt = Some cvtOp ∧
    opKind cvtOp = ConvertLayoutOp ∧
    opResultTypes cvtOp = [RankedTensorType shape elt (mapLookup v toConvert)].

(** The loop argument [%p] is converted to layout B and, for a user in
    shared memory, to a shared layout of vectorization factor 1. *)
Definition oneTargetGraph : IR :=
  buildIR [ mkOp ForOp
                 [BlockArg (mkArg 0 0); BlockArg (mkArg 0 1); BlockArg (mkArg 0 2);
                  BlockArg (mkArg 0 3)]
                 [tensorOf blockedA] [[1]] (Some 0) false false false;
            plainOp ConvertLayoutOp [BlockArg (mkArg 1 1)] [tensorOf blockedB] 1;
            plainOp ConvertLayoutOp [BlockArg (mkArg 1 1)] [tensorOf sharedVec1] 1;
            plainOp ConstantOp [] [tensorOf blockedA] 1;
            plainOp YieldOp [OpResult 3 0] [] 1 ]
          [ mkBlock [IntegerType 32; IntegerType 32; IntegerType 32;
                     tensorOf blockedA] [0] None;
            mkBlock [IntegerType 32; tensorOf blockedA] [1; 2; 3; 4] (Some 0) ].

(** *** The plan of the simulator *)

(** The plan [st] pushes a layout through the instruction [o]: for a layout
    of its layout set, every operand of [o] is recorded with the layout
    that [invertEncoding] gives for it. *)
Definition planInverts (g : IR) (st : SimState) (o : OpId) : Prop :=
  ∃ op L newEncoding,
    getOp g o = Some op ∧ L ∈ layout st ∧
    (opOperands op ≠ [] → invertEncoding L op = Some newEncoding) ∧
    ∀ v, v ∈ opOperands op → mapLookup v (toConvert st) = Some newEncoding.

(** ** Part II: properties *)

(** C4.  For a reduction over axis [a], inversion of a result layout [L] is
    defined exactly when [L] is a slice layout whose axis is [a], and then
    yields the parent of [L]; for a view or a concatenation it is never
    defined. *)
Theorem invertEncoding_reduce_view_cat (op : Operation) (L : Attribute) :
  (∀ a, opKind op = ReduceOp a →
     (∀ r, invertEncoding L op = Some r ↔ L = SliceEncodingAttr a r) ∧
     (invertEncoding L op = None ↔ ¬ ∃ p, L = SliceEncodingAttr a p)) ∧
  (opKind op = ViewOp ∨ opKind op = CatOp → invertEncoding L op = None).
Proof.
  split.
  - intros a Hk. unfold invertEncoding. rewrite Hk.
    destruct L as [| dim parent | | |]; simpl;
      try (split; [intros r; split; [discriminate | discriminate]
                  | split; [intros _ [p Hp]; discriminate | reflexivity]]).
    destruct (decide (dim ≠ a)) as [Hne | Heq].
    + split.
      * intros r. split; [discriminate |]. intros [= ? ?]. congruence.
      * split; [| reflexivity]. intros _ [p [= ? ?]]. congruence.
    + apply dec_stable in Heq. subst dim. split.
      * intros r. split; [intros [= ->]; reflexivity | intros [= ->]; reflexivity].
      * split; [discriminate |]. intros Hn. exfalso. apply Hn. eauto.
  - intros [Hk | Hk]; unfold invertEncoding; rewrite Hk; reflexivity.
Qed.

(** *** The LLVM containers *)

Section Containers.
Context {A K V : Type} `{EqDecision A} `{EqDecision K}.

Lemma elem_of_setInsert (x y : A) (s : list A) :
  y ∈ setInsert x s ↔ y = x ∨ y ∈ s.
Proof.
  unfold setInsert. destruct (decide (x ∈ s)) as [Hin | Hin].
  - split; [auto |]. intros [-> | ?]; assumption.
  - rewrite elem_of_app, list_elem_of_singleton. tauto.
Qed.

Lemma setInsert_self (x : A) (s : list A) : x ∈ setInsert x s.
Proof. apply elem_of_setInsert. auto. Qed.

Lemma setInsert_elem_of (x : A) (s : list A) : x ∈ s → setInsert x s = s.
Proof. intros Hin. unfold setInsert. rewrite decide_True; auto. Qed.

Lemma setContains_false (x : A) (s : list A) : setContains x s = false ↔ x ∉ s.
Proof. unfold setContains. apply bool_decide_eq_false. Qed.

Lemma mapLookup_app (k : K) (m1 m2 : list (K * V)) :
  mapLookup k (m1 ++ m2) =
  match mapLookup k m1 with Some v => Some v | None => mapLookup k m2 end.
Proof.
  induction m1 as [| [k' v'] m1 IH]; simpl; [reflexivity |].
  destruct (decide (k = k')); auto.
Qed.

(** [insert] then [lookup] of the same key: the entry that was there, or
    the new one. *)
Lemma mapLookup_insert_eq (k : K) (v : V) (m : list (K * V)) :
  mapLookup k (mapInsert k v m) =
  match mapLookup k m with Some w => Some w | None => Some v end.
Proof.
  unfold mapInsert. destruct (mapLookup k m) as [w |] eqn:E.
  - exact E.
  - rewrite mapLookup_app, E. simpl. rewrite decide_True; auto.
Qed.

Lemma mapLookup_insert_ne (k k' : K) (v : V) (m : list (K * V)) :
  k ≠ k' → mapLookup k' (mapInsert k v m) = mapLookup k' m.
Proof.
  intros Hne. unfold mapInsert. destruct (mapLookup k m) eqn:E; [reflexivity |].
  rewrite mapLookup_app. destruct (mapLookup k' m); [reflexivity |].
  simpl. rewrite decide_False; auto.
Qed.

End Containers.

(** *** The backward simulator *)

Section SimulatorProps.
Context `{Framework}.

(** An expensive instruction on top of the stack ends the walk with the
    running count and the containers as they are. *)
Lemma simulateStep_expensive (g : IR) (n : Z) (o : option OpId)
    (L : Attribute) (q : Queue) (st : SimState) :
  isExpensiveToRemat g o L = Some true →
  simulateStep g (mkLoop n ((o, L) :: q) st) = Exit n st.
Proof. intros He. unfold simulateStep. simpl. rewrite He. reflexivity. Qed.
End SimulatorProps.

(** C9.  The classifier answers "expensive" for a null instruction, so a walk
    whose seed is null ends at its first pop, in any IR (the arena is never
    read), with the count still 1 and the three containers unchanged. *)
Theorem null_seed_stops_at_first_pop `{Framework}
    (fuel : nat) (g : IR) (st : SimState) (L : Attribute) :
  isExpensiveToRemat g None L = Some true ∧
  simulateBackwardRematerialization (S fuel) g None st L = Done (1%Z, st) ∧
  visits (S fuel) g (mkLoop 1%Z [(None, L)] st) = [].
Proof. repeat split. Qed.

(** C1, as the code has it.  When the seed is classified expensive under the
    target layout, the simulator leaves the loop at the first pop and returns
    the running count, which is still 1: a strictly positive delta, not the
    [INT_MAX] sentinel.  The three containers are returned unchanged, and the
    IR is only read. *)
Theorem expensive_seed_returns_one `{Framework}
    (fuel : nat) (g : IR) (initOp : option OpId) (st : SimState) (L : Attribute) :
  isExpensiveToRemat g initOp L = Some true →
  simulateBackwardRematerialization (S fuel) g initOp st L = Done (1%Z, st) ∧
  1%Z ≠ INT_MAX.
Proof.
  intros He. split; [| discriminate].
  unfold simulateBackwardRematerialization. simpl.
  rewrite (simulateStep_expensive _ _ _ _ _ _ He). reflexivity.
Qed.

Lemma expensive_seed_returns_one_witness :
  isExpensiveToRemat (H := exampleFramework) atomicGraph (Some 0) blockedB
    = Some true ∧
  simulateBackwardRematerialization (H := exampleFramework) 1 atomicGraph
    (Some 0) emptySim blockedB = Done (1%Z, emptySim) ∧
  1%Z ≠ INT_MAX.
Proof.
  split; [reflexivity |].
  apply (expensive_seed_returns_one (H := exampleFramework) 0 atomicGraph
           (Some 0) emptySim blockedB).
  reflexivity.
Defined.

(** C1 as the specification words it fails: on an atomic read-modify-write
    seed the simulator returns 1, and 1 is not the sentinel. *)
Lemma expensive_seed_not_sentinel :
  isExpensiveToRemat (H := exampleFramework) atomicGraph (Some 0) blockedB
    = Some true ∧
  ∃ n, simulateBackwardRematerialization (H := exampleFramework) 5 atomicGraph
         (Some 0) emptySim blockedB = Done (n, emptySim) ∧ (n < INT_MAX)%Z.
Proof. split; [reflexivity |]. exists 1%Z. split; [reflexivity | reflexivity]. Qed.

Section OperandLoop.
Context `{Framework}.

(** What a completed pass over the operands has done: entries of the map
    are kept, every operand has one, and the stack has grown by
    instructions of the arena that are not marked processed, each counted
    once in [numCvts]. *)
Lemma visitOperands_Proceed (g : IR) (op : Operation) (L : Attribute)
    (seen : list OpId) (args : list Value) :
  ∀ (n : Z) (q : Queue) (tc : list (Value * Attribute)) n' q' tc',
  visitOperands g op L seen args n q tc = Some (Proceed n' q' tc') →
  (∀ v x, mapLookup v tc = Some x → mapLookup v tc' = Some x) ∧
  (∀ v, v ∈ args → is_Some (mapLookup v tc')) ∧
  ∃ new, q' = new ++ q ∧ n' = (n + Z.of_nat (length new))%Z ∧
    Forall (freshEntry g seen) new.
Proof.
  induction args as [| argI rest IH]; intros n q tc n' q' tc' Hv.
  - simpl in Hv. injection Hv as <- <- <-. split; [auto |]. split.
    + intros v Hin. inversion Hin.
    + exists []. simpl. split; [reflexivity |]. split; [lia | constructor].
  - simpl in Hv.
    destruct (invertEncoding L op) as [newEncoding |]; [| discriminate].
    destruct (bool_decide (is_Some (mapLookup argI tc)) &&
              bool_decide (mapLookup argI tc ≠ Some newEncoding));
      [discriminate |].
    destruct (getType g argI) as [ty |]; [| discriminate]. simpl in Hv.
    destruct (isPointerToTensor ty); [discriminate |].
    assert (Hkeep : ∀ n1 q1,
      visitOperands g op L seen rest n1 q1 (mapInsert argI newEncoding tc)
        = Some (Proceed n' q' tc') →
      (∃ new, q1 = new ++ q ∧ n1 = (n + Z.of_nat (length new))%Z ∧
         Forall (freshEntry g seen) new) →
      (∀ v x, mapLookup v tc = Some x → mapLookup v tc' = Some x) ∧
      (∀ v, v ∈ argI :: rest → is_Some (mapLookup v tc')) ∧
      ∃ new, q' = new ++ q ∧ n' = (n + Z.of_nat (length new))%Z ∧
        Forall (freshEntry g seen) new).
    { intros n1 q1 Hrest (new1 & -> & -> & Hnew1).
      destruct (IH _ _ _ _ _ _ Hrest) as (Hpres & Hall & new2 & -> & -> & Hnew2).
      assert (Hins : ∀ v x, mapLookup v tc = Some x →
                mapLookup v (mapInsert argI newEncoding tc) = Some x).
      { intros v x Hx. destruct (decide (argI = v)) as [-> | Hne].
        - rewrite mapLookup_insert_eq, Hx. reflexivity.
        - rewrite mapLookup_insert_ne; auto. }
      split; [intros v x Hx; apply Hpres, Hins, Hx |]. split.
      - intros v Hin. apply elem_of_cons in Hin as [-> | Hin]; [| auto].
        assert (Hs : is_Some (mapLookup argI (mapInsert argI newEncoding tc))).
        { rewrite mapLookup_insert_eq. destruct (mapLookup argI tc); eauto. }
        destruct Hs as [x Hx]. exists x. apply Hpres, Hx.
      - exists (new2 ++ new1). rewrite app_assoc. split; [reflexivity |].
        split; [rewrite length_app; lia |]. apply Forall_app. auto. }
    assert (Hsame : ∃ new, q = new ++ q ∧ n = (n + Z.of_nat (length new))%Z ∧
        Forall (freshEntry g seen) new).
    { exists []. simpl. split; [reflexivity |]. split; [lia | constructor]. }
    destruct (isRankedTensorType ty); simpl in Hv; [| eapply Hkeep; eauto].
    destruct (getDefiningOp argI) as [o |] eqn:Hdef; [| eapply Hkeep; eauto].
    destruct (setContains o seen) eqn:Hdone; [eapply Hkeep; eauto |].
    destruct (getOp g o) as [opr |] eqn:Hop; [| discriminate]. simpl in Hv.
    destruct (bool_decide (opBlock opr ≠ opBlock op)); [eapply Hkeep; eauto |].
    destruct (canFoldConversion g o newEncoding) as [[|] |]; simpl in Hv;
      [eapply Hkeep; eauto | | discriminate].
    eapply Hkeep; [exact Hv |].
    exists [(Some o, newEncoding)]. simpl. split; [reflexivity |].
    split; [lia |]. constructor; [| constructor].
    exists o. simpl. split; [reflexivity |]. split.
    + apply setContains_false, Hdone.
    + rewrite Hop. eauto.
Qed.
End OperandLoop.

Section StepInversion.
Context `{Framework}.

(** An iteration that goes on has popped a cheap instruction of the arena,
    marked it, and completed the pass over its operands. *)
Lemma simulateStep_Next (g : IR) (s s' : LoopState) :
  simulateStep g s = Next s' →
  ∃ o L q opr,
    lsQueue s = (Some o, L) :: q ∧ getOp g o = Some opr ∧
    isExpensiveToRemat g (Some o) L = Some false ∧
    processed (lsSim s') = setInsert o (processed (lsSim s)) ∧
    layout (lsSim s') = setInsert L (layout (lsSim s)) ∧
    visitOperands g opr L (processed (lsSim s')) (opOperands opr)
      (lsNumCvts s - 1)%Z q (toConvert (lsSim s))
    = Some (Proceed (lsNumCvts s') (lsQueue s') (toConvert (lsSim s'))).
Proof.
  unfold simulateStep. intros Hs.
  destruct (lsQueue s) as [| [currOp L] q]; [discriminate |].
  destruct (isExpensiveToRemat g currOp L) as [[|] |] eqn:He; try discriminate.
  destruct currOp as [o |]; [| discriminate]. simpl in Hs.
  destruct (getOp g o) as [opr |] eqn:Hop; [| discriminate]. simpl in Hs.
  destruct (visitOperands _ _ _ _ _ _ _ _) as [[tc | n' q' tc'] |] eqn:Hv;
    try discriminate.
  injection Hs as <-. simpl. exists o, L, q, opr. auto 10.
Qed.

(** An iteration that leaves the loop either met an expensive instruction
    and changed nothing, or returns the sentinel. *)
Lemma simulateStep_Exit (g : IR) (s : LoopState) (r : Z) (st : SimState) :
  simulateStep g s = Exit r st →
  (r = lsNumCvts s ∧ st = lsSim s) ∨ r = INT_MAX.
Proof.
  unfold simulateStep. intros Hs.
  destruct (lsQueue s) as [| [currOp L] q]; [injection Hs as <- <-; auto |].
  destruct (isExpensiveToRemat g currOp L) as [[|] |]; try discriminate;
    [injection Hs as <- <-; auto |].
  destruct (currOp ≫= _) as [[o opr] |]; [| discriminate].
  destruct (visitOperands _ _ _ _ _ _ _ _) as [[tc | n' q' tc'] |];
    try discriminate.
  injection Hs as <- <-. auto.
Qed.

Lemma simulateStep_recorded (g : IR) (s s' : LoopState) :
  simulateStep g s = Next s' →
  operandsRecorded g (lsSim s) → operandsRecorded g (lsSim s').
Proof.
  intros Hs Hinv.
  destruct (simulateStep_Next _ _ _ Hs)
    as (o & L & q & opr & Hq & Hop & _ & Hp & _ & Hv).
  destruct (visitOperands_Proceed _ _ _ _ _ _ _ _ _ _ _ Hv)
    as (Hpres & Hall & _).
  intros o' opr' v Hin Hop' Hv'. rewrite Hp in Hin.
  apply elem_of_setInsert in Hin as [-> | Hin].
  - rewrite Hop in Hop'. injection Hop' as <-. auto.
  - destruct (Hinv _ _ _ Hin Hop' Hv') as [x Hx]. exists x. auto.
Qed.

Lemma simulateLoop_recorded (g : IR) (fuel : nat) :
  ∀ (s : LoopState) (n : Z) (st' : SimState),
  operandsRecorded g (lsSim s) →
  simulateLoop fuel g s = Done (n, st') → n ≠ INT_MAX →
  operandsRecorded g st'.
Proof.
  induction fuel as [| fuel IH]; intros s n st' Hinv Hrun Hn; simpl in Hrun.
  - destruct (lsQueue s); [| discriminate]. injection Hrun as <- <-. exact Hinv.
  - destruct (lsQueue s) eqn:Hq; [injection Hrun as <- <-; exact Hinv |].
    destruct (simulateStep g s) as [s1 | r st |] eqn:Hs; [| | discriminate].
    + apply (IH s1 n st'); [| exact Hrun | exact Hn].
      eapply simulateStep_recorded; eauto.
    + injection Hrun as -> ->.
      destruct (simulateStep_Exit _ _ _ _ Hs) as [[_ ->] | ->]; [exact Hinv |].
      contradiction.
Qed.
End StepInversion.

(** C10.  When a run of the simulator returns something other than the
    sentinel, the returned map has an entry for every operand of every
    instruction in the returned processed set, whatever the type of the
    operand: the entry is written (line 402) before the filter of lines
    407-410 decides whether the operand is pushed.  The containers passed in
    are assumed to satisfy the same property, as empty ones do. *)
Theorem successful_run_records_every_operand `{Framework}
    (fuel : nat) (g : IR) (initOp : option OpId) (st st' : SimState)
    (L : Attribute) (n : Z) :
  operandsRecorded g st →
  simulateBackwardRematerialization fuel g initOp st L = Done (n, st') →
  n ≠ INT_MAX →
  operandsRecorded g st'.
Proof.
  intros Hinv Hrun Hn. unfold simulateBackwardRematerialization in Hrun.
  eapply simulateLoop_recorded; [| exact Hrun | exact Hn]. exact Hinv.
Qed.

Lemma successful_run_records_every_operand_witness :
  operandsRecorded sharedOperandGraph emptySim ∧
  operandsRecorded sharedOperandGraph
    (mkSim [2; 1; 0] [blockedB]
       [(OpResult 0 0, blockedB); (OpResult 1 0, blockedB);
        (BlockArg (mkArg 0 0), blockedB)]).
Proof.
  assert (Hempty : operandsRecorded sharedOperandGraph emptySim).
  { intros o opr v Hin. inversion Hin. }
  split; [exact Hempty |].
  apply (successful_run_records_every_operand (H := exampleFramework)
           10 sharedOperandGraph (Some 2) emptySim _ blockedB 0%Z).
  - exact Hempty.
  - reflexivity.
  - discriminate.
Defined.

Section ScenarioA.
Context `{Framework}.

(** When every operand is foldable, the pass over the operands pushes
    nothing and records [L] for each of them. *)
Lemma visitOperands_foldable (g : IR) (op : Operation) (L : Attribute)
    (seen : list OpId) (n : Z) (q : Queue) (args : list Value) :
  invertEncoding L op = Some L →
  ∀ tc, (∀ v, v ∈ args → foldableOperand g tc L v) →
  ∃ tc', visitOperands g op L seen args n q tc = Some (Proceed n q tc') ∧
         ∀ v, v ∈ args → mapLookup v tc' = Some L.
Proof.
  intros Hinv. induction args as [| argI rest IH]; intros tc Hargs.
  - exists tc. split; [reflexivity |]. intros v Hin. inversion Hin.
  - destruct (Hargs argI) as ((ty & Hty & Hptr) & (o & Hdef & Hfold) & Htc);
      [left |].
    assert (Hnow : mapLookup argI (mapInsert argI L tc) = Some L).
    { rewrite mapLookup_insert_eq. destruct Htc as [-> | ->]; reflexivity. }
    destruct (IH (mapInsert argI L tc)) as (tc' & Hrest & Hall).
    { intros v Hin. destruct (Hargs v) as (Ht & Hd & Hl); [right; exact Hin |].
      split; [exact Ht |]. split; [exact Hd |].
      destruct (decide (argI = v)) as [<- | Hne]; [right; exact Hnow |].
      rewrite mapLookup_insert_ne; auto. }
    assert (Hkept : mapLookup argI tc' = Some L).
    { destruct (visitOperands_Proceed _ _ _ _ _ _ _ _ _ _ _ Hrest) as (Hp & _).
      apply Hp, Hnow. }
    exists tc'. split.
    + simpl. rewrite Hinv.
      assert (Hconf : bool_decide (is_Some (mapLookup argI tc)) &&
                      bool_decide (mapLookup argI tc ≠ Some L) = false).
      { destruct Htc as [-> | ->].
        - rewrite bool_decide_eq_false_2; [reflexivity |]. intros [x Hx].
          discriminate.
        - rewrite andb_comm, bool_decide_eq_false_2; [reflexivity |]. auto. }
      rewrite Hconf, Hty. simpl. rewrite Hptr, Hdef.
      unfold canFoldConversion in Hfold.
      destruct (getOp g o) as [opr |] eqn:Hop; [| discriminate].
      fold (canFoldConversion g o L). 
      destruct (isRankedTensorType ty); simpl; [| exact Hrest].
      destruct (setContains o seen); [exact Hrest |].
      simpl. destruct (bool_decide (opBlock opr ≠ opBlock op)); [exact Hrest |].
      unfold canFoldConversion. rewrite Hop. simpl in *. rewrite Hfold. simpl.
      exact Hrest.
    + intros v Hin. apply elem_of_cons in Hin as [-> | Hin]; auto.
Qed.
End ScenarioA.

(** C5.  A seed that is not expensive, whose inversion rule hands the target
    layout on unchanged, and whose operands all come from producers that can
    fold the conversion: the simulator returns 0, the seed is in the
    processed set, and the map holds the target layout for every operand.
    (The operands are values the IR gives a type other than a pointer to a
    tensor, and the map passed in records no other layout for them.) *)
Theorem foldable_operands_delta_zero `{Framework}
    (fuel : nat) (g : IR) (seed : OpId) (op : Operation) (st : SimState)
    (L : Attribute) :
  getOp g seed = Some op →
  isExpensiveToRemat g (Some seed) L = Some false →
  invertEncoding L op = Some L →
  (∀ v, v ∈ opOperands op → foldableOperand g (toConvert st) L v) →
  ∃ st', simulateBackwardRematerialization (S fuel) g (Some seed) st L
           = Done (0%Z, st') ∧
         processed st' = setInsert seed (processed st) ∧
         seed ∈ processed st' ∧
         ∀ v, v ∈ opOperands op → mapLookup v (toConvert st') = Some L.
Proof.
  intros Hop Hexp Hinv Hargs.
  destruct (visitOperands_foldable g op L (setInsert seed (processed st)) 0 []
              (opOperands op) Hinv (toConvert st) Hargs) as (tc' & Hv & Hall).
  exists (mkSim (setInsert seed (processed st)) (setInsert L (layout st)) tc').
  split; [| split; [reflexivity | split; [apply setInsert_self | exact Hall]]].
  unfold simulateBackwardRematerialization.
  cbn [simulateLoop lsQueue]. unfold simulateStep.
  cbn [lsQueue lsNumCvts lsSim]. rewrite Hexp.
  cbn [mbind option_bind]. rewrite Hop. cbn [mbind option_bind].
  change (1 - 1)%Z with 0%Z. rewrite Hv. destruct fuel; reflexivity.
Qed.

Lemma foldable_operands_delta_zero_witness :
  ∃ st', simulateBackwardRematerialization (H := exampleFramework) 1 addGraph
           (Some 2) emptySim blockedB = Done (0%Z, st') ∧
         processed st' = setInsert 2 (processed emptySim) ∧
         2 ∈ processed st' ∧
         ∀ v, v ∈ [OpResult 0 0; OpResult 1 0] →
              mapLookup v (toConvert st') = Some blockedB.
Proof.
  apply (foldable_operands_delta_zero (H := exampleFramework) 0 addGraph 2
           (elementwiseOp [OpResult 0 0; OpResult 1 0] [tensorOf blockedA] 0)
           emptySim blockedB).
  - reflexivity.
  - reflexivity.
  - reflexivity.
  - intros v Hin. unfold foldableOperand.
    apply elem_of_cons in Hin as [-> | Hin];
      [| apply elem_of_cons in Hin as [-> | Hin]; [| inversion Hin]].
    + split; [exists (tensorOf blockedA); split; reflexivity |].
      split; [exists 0; split; reflexivity | left; reflexivity].
    + split; [exists (tensorOf blockedA); split; reflexivity |].
      split; [exists 1; split; reflexivity | left; reflexivity].
Defined.

(** *** Termination of the walk *)

Section Termination.
Context `{Framework}.

Lemma unprocessed_setInsert (g : IR) (seen : list OpId) (o : OpId) :
  is_Some (getOp g o) → o ∉ seen →
  unprocessed g (setInsert o seen) < unprocessed g seen.
Proof.
  intros Hop Hnew. unfold unprocessed, setInsert. rewrite decide_False by done.
  set (l := seq 0 (length (irOps g))).
  assert (Hfil : filter (λ x, x ∉ seen ++ [o]) l
                 = filter (λ x, x ≠ o) (filter (λ x, x ∉ seen) l)).
  { rewrite list_filter_filter. apply list_filter_iff. intros x.
    rewrite elem_of_app, list_elem_of_singleton. tauto. }
  rewrite Hfil. apply length_filter_lt with (x := o); [| tauto].
  apply list_elem_of_filter. split; [exact Hnew |].
  apply elem_of_seq. destruct Hop as [op Hop]. unfold getOp in Hop.
  destruct (irOps g !! o) eqn:E; [| discriminate].
  apply lookup_lt_Some in E. lia.
Qed.

Lemma staleEntries_fresh (g : IR) (seen : list OpId) (new q : Queue) :
  Forall (freshEntry g seen) new →
  staleEntries seen (new ++ q) = staleEntries seen q.
Proof.
  intros Hnew. unfold staleEntries. rewrite list.filter_app, length_app.
  induction Hnew as [| e new (o & He & Hno & _) _ IH]; [reflexivity |].
  rewrite filter_cons_False; [exact IH |].
  unfold staleEntry. rewrite He. exact Hno.
Qed.

Lemma wellTypedIR_op (g : IR) (o : OpId) (op : Operation) :
  wellTypedIR g = true → getOp g o = Some op → wellTypedOp g op = true.
Proof.
  intros Hwf Hop. unfold wellTypedIR in Hwf.
  rewrite forallb_forall in Hwf. unfold getOp in Hop.
  destruct (irOps g !! o) as [slot |] eqn:E; [| discriminate].
  simpl in Hop. subst slot. apply (Hwf (Some op)).
  apply list_elem_of_In, list_elem_of_lookup. exists o. exact E.
Qed.

Lemma wellTypedOp_operand (g : IR) (op : Operation) (v : Value) :
  wellTypedOp g op = true → v ∈ opOperands op → is_Some (getType g v).
Proof.
  intros Hwf Hin. apply andb_prop in Hwf as [Hops _].
  rewrite forallb_forall in Hops.
  apply list_elem_of_In in Hin. apply Hops in Hin.
  apply bool_decide_eq_true in Hin. exact Hin.
Qed.

(** On typed operands the pass over the operands has a result. *)
Lemma visitOperands_defined (g : IR) (op : Operation) (L : Attribute)
    (seen : list OpId) (args : list Value) :
  (∀ v, v ∈ args → is_Some (getType g v)) →
  ∀ n q tc, is_Some (visitOperands g op L seen args n q tc).
Proof.
  induction args as [| argI rest IH]; intros Hty n q tc; [simpl; eauto |].
  assert (Hrest : ∀ v, v ∈ rest → is_Some (getType g v)).
  { intros v Hin. apply Hty. right. exact Hin. }
  specialize (IH Hrest). simpl.
  destruct (invertEncoding L op) as [newEncoding |]; [| eauto].
  destruct (_ && _); [eauto |].
  destruct (Hty argI) as [ty Hargty]; [left |]. rewrite Hargty. simpl.
  destruct (isPointerToTensor ty); [eauto |].
  destruct (isRankedTensorType ty); simpl; [| apply IH].
  destruct argI as [o i | a]; simpl; [| apply IH].
  destruct (setContains o seen); [apply IH |].
  simpl in Hargty. unfold canFoldConversion.
  destruct (getOp g o) as [opr |]; [| discriminate]. simpl.
  destruct (bool_decide (opBlock opr ≠ opBlock op)); [apply IH |].
  destruct (opKind opr); simpl; try apply IH.
  destruct (negb _); apply IH.
Qed.

(** In a well-typed IR an iteration on an instruction of the arena (or on
    the null seed) is never stuck. *)
Lemma simulateStep_defined (g : IR) (s : LoopState) :
  wellTypedIR g = true →
  Forall (λ e, ∀ o, fst e = Some o → is_Some (getOp g o)) (lsQueue s) →
  simulateStep g s ≠ Stuck.
Proof.
  intros Hwf Hq. unfold simulateStep.
  destruct (lsQueue s) as [| [currOp L] q]; [discriminate |].
  apply Forall_cons_1 in Hq as [Hhd _]. simpl in Hhd.
  destruct currOp as [o |]; [| discriminate].
  destruct (Hhd o eq_refl) as [opr Hop].
  pose proof (wellTypedIR_op _ _ _ Hwf Hop) as Hwfop.
  assert (Hexp : is_Some (isExpensiveToRemat g (Some o) L)).
  { unfold isExpensiveToRemat. rewrite Hop. simpl.
    apply andb_prop in Hwfop as [_ Hls].
    destruct (opKind opr); eauto; apply bool_decide_eq_true in Hls; exact Hls. }
  destruct Hexp as [[|] ->]; [discriminate |].
  cbn [mbind option_bind]. rewrite Hop. cbn [mbind option_bind].
  destruct (visitOperands_defined g opr L
              (setInsert o (processed (lsSim s))) (opOperands opr)
              (λ v, wellTypedOp_operand _ _ v Hwfop)
              (lsNumCvts s - 1)%Z q (toConvert (lsSim s))) as [[tc | n' q' tc'] ->];
    discriminate.
Qed.

(** What an iteration pushes: entries of instructions that are not marked
    processed, on top of the rest of the stack. *)
Lemma simulateStep_pushes_fresh (g : IR) (s s' : LoopState) :
  simulateStep g s = Next s' →
  ∃ new, lsQueue s' = new ++ tail (lsQueue s) ∧
         Forall (freshEntry g (processed (lsSim s'))) new.
Proof.
  intros Hs.
  destruct (simulateStep_Next _ _ _ Hs)
    as (o & L & q & opr & Hq & _ & _ & _ & _ & Hv).
  destruct (visitOperands_Proceed _ _ _ _ _ _ _ _ _ _ _ Hv)
    as (_ & _ & new & Hnew & _ & Hfresh).
  exists new. rewrite Hq. simpl. auto.
Qed.

Lemma simulateLoop_terminates (g : IR) :
  wellTypedIR g = true →
  ∀ (u k : nat) (s : LoopState),
  Forall (λ e, ∀ o, fst e = Some o → is_Some (getOp g o)) (lsQueue s) →
  unprocessed g (processed (lsSim s)) ≤ u →
  staleEntries (processed (lsSim s)) (lsQueue s) ≤ k →
  ∃ fuel r, simulateLoop fuel g s = Done r.
Proof.
  intros Hwf u. induction u as [u IHu] using lt_wf_ind.
  intros k. induction k as [k IHk] using lt_wf_ind.
  intros s Hq Hu Hk.
  destruct (lsQueue s) as [| e q] eqn:Eq.
  { exists 0, (lsNumCvts s, lsSim s). simpl. rewrite Eq. reflexivity. }
  destruct (simulateStep g s) as [s' | r st |] eqn:Hs.
  - destruct (simulateStep_Next _ _ _ Hs)
      as (o & L & q0 & opr & Hq0 & Hop & _ & Hp & _ & _).
    destruct (simulateStep_pushes_fresh _ _ _ Hs) as (new & Hq' & Hfresh).
    rewrite Eq in Hq0. injection Hq0 as -> ->.
    rewrite Eq in Hq'. simpl in Hq'.
    assert (Hvalid : Forall (λ e, ∀ o, fst e = Some o → is_Some (getOp g o))
                       (lsQueue s')).
    { rewrite Hq'. apply Forall_app. split.
      - eapply List.Forall_impl; [| exact Hfresh].
        intros e (o' & He & _ & Hs') o'' He'. congruence.
      - apply Forall_cons_1 in Hq as [_ Hq]. exact Hq. }
    assert (Hrec : ∃ fuel r, simulateLoop fuel g s' = Done r).
    { destruct (decide (o ∈ processed (lsSim s))) as [Hin | Hnin].
      - assert (Hsame : processed (lsSim s') = processed (lsSim s)).
        { rewrite Hp. apply setInsert_elem_of, Hin. }
        assert (Hst : S (staleEntries (processed (lsSim s')) (lsQueue s'))
                      = staleEntries (processed (lsSim s)) (lsQueue s)).
        { rewrite Hq', (staleEntries_fresh g) by exact Hfresh.
          rewrite Hsame, Eq. unfold staleEntries.
          rewrite filter_cons_True; [reflexivity | exact Hin]. }
        rewrite Eq in Hst.
        refine (IHk _ _ s' Hvalid _ (Nat.le_refl _)); [lia |].
        rewrite Hsame. exact Hu.
      - assert (Hlt : unprocessed g (processed (lsSim s'))
                      < unprocessed g (processed (lsSim s))).
        { rewrite Hp. apply unprocessed_setInsert; [rewrite Hop; eauto | exact Hnin]. }
        refine (IHu _ _ _ s' Hvalid (Nat.le_refl _) (Nat.le_refl _)). lia. }
    destruct Hrec as (fuel & r & Hrun). exists (S fuel), r.
    simpl. rewrite Eq, Hs. exact Hrun.
  - exists 1, (r, st). simpl. rewrite Eq, Hs. reflexivity.
  - exfalso. apply (simulateStep_defined g s Hwf); [| exact Hs].
    rewrite Eq. exact Hq.
Qed.

(** More fuel does not change a result. *)
Lemma simulateLoop_fuel_mono (g : IR) (fuel : nat) :
  ∀ s r fuel', simulateLoop fuel g s = Done r → fuel ≤ fuel' →
               simulateLoop fuel' g s = Done r.
Proof.
  induction fuel as [| fuel IH]; intros s r fuel' Hrun Hle.
  - simpl in Hrun. destruct (lsQueue s) eqn:Eq; [| discriminate].
    destruct fuel'; simpl; rewrite Eq; exact Hrun.
  - destruct fuel' as [| fuel']; [lia |]. simpl in *.
    destruct (lsQueue s); [exact Hrun |].
    destruct (simulateStep g s); try exact Hrun.
    apply IH; [exact Hrun | lia].
Qed.
End Termination.

(** C8, as the code has it.  The processed set is consulted when an operand
    is about to be pushed (line 408), not when an entry is popped: an
    iteration pushes only instructions that are not marked processed, so a
    marked instruction is never pushed again, but one that was pushed more
    than once before its first pop is popped and processed once per entry.
    The walk ends with a result on every well-typed IR (the arena is finite),
    acyclic or not. *)
Theorem walk_never_repushes_and_terminates `{Framework}
    (g : IR) (initOp : option OpId) (st : SimState) (L : Attribute) :
  wellTypedIR g = true →
  (∀ o, initOp = Some o → is_Some (getOp g o)) →
  (∃ fuel r, simulateBackwardRematerialization fuel g initOp st L = Done r) ∧
  (∀ s s', simulateStep g s = Next s' →
     ∃ new, lsQueue s' = new ++ tail (lsQueue s) ∧
            Forall (freshEntry g (processed (lsSim s'))) new).
Proof.
  intros Hwf Hseed. split.
  - unfold simulateBackwardRematerialization.
    eapply (simulateLoop_terminates g Hwf); [| apply Nat.le_refl | apply Nat.le_refl].
    simpl. constructor; [exact Hseed | constructor].
  - intros s s'. apply simulateStep_pushes_fresh.
Qed.

Lemma walk_never_repushes_and_terminates_witness :
  wellTypedIR (H := exampleFramework) sharedOperandGraph = true ∧
  (∃ fuel r, simulateBackwardRematerialization (H := exampleFramework) fuel
               sharedOperandGraph (Some 2) emptySim blockedB = Done r) ∧
  (∀ s s', simulateStep (H := exampleFramework) sharedOperandGraph s = Next s' →
     ∃ new, lsQueue s' = new ++ tail (lsQueue s) ∧
            Forall (freshEntry sharedOperandGraph (processed (lsSim s'))) new).
Proof.
  split; [reflexivity |].
  apply (walk_never_repushes_and_terminates (H := exampleFramework)
           sharedOperandGraph (Some 2) emptySim blockedB).
  - reflexivity.
  - intros o [= <-]. simpl. eauto.
Defined.

(** C8 as the specification words it fails: with [%2 = addf %0, %1] and
    [%1 = neg %0], the producer of [%0] is pushed for the seed and again for
    [%1] before it is popped, and is then popped and processed twice. *)
Lemma shared_operand_processed_twice :
  visits (H := exampleFramework) 4 sharedOperandGraph
         (mkLoop 1%Z [(Some 2, blockedB)] emptySim) = [2; 1; 0; 0] ∧
  ∃ st', simulateBackwardRematerialization (H := exampleFramework) 4
           sharedOperandGraph (Some 2) emptySim blockedB = Done (0%Z, st') ∧
         processed st' = [2; 1; 0].
Proof. split; [reflexivity |]. eexists. split; reflexivity. Qed.

(** *** The count *)

Section Count.
Context `{Framework}.


End Count.

(** *** The forward check *)

Section ForwardProps.
Context `{Framework}.

(** Seeded with the producer of a block argument, that is with null, the
    check of lines 530-534 never rejects. *)
Lemma checkProducer_of_argument (fuel : nat) (g : IR) (slice : list OpId)
    (L : Attribute) (arg : BlockArgument) :
  checkProducer (S fuel) g slice L (getDefiningOp (BlockArg arg)) = Done true.
Proof. reflexivity. Qed.

Lemma operand_loop_never_rejects (fuel : nat) (g : IR) (slice : list OpId)
    (L : Attribute) (arg : BlockArgument) (operands : list Value) :
  allResult (λ value, checkProducer (S fuel) g slice L
                        (getDefiningOp (BlockArg arg))) operands = Done true.
Proof.
  induction operands as [| v rest IH]; [reflexivity |].
  cbn [allResult]. rewrite checkProducer_of_argument. exact IH.
Qed.
End ForwardProps.

(** C2.  The loop over the operands of a slice instruction seeds the
    simulator with the producer of the block argument [arg], which is null,
    so it rejects nothing.  In [loopGraph] the operand [%1] of the slice
    instruction [%3] is produced by a matrix product that is outside the
    slice, is not a conversion, and for which the simulator reports the
    delta 1: the check as specified fails, the function succeeds. *)
Theorem forward_check_skips_operand_producers :
  (∀ `{Framework} fuel g slice L arg (operands : list Value),
     allResult (λ value, checkProducer (S fuel) g slice L
                           (getDefiningOp (BlockArg arg))) operands
     = Done true) ∧
  getForwardSliceOpUseInfo 5 loopGraph (Some 2) ([], []) =
    Done ([4; 3; 2], [mkUse (OpResult 2 0) 3 0; mkUse (OpResult 3 0) 4 0]) ∧
  (opOperands <$> getOp loopGraph 3) = Some [OpResult 2 0; OpResult 1 0] ∧
  (opKind <$> getOp loopGraph 1) = Some DotOp ∧
  simulateBackwardRematerialization (H := exampleFramework) 5 loopGraph
    (getDefiningOp (OpResult 1 0)) emptySim blockedB = Done (1%Z, emptySim) ∧
  forwardCheckAsSpecified (H := exampleFramework) 5 loopGraph (Some 2)
    (mkArg 1 1) blockedB = Done false ∧
  simulateForwardRematerializationInLoop (H := exampleFramework) 5 loopGraph
    (Some 2) (mkArg 1 1) blockedB = Done true.
Proof.
  split; [intros; apply operand_loop_never_rejects |].
  repeat split; reflexivity.
Qed.

(** *** The hoisting decision *)

Lemma classifyUser_noop (g : IR) (oldType : Ty) (st : HoistState) (user : OpId) :
  noopConversion g oldType user → classifyUser g oldType st user = Done st.
Proof.
  intros (op & newType & oldEnc & newEnc & Hop & Hk & Hres & Hrt & Ho & Hn & Hc).
  unfold classifyUser. rewrite Hop. simpl.
  unfold isConvertLayoutOp. rewrite Hk. simpl. rewrite Hres. simpl.
  rewrite Hrt, Ho, Hn. simpl.
  destruct Hc as [[-> ->] | [-> ->]]; [reflexivity |].
  destruct (isSharedEncoding oldEnc && isDotOperandEncoding newEnc); reflexivity.
Qed.

Lemma foldResult_classifyUser_noop (g : IR) (oldType : Ty) (st : HoistState)
    (users : list OpId) :
  (∀ u, u ∈ users → noopConversion g oldType u) →
  foldResult (classifyUser g oldType) users st = Done st.
Proof.
  induction users as [| u users IH]; intros Hall; [reflexivity |].
  simpl. rewrite classifyUser_noop by (apply Hall; left). simpl.
  apply IH. intros v Hv. apply Hall. right. exact Hv.
Qed.

(** C6.  A user of the loop argument that converts it from a shared layout
    into a dot-operand layout, or into a shared layout of vectorization
    factor 1, leaves [cvts], [cvtTypes] and [others] as they are; so for an
    argument of a [scf.for] whose users are all of this kind the decision is
    success, with the list of conversions to eliminate still empty. *)
Theorem hoisting_ignores_noop_conversions `{Framework}
    (fuel : nat) (g : IR) (arg : BlockArgument) (owner : Block)
    (forOp : OpId) (parent : Operation) (oldType : Ty) :
  getBlock g (argOwner arg) = Some owner →
  blockParentOp owner = Some forOp →
  getOp g forOp = Some parent →
  opKind parent = ForOp →
  getType g (BlockArg arg) = Some oldType →
  isRankedTensorType oldType = true →
  (∀ u, u ∈ getUsers g (BlockArg arg) → noopConversion g oldType u) →
  (∀ st u, u ∈ getUsers g (BlockArg arg) →
           classifyUser g oldType st u = Done st) ∧
  canMoveOutOfLoop fuel g arg [] = Done (true, []).
Proof.
  intros Hb Hp Hf Hk Ht Hr Hall. split.
  - intros st u Hu. apply classifyUser_noop, Hall, Hu.
  - unfold canMoveOutOfLoop.
    rewrite Hb. cbn [ofOption mbind Result_bind].
    rewrite Hp. cbn [ofOption mbind Result_bind].
    rewrite Hf. cbn [ofOption mbind Result_bind].
    rewrite Hk, Ht. cbn [ofOption mbind Result_bind bool_decide]. rewrite Hr.
    rewrite foldResult_classifyUser_noop by exact Hall. reflexivity.
Qed.

Lemma hoisting_ignores_noop_conversions_witness :
  getUsers hoistGraph (BlockArg (mkArg 1 1)) = [1] ∧
  (∀ st u, u ∈ getUsers hoistGraph (BlockArg (mkArg 1 1)) →
           classifyUser hoistGraph (tensorOf blockedA) st u = Done st) ∧
  canMoveOutOfLoop (H := exampleFramework) 3 hoistGraph (mkArg 1 1) []
    = Done (true, []).
Proof.
  split; [reflexivity |].
  apply (hoisting_ignores_noop_conversions (H := exampleFramework) 3 hoistGraph
           (mkArg 1 1)
           (mkBlock [IntegerType 32; tensorOf blockedA] [1; 2; 3] (Some 0)) 0
           (mkOp ForOp
              [BlockArg (mkArg 0 0); BlockArg (mkArg 0 1); BlockArg (mkArg 0 2);
               BlockArg (mkArg 0 3)]
              [tensorOf blockedA] [[1]] (Some 0) false false false)
           (tensorOf blockedA));
    try reflexivity.
  intros u Hu. apply list_elem_of_singleton in Hu as ->.
  exists (plainOp ConvertLayoutOp [BlockArg (mkArg 1 1)] [tensorOf sharedVec1] 1),
         (tensorOf sharedVec1), blockedA, sharedVec1.
  repeat split; try reflexivity. right. split; reflexivity.
Defined.

(** *** The arena *)

Lemma getOp_lt (g : IR) (o : OpId) :
  is_Some (getOp g o) → o < length (irOps g).
Proof.
  intros [op Hop]. unfold getOp in Hop.
  destruct (irOps g !! o) eqn:E; [| discriminate].
  apply lookup_lt_Some in E. exact E.
Qed.

Lemma getOp_addOp_old (g : IR) (op : Operation) (o : OpId) :
  o < length (irOps g) → getOp (addOp g op) o = getOp g o.
Proof. intros Hlt. unfold getOp, addOp. simpl. rewrite lookup_app_l; auto. Qed.

Lemma getOp_addOp_new (g : IR) (op : Operation) :
  getOp (addOp g op) (length (irOps g)) = Some op.
Proof.
  unfold getOp, addOp. simpl.
  rewrite lookup_app_r, Nat.sub_diag by lia. reflexivity.
Qed.

Lemma getOp_updateOp_eq (g : IR) (o : OpId) (f : Operation → Operation) :
  getOp (updateOp g o f) o = f <$> getOp g o.
Proof.
  unfold getOp, updateOp. simpl. rewrite list_lookup_alter_eq.
  destruct (irOps g !! o) as [[op |] |]; reflexivity.
Qed.

Lemma getOp_updateOp_ne (g : IR) (o o' : OpId) (f : Operation → Operation) :
  o ≠ o' → getOp (updateOp g o f) o' = getOp g o'.
Proof.
  intros Hne. unfold getOp, updateOp. simpl.
  rewrite list_lookup_alter_ne; auto.
Qed.

Lemma getBlock_updateBlock_eq (g : IR) (b : BlockId) (f : Block → Block) :
  getBlock (updateBlock g b f) b = f <$> getBlock g b.
Proof. unfold getBlock, updateBlock. simpl. apply list_lookup_alter_eq. Qed.

Lemma getBlock_updateBlock_ne (g : IR) (b b' : BlockId) (f : Block → Block) :
  b ≠ b' → getBlock (updateBlock g b f) b' = getBlock g b'.
Proof.
  intros Hne. unfold getBlock, updateBlock. simpl.
  apply list_lookup_alter_ne. exact Hne.
Qed.

Lemma extends_refl (g : IR) : extends g g.
Proof. split; reflexivity. Qed.

Lemma extends_trans (g1 g2 g3 : IR) :
  extends g1 g2 → extends g2 g3 → extends g1 g3.
Proof. intros [? ?] [? ?]. split; etrans; eauto. Qed.

Lemma extends_getOp (g g' : IR) (o : OpId) :
  extends g g' → o < length (irOps g) → getOp g' o = getOp g o.
Proof.
  intros [[k Hk] _] Hlt. unfold getOp. rewrite Hk, lookup_app_l; auto.
Qed.

Lemma extends_getBlock (g g' : IR) (b : BlockId) (blk : Block) :
  extends g g' → getBlock g b = Some blk → getBlock g' b = Some blk.
Proof.
  intros [_ [k Hk]] Hb. unfold getBlock in *. rewrite Hk.
  apply lookup_app_l_Some. exact Hb.
Qed.

Lemma extends_addOp (g : IR) (op : Operation) : extends g (addOp g op).
Proof. split; simpl; [apply prefix_app_r |]; reflexivity. Qed.

Lemma extends_addBlock (g : IR) (b : Block) : extends g (addBlock g b).
Proof. split; simpl; [| apply prefix_app_r]; reflexivity. Qed.

Lemma prefix_alter_ge {A} (f : A → A) (l l' : list A) (i : nat) :
  l `prefix_of` l' → length l ≤ i → l `prefix_of` alter f i l'.
Proof.
  intros [k ->] Hi. exists (alter f (i - length l) k).
  rewrite alter_app_r_alt by lia. reflexivity.
Qed.

(** An update of a slot that [g] does not have keeps [g]. *)
Lemma extends_updateOp (g g' : IR) (o : OpId) (f : Operation → Operation) :
  extends g g' → length (irOps g) ≤ o → extends g (updateOp g' o f).
Proof.
  intros [Ho Hb] Hge. split; simpl; [| exact Hb].
  apply prefix_alter_ge; assumption.
Qed.

Lemma extends_updateBlock (g g' : IR) (b : BlockId) (f : Block → Block) :
  extends g g' → length (irBlocks g) ≤ b → extends g (updateBlock g' b f).
Proof.
  intros [Ho Hb] Hge. split; simpl; [exact Ho |].
  apply prefix_alter_ge; assumption.
Qed.

Lemma foldResult_Done {A S} (R : S → S → Prop) (f : S → A → Result S)
    (l : list A) :
  (∀ s, R s s) → (∀ s1 s2 s3, R s1 s2 → R s2 s3 → R s1 s3) →
  (∀ s x s', f s x = Done s' → R s s') →
  ∀ s s', foldResult f l s = Done s' → R s s'.
Proof.
  intros Hrefl Htrans Hstep. induction l as [| x l IH]; intros s s' Hrun.
  - injection Hrun as <-. apply Hrefl.
  - simpl in Hrun. destruct (f s x) as [s1 | |] eqn:Hf; try discriminate.
    simpl in Hrun. eapply Htrans; [eapply Hstep; exact Hf | apply IH, Hrun].
Qed.

(** *** Cloning *)

Section CloneProps.
Variable rec : IR → gmap Value Value → OpId → option BlockId →
               Result (IR * gmap Value Value * OpId).
Hypothesis rec_extends : ∀ g m x d g' m' c,
  rec g m x d = Done (g', m', c) → extends g g'.

Lemma cloneBlockOp_extends (newBlock : BlockId) (st st' : CloneState) (x : OpId) :
  cloneBlockOp rec newBlock st x = Done st' →
  extends (fst (fst st)) (fst (fst st')).
Proof.
  destruct st as [[g m] ops]. unfold cloneBlockOp. intros Hrun.
  destruct (rec g m x (Some newBlock)) as [[[g1 m1] x'] | |] eqn:Hrec;
    try discriminate.
  simpl in Hrun. injection Hrun as <-. simpl. eapply rec_extends, Hrec.
Qed.

Lemma cloneBlock_extends (new : OpId) (st st' : CloneState) (b : BlockId) :
  cloneBlock rec new st b = Done st' →
  extends (fst (fst st)) (fst (fst st')).
Proof.
  destruct st as [[g m] blocks]. unfold cloneBlock. intros Hrun.
  destruct (getBlock g b) as [blk |]; [| discriminate]. simpl in Hrun.
  destruct (foldResult _ _ _) as [[[g1 m1] ops] | |] eqn:Hfold; try discriminate.
  simpl in Hrun. injection Hrun as <-. simpl.
  apply (foldResult_Done (λ s s' : CloneState, extends (fst (fst s)) (fst (fst s'))))
    in Hfold; simpl in Hfold.
  - apply extends_updateBlock; [| reflexivity].
    eapply extends_trans; [apply extends_addBlock | exact Hfold].
  - intros. apply extends_refl.
  - intros ? ? ?. apply extends_trans.
  - intros ? ? ?. apply cloneBlockOp_extends.
Qed.

Lemma cloneRegion_extends (new : OpId)
    (st st' : IR * gmap Value Value * list (list BlockId))
    (region : list BlockId) :
  cloneRegion rec new st region = Done st' →
  extends (fst (fst st)) (fst (fst st')).
Proof.
  destruct st as [[g m] regions]. unfold cloneRegion. intros Hrun.
  destruct (foldResult _ _ _) as [[[g1 m1] blocks] | |] eqn:Hfold;
    try discriminate.
  simpl in Hrun. injection Hrun as <-. simpl.
  apply (foldResult_Done (λ s s' : CloneState, extends (fst (fst s)) (fst (fst s'))))
    in Hfold; simpl in Hfold; [exact Hfold | | |].
  - intros. apply extends_refl.
  - intros ? ? ?. apply extends_trans.
  - intros ? ? ?. apply cloneBlock_extends.
Qed.

Lemma cloneRegions_extends (new : OpId) (regions : list (list BlockId))
    (st st' : IR * gmap Value Value * list (list BlockId)) :
  foldResult (cloneRegion rec new) regions st = Done st' →
  extends (fst (fst st)) (fst (fst st')).
Proof.
  apply (foldResult_Done
           (λ s s' : IR * gmap Value Value * list (list BlockId),
              extends (fst (fst s)) (fst (fst s')))).
  - intros. apply extends_refl.
  - intros ? ? ?. apply extends_trans.
  - intros ? ? ?. apply cloneRegion_extends.
Qed.
End CloneProps.

(** A clone takes the next free slot, leaves every slot of the IR as it
    was, and has the kind, the result types and the traits of the original,
    the operands of the original through the mapping, and the place asked
    for. *)
Lemma cloneOp_spec (fuel : nat) :
  ∀ g m o dest g' m' c,
  cloneOp fuel g m o dest = Done (g', m', c) →
  extends g g' ∧ c = length (irOps g) ∧
  ∃ op regions,
    getOp g o = Some op ∧
    getOp g' c = Some (setRegions regions (setBlock dest
                   (setOperands (lookupOrDefault m <$> opOperands op) op))).
Proof.
  induction fuel as [| fuel IH]; intros g m o dest g' m' c Hrun; [discriminate |].
  simpl in Hrun. destruct (getOp g o) as [op |] eqn:Hop; [| discriminate].
  simpl in Hrun.
  destruct (foldResult _ _ _) as [[[g1 m1] regions] | |] eqn:Hfold;
    try discriminate.
  simpl in Hrun. injection Hrun as <- <- <-.
  apply cloneRegions_extends in Hfold; [| intros; eapply IH; eauto].
  simpl in Hfold. split; [| split; [reflexivity |]].
  - apply extends_updateOp; [| reflexivity].
    eapply extends_trans; [apply extends_addOp | exact Hfold].
  - exists op, regions. split; [reflexivity |].
    rewrite getOp_updateOp_eq.
    rewrite (extends_getOp _ _ _ Hfold) by (simpl; rewrite length_app; simpl; lia).
    rewrite getOp_addOp_new. reflexivity.
Qed.

Lemma cloneWithInferType_spec `{Framework} (fuel : nat) (g : IR)
    (m : gmap Value Value) (o : OpId) g' m' c :
  cloneWithInferType fuel g m o = Done (g', m', c) →
  extends g g' ∧ c = length (irOps g) ∧
  ∃ op opc,
    getOp g o = Some op ∧ getOp g' c = Some opc ∧
    opKind opc = opKind op ∧
    opOperands opc = lookupOrDefault m <$> opOperands op ∧
    opBlock opc = None.
Proof.
  unfold cloneWithInferType. intros Hrun.
  destruct (getOp g o) as [op |] eqn:Hop; [| discriminate]. simpl in Hrun.
  destruct (cloneOp fuel g m o None) as [[[g1 m1] c1] | |] eqn:Hclone;
    try discriminate.
  destruct (cloneOp_spec _ _ _ _ _ _ _ _ Hclone)
    as (Hext & -> & op' & regions & Hop' & Hc).
  rewrite Hop in Hop'. injection Hop' as <-.
  assert (Hbase : extends g g1 ∧ length (irOps g) = length (irOps g) ∧
            ∃ op0 opc, Some op = Some op0 ∧ getOp g1 (length (irOps g)) = Some opc ∧
              opKind opc = opKind op0 ∧
              opOperands opc = lookupOrDefault m <$> opOperands op0 ∧
              opBlock opc = None).
  { split; [exact Hext |]. split; [reflexivity |]. eexists op, _.
    split; [reflexivity |]. split; [exact Hc |]. repeat split. }
  assert (Hset : ∀ types,
            extends g (updateOp g1 (length (irOps g)) (setResultTypes types)) ∧
            length (irOps g) = length (irOps g) ∧
            ∃ op0 opc, Some op = Some op0 ∧
              getOp (updateOp g1 (length (irOps g)) (setResultTypes types))
                    (length (irOps g)) = Some opc ∧
              opKind opc = opKind op0 ∧
              opOperands opc = lookupOrDefault m <$> opOperands op0 ∧
              opBlock opc = None).
  { intros types. split; [apply extends_updateOp; [exact Hext | reflexivity] |].
    split; [reflexivity |]. eexists op, _. split; [reflexivity |].
    rewrite getOp_updateOp_eq, Hc. split; [reflexivity |]. repeat split. }
  assert (Hset2 : ∀ types types',
            extends g (updateOp (updateOp g1 (length (irOps g)) (setResultTypes types))
                                (length (irOps g)) (setResultTypes types')) ∧
            length (irOps g) = length (irOps g) ∧
            ∃ op0 opc, Some op = Some op0 ∧
              getOp (updateOp (updateOp g1 (length (irOps g)) (setResultTypes types))
                              (length (irOps g)) (setResultTypes types'))
                    (length (irOps g)) = Some opc ∧
              opKind opc = opKind op0 ∧
              opOperands opc = lookupOrDefault m <$> opOperands op0 ∧
              opBlock opc = None).
  { intros types types'. split.
    - apply extends_updateOp; [| reflexivity].
      apply extends_updateOp; [exact Hext | reflexivity].
    - split; [reflexivity |]. eexists op, _. split; [reflexivity |].
      rewrite !getOp_updateOp_eq, Hc. split; [reflexivity |]. repeat split. }
  cbn [mbind Result_bind] in Hrun.
  destruct (allResult _ _) as [[|] | |]; try discriminate;
    cbn [mbind Result_bind] in Hrun; [injection Hrun as <- <- <-; exact Hbase |].
  rewrite Hc in Hrun. cbn [ofOption mbind Result_bind] in Hrun.
  cbn [opResultTypes setRegions setBlock setOperands] in Hrun.
  destruct (opResultTypes op) as [| t0 rest];
    [injection Hrun as <- <- <-; exact Hbase |].
  cbn [lookup list_lookup ofOption mbind Result_bind] in Hrun.
  destruct (ofOption (opOperands _ !! 0)) as [arg0 | |]; try discriminate.
  cbn [mbind Result_bind] in Hrun.
  destruct (ofOption (getType g1 arg0)) as [argType | |]; try discriminate.
  cbn [mbind Result_bind] in Hrun.
  destruct t0; try (injection Hrun as <- <- <-; exact Hbase).
  destruct argType; try (injection Hrun as <- <- <-; exact Hbase).
  cbn [hasInferTypeOpInterface setRegions setBlock setOperands] in Hrun.
  destruct (hasInferTypeOpInterface op);
    [| injection Hrun as <- <- <-; apply Hset].
  destruct (inferReturnTypes _ _) as [newTypes |];
    [| injection Hrun as <- <- <-; apply Hset].
  destruct (ofOption (setInferredTypes _ _)) as [types | |]; try discriminate.
  cbn [mbind Result_bind] in Hrun. injection Hrun as <- <- <-. apply Hset2.
Qed.

(** *** Moving operations *)


Lemma unlink_detached (g : IR) (o : OpId) (op : Operation) :
  getOp g o = Some op → opBlock op = None → unlink g o = g.
Proof. intros Hop Hb. unfold unlink. rewrite Hop. simpl. rewrite Hb. reflexivity. Qed.

(** Linking a detached operation [o] into the block [b]. *)
Lemma linkWith_detached (place : list OpId → list OpId) (g : IR) (o : OpId)
    (b : BlockId) (op : Operation) :
  getOp g o = Some op → opBlock op = None →
  let g' := linkWith place g o b in
  length (irOps g') = length (irOps g) ∧
  getOp g' o = Some (setBlock (Some b) op) ∧
  (∀ x, x ≠ o → getOp g' x = getOp g x) ∧
  getBlock g' b = (λ blk, setBlockOps (place (blockOps blk)) blk) <$> getBlock g b ∧
  (∀ b', b' ≠ b → getBlock g' b' = getBlock g b').
Proof.
  intros Hop Hb. unfold linkWith. rewrite (unlink_detached _ _ _ Hop Hb). simpl.
  split; [apply length_alter |]. split.
  - rewrite getOp_updateOp_eq. unfold getOp in *. simpl. rewrite Hop. reflexivity.
  - split; [intros x Hx; rewrite getOp_updateOp_ne by auto; reflexivity |].
    split.
    + unfold getBlock. simpl. apply list_lookup_alter_eq.
    + intros b' Hb'. unfold getBlock. simpl. apply list_lookup_alter_ne. auto.
Qed.

(** *** The rewrite of a conversion chain *)

Section RewriteProps.
Context `{Framework}.

(** The conversion made at the end of the loop body, lines 589-600, once it
    has been linked into a block by [place]. *)
Lemma conversion_linked (g : IR) (place : list OpId → list OpId)
    (b : BlockId) (src : Value) (ty : Ty) :
  let cvt := length (irOps g) in
  let g1 := addOp g (mkOp ConvertLayoutOp [src] [ty] [] None false false false) in
  let g' := linkWith place g1 cvt b in
  length (irOps g') = S cvt ∧
  (∃ cvtOp, getOp g' cvt = Some cvtOp ∧ opKind cvtOp = ConvertLayoutOp ∧
            opOperands cvtOp = [src] ∧ opResultTypes cvtOp = [ty]) ∧
  (∀ x, x < cvt → getOp g' x = getOp g x) ∧
  getBlock g' b = (λ blk, setBlockOps (place (blockOps blk)) blk) <$> getBlock g b.
Proof.
  intros cvt g1 g'.
  destruct (linkWith_detached place g1 cvt b
              (mkOp ConvertLayoutOp [src] [ty] [] None false false false))
    as (Hlen & Hcvt & Hother & Hblk & _).
  { apply getOp_addOp_new. }
  { reflexivity. }
  fold g' in Hlen, Hcvt, Hother, Hblk.
  split; [rewrite Hlen; unfold g1; simpl; rewrite length_app; simpl; lia |].
  split; [eexists; split; [exact Hcvt | repeat split] |].
  split; [| exact Hblk].
  intros x Hx. rewrite Hother by lia. apply getOp_addOp_old. exact Hx.
Qed.
End RewriteProps.








(** *** Signatures under the changes of the IR *)

Lemma signaturesKept_refl (g : IR) : signaturesKept g g.
Proof. split; intros ? x Hx; exists x; repeat split; auto. Qed.

Lemma signaturesKept_trans (g1 g2 g3 : IR) :
  signaturesKept g1 g2 → signaturesKept g2 g3 → signaturesKept g1 g3.
Proof.
  intros [Ho1 Hb1] [Ho2 Hb2]. split.
  - intros o op Hop. destruct (Ho1 _ _ Hop) as (op2 & Hop2 & K1 & K2 & K3).
    destruct (Ho2 _ _ Hop2) as (op3 & Hop3 & L1 & L2 & L3).
    exists op3. split; [exact Hop3 |]. repeat split; congruence.
  - intros b blk Hb. destruct (Hb1 _ _ Hb) as (blk2 & Hblk2 & K1 & K2).
    destruct (Hb2 _ _ Hblk2) as (blk3 & Hblk3 & L1 & L2).
    exists blk3. split; [exact Hblk3 |]. split; congruence.
Qed.

Lemma signaturesKept_extends (g g' : IR) : extends g g' → signaturesKept g g'.
Proof.
  intros Hext. split.
  - intros o op Hop. exists op. split; [| repeat split].
    rewrite (extends_getOp _ _ _ Hext); [exact Hop |].
    apply getOp_lt. rewrite Hop. eauto.
  - intros b blk Hb. exists blk. split; [| split; reflexivity].
    eapply extends_getBlock; eauto.
Qed.

Lemma signaturesKept_updateOp (g : IR) (o : OpId) (f : Operation → Operation) :
  (∀ op, opKept op (f op)) → signaturesKept g (updateOp g o f).
Proof.
  intros Hf. split.
  - intros o' op Hop. destruct (decide (o = o')) as [<- | Hne].
    + exists (f op). rewrite getOp_updateOp_eq, Hop. split; [reflexivity | apply Hf].
    + exists op. rewrite getOp_updateOp_ne by exact Hne.
      split; [exact Hop | repeat split].
  - intros b blk Hb. exists blk. split; [exact Hb | split; reflexivity].
Qed.

Lemma signaturesKept_updateBlock (g : IR) (b : BlockId) (f : Block → Block) :
  (∀ blk, blockKept blk (f blk)) → signaturesKept g (updateBlock g b f).
Proof.
  intros Hf. split.
  - intros o op Hop. exists op. split; [exact Hop | repeat split].
  - intros b' blk Hb. destruct (decide (b = b')) as [<- | Hne].
    + exists (f blk). rewrite getBlock_updateBlock_eq, Hb.
      split; [reflexivity | apply Hf].
    + exists blk. rewrite getBlock_updateBlock_ne by exact Hne.
      split; [exact Hb | split; reflexivity].
Qed.

Lemma signaturesKept_unlink (g : IR) (o : OpId) : signaturesKept g (unlink g o).
Proof.
  unfold unlink. destruct (getOp g o ≫= opBlock) as [b |];
    [| apply signaturesKept_refl].
  eapply signaturesKept_trans; [| apply signaturesKept_updateOp; intros op; repeat split].
  apply signaturesKept_updateBlock. intros blk. split; reflexivity.
Qed.

Lemma signaturesKept_linkWith (place : list OpId → list OpId) (g : IR)
    (o : OpId) (b : BlockId) :
  signaturesKept g (linkWith place g o b).
Proof.
  unfold linkWith.
  eapply signaturesKept_trans; [| apply signaturesKept_updateOp; intros op; repeat split].
  eapply signaturesKept_trans; [apply signaturesKept_unlink |].
  apply signaturesKept_updateBlock. intros blk. split; reflexivity.
Qed.


Lemma getOp_freeOps_other (g : IR) (dead : list OpId) (o : OpId) :
  o ∉ dead → getOp (freeOps g dead) o = getOp g o.
Proof.
  intros Hnin. unfold getOp, freeOps. simpl.
  induction dead as [| d dead IH]; [reflexivity |]. simpl.
  rewrite list_lookup_insert_ne.
  - apply IH. intros Hin. apply Hnin. right. exact Hin.
  - intros ->. apply Hnin. left.
Qed.

Lemma getOp_freeOps_dead (g : IR) (dead : list OpId) (o : OpId) :
  o ∈ dead → getOp (freeOps g dead) o = None.
Proof.
  intros Hin. unfold getOp, freeOps. simpl.
  induction dead as [| d dead IH]; [inversion Hin |]. simpl.
  destruct (decide (d = o)) as [-> | Hne].
  - destruct (decide (o < length (foldr (λ o ops, <[o:=None]> ops) (irOps g) dead)))
      as [Hlt | Hge].
    + rewrite list_lookup_insert_eq by exact Hlt. reflexivity.
    + rewrite list_insert_ge by lia. rewrite lookup_ge_None_2 by lia. reflexivity.
  - rewrite list_lookup_insert_ne by exact Hne. apply IH.
    apply elem_of_cons in Hin as [-> | Hin]; [contradiction | exact Hin].
Qed.

(** Every operation that [nestedOps] lists is in the arena, and the first
    is the operation asked for. *)
Lemma nestedOps_spec (fuel : nat) (g : IR) :
  ∀ o l, nestedOps fuel g o = Done l →
         o ∈ l ∧ ∀ x, x ∈ l → is_Some (getOp g x).
Proof.
  induction fuel as [| fuel IH]; intros o l Hrun; [discriminate |].
  simpl in Hrun. destruct (getOp g o) as [op |] eqn:Hop; [| discriminate].
  simpl in Hrun. destruct (regionOps g op) as [ops |]; [| discriminate].
  simpl in Hrun.
  destruct (foldResult _ ops []) as [inner | |] eqn:Hfold; try discriminate.
  simpl in Hrun. injection Hrun as <-. split; [left |].
  assert (Hinner : ∀ x, x ∈ inner → is_Some (getOp g x)).
  { refine (foldResult_Done
              (λ acc acc' : list OpId,
                 (∀ x, x ∈ acc → is_Some (getOp g x)) →
                 (∀ x, x ∈ acc' → is_Some (getOp g x)))
              _ ops _ _ _ [] inner Hfold _);
      [auto | auto | | intros x Hx; inversion Hx].
    intros acc x acc' Hstep Hacc y Hy.
    destruct (nestedOps fuel g x) as [l | |] eqn:Hx; try discriminate.
    simpl in Hstep. injection Hstep as <-.
    apply elem_of_app in Hy as [Hy | Hy]; [auto |].
    destruct (IH _ _ Hx) as [_ Hl]. auto. }
  intros x Hx. apply elem_of_cons in Hx as [-> | Hx]; [rewrite Hop; eauto | auto].
Qed.

(** *** The loop type fix-up *)



Lemma cloneBlockOps_extends (fuel : nat) (newBlock : BlockId)
    (ops : list OpId) (st st' : CloneState) :
  foldResult (cloneBlockOp (cloneOp fuel) newBlock) ops st = Done st' →
  extends (fst (fst st)) (fst (fst st')).
Proof.
  apply (foldResult_Done (λ s s' : CloneState, extends (fst (fst s)) (fst (fst s')))).
  - intros. apply extends_refl.
  - intros ? ? ?. apply extends_trans.
  - intros s0 x0 s1. apply cloneBlockOp_extends.
    intros g m y d g' m' c Hc. apply (cloneOp_spec _ _ _ _ _ _ _ _ Hc).
Qed.






(** The driver reports success only on an IR in which no loop matches. *)
Lemma applyPatternsAndFoldGreedily_converged (maxRewrites fuel : nat) :
  ∀ g g', applyPatternsAndFoldGreedily maxRewrites fuel g = Done (true, g') →
          firstRewrite fuel g' (seq 0 (length (irOps g'))) = Done None.
Proof.
  induction maxRewrites as [| n IH]; intros g g' Hrun; simpl in Hrun.
  - destruct (firstRewrite fuel g _) as [[g1 |] | |] eqn:Hf; try discriminate.
    simpl in Hrun. injection Hrun as <-. exact Hf.
  - destruct (firstRewrite fuel g _) as [[g1 |] | |] eqn:Hf; try discriminate;
      simpl in Hrun.
    + apply (IH _ _ Hrun).
    + injection Hrun as <-. exact Hf.
Qed.





(** *** The rebuilt loop does not match again *)

Lemma getOp_unlink_ne (g : IR) (o x : OpId) :
  x ≠ o → getOp (unlink g o) x = getOp g x.
Proof.
  intros Hne. unfold unlink. destruct (getOp g o ≫= opBlock); [| reflexivity].
  rewrite getOp_updateOp_ne by auto. reflexivity.
Qed.

Lemma getOp_replaceAllUsesWith (g : IR) (o new x : OpId) :
  getOp (replaceAllUsesWith g o new) x
  = (λ op, setOperands (replaceResult o new <$> opOperands op) op) <$> getOp g x.
Proof.
  unfold getOp, replaceAllUsesWith. simpl. rewrite list_lookup_fmap.
  destruct (irOps g !! x) as [[op |] |]; reflexivity.
Qed.







(** ** Part III: further properties of the code *)

(** *** Inversion and the classifier *)

(** X1.  Inversion composes through an [expand_dims] and a reduction: the
    layout [L] pushed back through an [expand_dims] on axis [a] is the slice
    of [L] along [a], and pushing that back through a reduction over axis
    [a'] gives [L] again when [a' = a] and fails otherwise. *)
Theorem invertEncoding_expand_then_reduce (e r : Operation) (a a' : N)
    (L : Attribute) :
  opKind e = ExpandDimsOp a → opKind r = ReduceOp a' →
  invertEncoding L e = Some (SliceEncodingAttr a L) ∧
  invertEncoding L e ≫= (λ S, invertEncoding S r)
  = (if decide (a = a') then Some L else None).
Proof.
  intros He Hr. unfold invertEncoding. rewrite He, Hr. simpl.
  split; [reflexivity |].
  destruct (decide (a ≠ a')) as [Hne | Heq].
  - rewrite decide_False by exact Hne. reflexivity.
  - apply dec_stable in Heq. rewrite decide_True by exact Heq. reflexivity.
Qed.

Lemma invertEncoding_expand_then_reduce_witness :
  invertEncoding blockedA (plainOp (ExpandDimsOp 1) [] [] 0)
  = Some (SliceEncodingAttr 1 blockedA) ∧
  invertEncoding blockedA (plainOp (ExpandDimsOp 1) [] [] 0)
    ≫= (λ S, invertEncoding S (plainOp (ReduceOp 1) [] [] 0))
  = (if decide (1%N = 1%N) then Some blockedA else None).
Proof.
  apply (invertEncoding_expand_then_reduce
           (plainOp (ExpandDimsOp 1) [] [] 0) (plainOp (ReduceOp 1) [] [] 0)
           1%N 1%N blockedA); reflexivity.
Defined.

(** X2.  A producer into which a conversion can be folded is never
    expensive to rematerialize under the same layout: the two predicates
    agree on a concatenation (one is the negation of the other) and the
    other foldable classes are none of the expensive ones. *)
Theorem foldable_producer_is_cheap `{Framework} (g : IR) (o : OpId)
    (L : Attribute) :
  canFoldConversion g o L = Some true →
  isExpensiveToRemat g (Some o) L = Some false.
Proof.
  unfold canFoldConversion, isExpensiveToRemat.
  destruct (getOp g o) as [opr |]; [| discriminate]. simpl.
  destruct (opKind opr); try discriminate; try reflexivity.
  intros [= Hc]. apply negb_true_iff in Hc. rewrite Hc. reflexivity.
Qed.

Lemma foldable_producer_is_cheap_witness :
  canFoldConversion (H := exampleFramework) addGraph 0 blockedB = Some true ∧
  isExpensiveToRemat (H := exampleFramework) addGraph (Some 0) blockedB
  = Some false.
Proof.
  split; [reflexivity |].
  apply (foldable_producer_is_cheap (H := exampleFramework) addGraph 0 blockedB).
  reflexivity.
Defined.

(** X3.  The target layout reaches the two classifiers only through
    [isExpensiveCat]: for an operation that is not a concatenation neither
    answer depends on it. *)
Theorem classifiers_read_layout_only_for_cat `{Framework} (g : IR) (o : OpId)
    (op : Operation) (L1 L2 : Attribute) :
  getOp g o = Some op → opKind op ≠ CatOp →
  isExpensiveToRemat g (Some o) L1 = isExpensiveToRemat g (Some o) L2 ∧
  canFoldConversion g o L1 = canFoldConversion g o L2.
Proof.
  intros Hop Hk. unfold isExpensiveToRemat, canFoldConversion. rewrite Hop. simpl.
  destruct (opKind op); try contradiction; split; reflexivity.
Qed.

Lemma classifiers_read_layout_only_for_cat_witness :
  isExpensiveToRemat (H := exampleFramework) atomicGraph (Some 0) blockedA
  = isExpensiveToRemat (H := exampleFramework) atomicGraph (Some 0) blockedB ∧
  canFoldConversion (H := exampleFramework) atomicGraph 0 blockedA
  = canFoldConversion (H := exampleFramework) atomicGraph 0 blockedB.
Proof.
  apply (classifiers_read_layout_only_for_cat (H := exampleFramework)
           atomicGraph 0
           (plainOp AtomicRMWOp [BlockArg (mkArg 0 0); BlockArg (mkArg 0 1)]
                    [tensorOf blockedA] 0) blockedA blockedB);
    [reflexivity | discriminate].
Defined.

(** *** What a run of the simulator leaves behind *)

Section SimulatorInvariants.
Context `{Framework}.

(** The loop over the operands only adds entries to the map, however it
    ends. *)
Lemma visitOperands_keeps (g : IR) (op : Operation) (L : Attribute)
    (seen : list OpId) (args : list Value) :
  ∀ (n : Z) (q : Queue) (tc : list (Value * Attribute)) flow tc',
  visitOperands g op L seen args n q tc = Some flow →
  (flow = Abort tc' ∨ ∃ n' q', flow = Proceed n' q' tc') →
  ∀ v x, mapLookup v tc = Some x → mapLookup v tc' = Some x.
Proof.
  induction args as [| argI rest IH]; intros n q tc flow tc' Hv Hflow v x Hx.
  - simpl in Hv. injection Hv as <-.
    destruct Hflow as [[=] | (n' & q' & [= _ _ <-])]. exact Hx.
  - simpl in Hv.
    destruct (invertEncoding L op) as [newEncoding |];
      [| injection Hv as <-;
         destruct Hflow as [[= <-] | (? & ? & [=])]; exact Hx].
    destruct (bool_decide (is_Some (mapLookup argI tc)) &&
              bool_decide (mapLookup argI tc ≠ Some newEncoding));
      [injection Hv as <-;
       destruct Hflow as [[= <-] | (? & ? & [=])]; exact Hx |].
    destruct (getType g argI) as [ty |]; [| discriminate]. simpl in Hv.
    destruct (isPointerToTensor ty);
      [injection Hv as <-;
       destruct Hflow as [[= <-] | (? & ? & [=])]; exact Hx |].
    assert (Hins : mapLookup v (mapInsert argI newEncoding tc) = Some x).
    { destruct (decide (argI = v)) as [-> | Hne].
      - rewrite mapLookup_insert_eq, Hx. reflexivity.
      - rewrite mapLookup_insert_ne; auto. }
    destruct (isRankedTensorType ty); simpl in Hv;
      [| exact (IH _ _ _ _ _ Hv Hflow v x Hins)].
    destruct (getDefiningOp argI) as [o |];
      [| exact (IH _ _ _ _ _ Hv Hflow v x Hins)].
    destruct (setContains o seen); [exact (IH _ _ _ _ _ Hv Hflow v x Hins) |].
    destruct (getOp g o) as [opr |]; [| discriminate]. simpl in Hv.
    destruct (bool_decide (opBlock opr ≠ opBlock op));
      [exact (IH _ _ _ _ _ Hv Hflow v x Hins) |].
    destruct (canFoldConversion g o newEncoding) as [[|] |]; simpl in Hv;
      [| | discriminate]; exact (IH _ _ _ _ _ Hv Hflow v x Hins).
Qed.

(** One iteration, whichever way it ends: the containers are as they were,
    or a cheap instruction of the arena was popped and marked, its layout
    recorded, and entries added to the map. *)
Lemma simulateStep_state (g : IR) (s : LoopState) (st : SimState) :
  (∃ r, simulateStep g s = Exit r st) ∨
  (∃ s', simulateStep g s = Next s' ∧ st = lsSim s') →
  st = lsSim s ∨
  ∃ o L,
    isExpensiveToRemat g (Some o) L = Some false ∧
    processed st = setInsert o (processed (lsSim s)) ∧
    layout st = setInsert L (layout (lsSim s)) ∧
    ∀ v x, mapLookup v (toConvert (lsSim s)) = Some x →
           mapLookup v (toConvert st) = Some x.
Proof.
  unfold simulateStep. intros Hs.
  destruct (lsQueue s) as [| [currOp L] q].
  { destruct Hs as [[r [= _ <-]] | (s' & [=] & _)]. left. reflexivity. }
  destruct (isExpensiveToRemat g currOp L) as [[|] |] eqn:He.
  - destruct Hs as [[r [= _ <-]] | (s' & [=] & _)]. left. reflexivity.
  - destruct currOp as [o |];
      [| destruct Hs as [[r [=]] | (s' & [=] & _)]].
    cbn [mbind option_bind] in Hs.
    destruct (getOp g o) as [opr |] eqn:Hop;
      [| destruct Hs as [[r [=]] | (s' & [=] & _)]].
    cbn [mbind option_bind] in Hs.
    destruct (visitOperands _ _ _ _ _ _ _ _) as [[tc | n' q' tc'] |] eqn:Hv.
    + destruct Hs as [[r [= _ <-]] | (s' & [=] & _)]. right.
      exists o, L. repeat split; try reflexivity; [exact He |]. simpl.
      eapply visitOperands_keeps; [exact Hv | left; reflexivity].
    + destruct Hs as [[r [=]] | (s' & [= <-] & ->)]. right.
      exists o, L. repeat split; try reflexivity; [exact He |]. simpl.
      eapply visitOperands_keeps; [exact Hv | right; eauto].
    + destruct Hs as [[r [=]] | (s' & [=] & _)].
  - destruct Hs as [[r [=]] | (s' & [=] & _)].
Qed.

(** A property of the containers that every iteration keeps holds of the
    containers a run returns. *)
Lemma simulateLoop_invariant (P : SimState → Prop) (g : IR) :
  (∀ s st,
     (∃ r, simulateStep g s = Exit r st) ∨
     (∃ s', simulateStep g s = Next s' ∧ st = lsSim s') →
     P (lsSim s) → P st) →
  ∀ fuel s n st', P (lsSim s) → simulateLoop fuel g s = Done (n, st') → P st'.
Proof.
  intros Hstep fuel.
  induction fuel as [| fuel IH]; intros s n st' HP Hrun; simpl in Hrun.
  - destruct (lsQueue s); [| discriminate]. injection Hrun as <- <-. exact HP.
  - destruct (lsQueue s) eqn:Hq; [injection Hrun as <- <-; exact HP |].
    destruct (simulateStep g s) as [s1 | r st |] eqn:Hs; [| | discriminate].
    + apply (IH s1 n st'); [| exact Hrun].
      apply (Hstep s (lsSim s1)); [right; eauto | exact HP].
    + injection Hrun as -> ->. apply (Hstep s st'); [left; eauto | exact HP].
Qed.
End SimulatorInvariants.



(** X5.  The simulator only adds to the three containers it is handed,
    also when it returns the sentinel: every instruction of the processed
    set passed in, every layout of the layout set passed in and every entry
    of the map passed in, with the layout it had, is in what comes back. *)
Theorem simulator_only_adds `{Framework} (fuel : nat) (g : IR)
    (initOp : option OpId) (st st' : SimState) (L : Attribute) (n : Z) :
  simulateBackwardRematerialization fuel g initOp st L = Done (n, st') →
  (∀ o, o ∈ processed st → o ∈ processed st') ∧
  (∀ a, a ∈ layout st → a ∈ layout st') ∧
  (∀ v x, mapLookup v (toConvert st) = Some x →
          mapLookup v (toConvert st') = Some x).
Proof.
  intros Hrun.
  refine (simulateLoop_invariant
            (λ t, (∀ o, o ∈ processed st → o ∈ processed t) ∧
                  (∀ a, a ∈ layout st → a ∈ layout t) ∧
                  (∀ v x, mapLookup v (toConvert st) = Some x →
                          mapLookup v (toConvert t) = Some x))
            g _ fuel (mkLoop 1%Z [(initOp, L)] st) n st' _ Hrun).
  - intros s t Hs (Hp & Hl & Hm).
    destruct (simulateStep_state g s t Hs)
      as [-> | (o & L' & _ & Hp' & Hl' & Hm')]; [auto |].
    split; [| split].
    + intros x Hx. rewrite Hp'. apply elem_of_setInsert. right. auto.
    + intros x Hx. rewrite Hl'. apply elem_of_setInsert. right. auto.
    + intros v x Hx. auto.
  - simpl. auto.
Qed.

Lemma simulator_only_adds_witness :
  simulateBackwardRematerialization (H := exampleFramework) 5 addGraph
    (Some 2) (mkSim [7] [blockedA] [(OpResult 0 0, blockedB)]) blockedB
  = Done (0%Z, mkSim [7; 2] [blockedA; blockedB]
                 [(OpResult 0 0, blockedB); (OpResult 1 0, blockedB)]) ∧
  (∀ o, o ∈ [7] → o ∈ [7; 2]) ∧
  (∀ a, a ∈ [blockedA] → a ∈ [blockedA; blockedB]) ∧
  (∀ v x, mapLookup v [(OpResult 0 0, blockedB)] = Some x →
          mapLookup v [(OpResult 0 0, blockedB); (OpResult 1 0, blockedB)]
          = Some x).
Proof.
  split; [reflexivity |].
  apply (simulator_only_adds (H := exampleFramework) 5 addGraph (Some 2)
           (mkSim [7] [blockedA] [(OpResult 0 0, blockedB)])
           (mkSim [7; 2] [blockedA; blockedB]
                  [(OpResult 0 0, blockedB); (OpResult 1 0, blockedB)])
           blockedB 0%Z).
  reflexivity.
Defined.

(** X6.  The simulator marks nothing expensive: every instruction it adds
    to the processed set is an instruction of the arena that the classifier
    found cheap under a layout of the returned layout set, also when the
    run ends in the sentinel. *)
Theorem simulator_marks_only_cheap `{Framework} (fuel : nat) (g : IR)
    (initOp : option OpId) (st st' : SimState) (L : Attribute) (n : Z) :
  simulateBackwardRematerialization fuel g initOp st L = Done (n, st') →
  ∀ o, o ∈ processed st' →
    o ∈ processed st ∨
    ∃ L', L' ∈ layout st' ∧ isExpensiveToRemat g (Some o) L' = Some false ∧
          is_Some (getOp g o).
Proof.
  intros Hrun.
  refine (simulateLoop_invariant
            (λ t, ∀ o, o ∈ processed t →
               o ∈ processed st ∨
               ∃ L', L' ∈ layout t ∧
                     isExpensiveToRemat g (Some o) L' = Some false ∧
                     is_Some (getOp g o))
            g _ fuel (mkLoop 1%Z [(initOp, L)] st) n st' _ Hrun).
  - intros s t Hs HP.
    destruct (simulateStep_state g s t Hs)
      as [-> | (o & L' & He & Hp' & Hl' & _)]; [exact HP |].
    intros x Hx. rewrite Hp' in Hx. apply elem_of_setInsert in Hx as [-> | Hx].
    + right. exists L'. split; [rewrite Hl'; apply setInsert_self |].
      split; [exact He |].
      unfold isExpensiveToRemat in He.
      destruct (getOp g o); [eauto | discriminate].
    + destruct (HP x Hx) as [Hin | (L2 & HL2 & He2 & Hop2)]; [auto |].
      right. exists L2. split; [| auto].
      rewrite Hl'. apply elem_of_setInsert. auto.
  - simpl. auto.
Qed.

Lemma simulator_marks_only_cheap_witness :
  simulateBackwardRematerialization (H := exampleFramework) 5
    sharedOperandGraph (Some 2) emptySim blockedB
  = Done (0%Z, mkSim [2; 1; 0] [blockedB]
                 [(OpResult 0 0, blockedB); (OpResult 1 0, blockedB);
                  (BlockArg (mkArg 0 0), blockedB)]) ∧
  ∀ o, o ∈ [2; 1; 0] →
    o ∈ [] ∨
    ∃ L', L' ∈ [blockedB] ∧
          isExpensiveToRemat (H := exampleFramework) sharedOperandGraph
            (Some o) L' = Some false ∧
          is_Some (getOp sharedOperandGraph o).
Proof.
  split; [reflexivity |].
  apply (simulator_marks_only_cheap (H := exampleFramework) 5
           sharedOperandGraph (Some 2) emptySim
           (mkSim [2; 1; 0] [blockedB]
                  [(OpResult 0 0, blockedB); (OpResult 1 0, blockedB);
                   (BlockArg (mkArg 0 0), blockedB)])
           blockedB 0%Z).
  reflexivity.
Defined.

(** *** The plan is consistent *)

Section PlanProps.
Context `{Framework}.

(** A completed pass over the operands leaves each of them recorded with
    the inverted layout. *)
Lemma visitOperands_inverted (g : IR) (op : Operation) (L : Attribute)
    (seen : list OpId) (args : list Value) :
  ∀ (n : Z) (q : Queue) (tc : list (Value * Attribute)) n' q' tc',
  visitOperands g op L seen args n q tc = Some (Proceed n' q' tc') →
  ∀ v, v ∈ args → ∃ newEncoding,
    invertEncoding L op = Some newEncoding ∧ mapLookup v tc' = Some newEncoding.
Proof.
  induction args as [| argI rest IH]; intros n q tc n' q' tc' Hv v Hin;
    [inversion Hin |].
  pose proof Hv as Hv0. simpl in Hv.
  destruct (invertEncoding L op) as [newEncoding |] eqn:Hinv; [| discriminate].
  destruct (bool_decide (is_Some (mapLookup argI tc)) &&
            bool_decide (mapLookup argI tc ≠ Some newEncoding)) eqn:Hchk;
    [discriminate |].
  destruct (getType g argI) as [ty |]; [| discriminate]. simpl in Hv.
  destruct (isPointerToTensor ty); [discriminate |].
  assert (Hhere : mapLookup argI (mapInsert argI newEncoding tc)
                  = Some newEncoding).
  { rewrite mapLookup_insert_eq.
    destruct (mapLookup argI tc) as [x |] eqn:Hx; [| reflexivity].
    apply andb_false_iff in Hchk as [Hc | Hc].
    - apply bool_decide_eq_false in Hc. exfalso. apply Hc. eauto.
    - apply bool_decide_eq_false in Hc. apply dec_stable in Hc. exact Hc. }
  assert (Hrest : ∀ n1 q1,
    visitOperands g op L seen rest n1 q1 (mapInsert argI newEncoding tc)
      = Some (Proceed n' q' tc') →
    ∃ ne, Some newEncoding = Some ne ∧ mapLookup v tc' = Some ne).
  { intros n1 q1 Hr. apply elem_of_cons in Hin as [-> | Hin].
    - exists newEncoding. split; [reflexivity |].
      eapply visitOperands_keeps; [exact Hr | right; eauto | exact Hhere].
    - destruct (IH _ _ _ _ _ _ Hr v Hin) as (ne & Hne & Hl). eauto. }
  destruct (isRankedTensorType ty); simpl in Hv; [| eapply Hrest; eauto].
  destruct (getDefiningOp argI) as [o |]; [| eapply Hrest; eauto].
  destruct (setContains o seen); [eapply Hrest; eauto |].
  destruct (getOp g o) as [opr |]; [| discriminate]. simpl in Hv.
  destruct (bool_decide (opBlock opr ≠ opBlock op)); [eapply Hrest; eauto |].
  destruct (canFoldConversion g o newEncoding) as [[|] |]; simpl in Hv;
    [eapply Hrest; eauto | eapply Hrest; eauto | discriminate].
Qed.

Lemma planInverts_step (g : IR) (s s' : LoopState) :
  simulateStep g s = Next s' →
  (∀ o, o ∈ processed (lsSim s') →
     o ∈ processed (lsSim s) ∨ planInverts g (lsSim s') o) ∧
  (∀ o, planInverts g (lsSim s) o → planInverts g (lsSim s') o).
Proof.
  intros Hs.
  destruct (simulateStep_Next _ _ _ Hs)
    as (o & L & q & opr & Hq & Hop & _ & Hp & Hl & Hv).
  assert (Hkeep : ∀ v x, mapLookup v (toConvert (lsSim s)) = Some x →
                         mapLookup v (toConvert (lsSim s')) = Some x).
  { eapply visitOperands_keeps; [exact Hv | right; eauto]. }
  split.
  - intros x Hx. rewrite Hp in Hx. apply elem_of_setInsert in Hx as [-> | Hx];
      [| auto].
    right. unfold planInverts.
    destruct (opOperands opr) as [| v0 rest] eqn:Hargs.
    + exists opr, L, L. split; [exact Hop |].
      split; [rewrite Hl; apply setInsert_self |].
      split; [intros Hne; contradiction |].
      intros v Hin. rewrite Hargs in Hin. inversion Hin.
    + destruct (visitOperands_inverted _ _ _ _ _ _ _ _ _ _ _ Hv v0)
        as (ne & Hinv & _); [left |].
      exists opr, L, ne. split; [exact Hop |].
      split; [rewrite Hl; apply setInsert_self |].
      split; [intros _; exact Hinv |].
      intros v Hin. rewrite Hargs in Hin.
      destruct (visitOperands_inverted _ _ _ _ _ _ _ _ _ _ _ Hv v Hin)
        as (ne' & Hinv' & Hl'). congruence.
  - intros x (op & L' & ne & Hopx & HL & Hinv & Hall).
    exists op, L', ne. split; [exact Hopx |].
    split; [rewrite Hl; apply elem_of_setInsert; auto |].
    split; [exact Hinv | auto].
Qed.

Lemma planInverts_loop (g : IR) (st0 : SimState) (fuel : nat) :
  ∀ (s : LoopState) (n : Z) (st' : SimState),
  (∀ o, o ∈ processed (lsSim s) →
     o ∈ processed st0 ∨ planInverts g (lsSim s) o) →
  simulateLoop fuel g s = Done (n, st') → n ≠ INT_MAX →
  ∀ o, o ∈ processed st' → o ∈ processed st0 ∨ planInverts g st' o.
Proof.
  induction fuel as [| fuel IH]; intros s n st' Hinv Hrun Hn; simpl in Hrun.
  - destruct (lsQueue s); [| discriminate]. injection Hrun as <- <-. exact Hinv.
  - destruct (lsQueue s) eqn:Hq; [injection Hrun as <- <-; exact Hinv |].
    destruct (simulateStep g s) as [s1 | r st |] eqn:Hs; [| | discriminate].
    + apply (IH s1 n st'); [| exact Hrun | exact Hn].
      destruct (planInverts_step g s s1 Hs) as [Hnew Hold].
      intros o Ho. destruct (Hnew o Ho) as [Hin | Hpl]; [| auto].
      destruct (Hinv o Hin) as [H0 | Hpl]; auto.
    + injection Hrun as -> ->.
      destruct (simulateStep_Exit _ _ _ _ Hs) as [[_ ->] | ->]; [exact Hinv |].
      contradiction.
Qed.
End PlanProps.

(** X7.  The plan of a run that does not end in the sentinel is
    consistent: for every instruction the run has marked processed there is
    a layout of the returned layout set such that every operand of the
    instruction is recorded, in the returned map, with the layout that
    [invertEncoding] gives for that layout and that instruction. *)
Theorem plan_inverts_every_processed_instruction `{Framework} (fuel : nat)
    (g : IR) (initOp : option OpId) (st st' : SimState) (L : Attribute) (n : Z) :
  simulateBackwardRematerialization fuel g initOp st L = Done (n, st') →
  n ≠ INT_MAX →
  ∀ o, o ∈ processed st' → o ∈ processed st ∨ planInverts g st' o.
Proof.
  intros Hrun Hn.
  apply (planInverts_loop g st fuel (mkLoop 1%Z [(initOp, L)] st) n st');
    [| exact Hrun | exact Hn].
  simpl. auto.
Qed.

Lemma plan_inverts_every_processed_instruction_witness :
  simulateBackwardRematerialization (H := exampleFramework) 5
    sharedOperandGraph (Some 2) emptySim blockedB
  = Done (0%Z, mkSim [2; 1; 0] [blockedB]
                 [(OpResult 0 0, blockedB); (OpResult 1 0, blockedB);
                  (BlockArg (mkArg 0 0), blockedB)]) ∧
  ∀ o, o ∈ [2; 1; 0] →
    o ∈ processed emptySim ∨
    planInverts sharedOperandGraph
      (mkSim [2; 1; 0] [blockedB]
             [(OpResult 0 0, blockedB); (OpResult 1 0, blockedB);
              (BlockArg (mkArg 0 0), blockedB)]) o.
Proof.
  split; [reflexivity |].
  apply (plan_inverts_every_processed_instruction (H := exampleFramework) 5
           sharedOperandGraph (Some 2) emptySim
           (mkSim [2; 1; 0] [blockedB]
                  [(OpResult 0 0, blockedB); (OpResult 1 0, blockedB);
                   (BlockArg (mkArg 0 0), blockedB)])
           blockedB 0%Z);
    [reflexivity | discriminate].
Defined.

(** *** The forward slice *)

Lemma elem_of_operandUses (v : Value) (o : OpId) (op : Operation) (b k : nat) :
  (b, k) ∈ operandUses v o op ↔ b = o ∧ opOperands op !! k = Some v.
Proof.
  unfold operandUses. rewrite list_elem_of_omap. split.
  - intros ([i w] & Hin & Hf).
    destruct (decide (w = v)) as [-> |]; [| discriminate].
    injection Hf as <- <-. split; [reflexivity |].
    apply list_elem_of_lookup in Hin as [j Hj].
    apply lookup_zip_with_Some in Hj as (x & y & [= <- <-] & Hx & Hy).
    apply lookup_seq in Hx as [-> _]. exact Hy.
  - intros [-> Hk]. exists (k, v). rewrite decide_True by reflexivity.
    split; [| reflexivity].
    apply list_elem_of_lookup. exists k.
    apply lookup_zip_with_Some. exists k, v. split; [reflexivity |].
    split; [| exact Hk]. apply lookup_seq. split; [reflexivity |].
    apply lookup_lt_Some in Hk. exact Hk.
Qed.

(** The uses of a value are the operand slots of the arena that hold it. *)
Lemma elem_of_getUses (g : IR) (v : Value) (b k : nat) :
  (b, k) ∈ getUses g v ↔
  ∃ op, getOp g b = Some op ∧ opOperands op !! k = Some v.
Proof.
  unfold getUses. rewrite list_elem_of_In, in_concat. split.
  - intros (l & Hl & Hin). apply list_elem_of_In in Hl, Hin.
    apply elem_of_lookup_imap in Hl as (o & slot & -> & Hslot).
    destruct slot as [op |]; simpl in Hin; [| inversion Hin].
    apply elem_of_operandUses in Hin as [-> Hk].
    exists op. split; [| exact Hk]. unfold getOp. rewrite Hslot. reflexivity.
  - intros (op & Hop & Hk). exists (operandUses v b op).
    split; apply list_elem_of_In.
    + apply elem_of_lookup_imap. exists b, (Some op). split; [reflexivity |].
      unfold getOp in Hop. destruct (irOps g !! b) as [[?|] |]; simpl in Hop;
        congruence.
    + apply elem_of_operandUses. auto.
Qed.

Lemma elem_of_resultUses (g : IR) (o : OpId) (op : Operation) (v : Value)
    (b k : nat) :
  (v, (b, k)) ∈ resultUses g o op ↔
  ∃ i, v = OpResult o i ∧ i < length (opResultTypes op) ∧
       ∃ opu, getOp g b = Some opu ∧ opOperands opu !! k = Some v.
Proof.
  unfold resultUses. rewrite list_elem_of_In, in_concat. split.
  - intros (l & Hl & Hin). apply list_elem_of_In in Hl, Hin.
    apply list_elem_of_fmap in Hl as (i & -> & Hi).
    apply list_elem_of_fmap in Hin as ([b' k'] & [= -> -> ->] & Hu).
    apply elem_of_seq in Hi. exists i. split; [reflexivity |].
    split; [lia |]. apply elem_of_getUses, Hu.
  - intros (i & -> & Hi & Hu).
    exists ((λ u, (OpResult o i, u)) <$> getUses g (OpResult o i)).
    split; apply list_elem_of_In.
    + apply list_elem_of_fmap. exists i. split; [reflexivity |].
      apply elem_of_seq. lia.
    + apply list_elem_of_fmap. exists (b, k). split; [reflexivity |].
      apply elem_of_getUses, Hu.
Qed.

Lemma elem_of_regionOps (g : IR) (op : Operation) (nested : list OpId) (x : OpId) :
  regionOps g op = Some nested →
  (x ∈ nested ↔
   ∃ b blk, b ∈ concat (opRegions op) ∧ getBlock g b = Some blk ∧
            x ∈ blockOps blk).
Proof.
  unfold regionOps. intros Hr.
  destruct (mapM (getBlock g) (concat (opRegions op))) as [blocks |] eqn:Hm;
    [| discriminate].
  simpl in Hr. injection Hr as <-.
  apply mapM_Some in Hm.
  rewrite list_elem_of_In, in_concat. split.
  - intros (l & Hl & Hin). apply list_elem_of_In in Hl, Hin.
    apply list_elem_of_fmap in Hl as (blk & -> & Hblk).
    apply list_elem_of_lookup in Hblk as [j Hj].
    destruct (Forall2_lookup_r _ _ _ _ _ Hm Hj) as (b & Hb & Hget).
    exists b, blk. split; [eapply list_elem_of_lookup_2, Hb |]. auto.
  - intros (b & blk & Hb & Hget & Hx).
    apply list_elem_of_lookup in Hb as [j Hj].
    destruct (Forall2_lookup_l _ _ _ _ _ Hm Hj) as (blk' & Hblk & Hget').
    rewrite Hget in Hget'. injection Hget' as <-.
    exists (blockOps blk). split; apply list_elem_of_In; [| exact Hx].
    apply list_elem_of_fmap. exists blk. split; [reflexivity |].
    eapply list_elem_of_lookup_2, Hblk.
Qed.

Lemma NoDup_setInsert {A} `{EqDecision A} (x : A) (s : list A) :
  NoDup s → NoDup (setInsert x s).
Proof.
  intros Hs. unfold setInsert. destruct (decide (x ∈ s)) as [| Hn]; [exact Hs |].
  apply NoDup_app. split; [exact Hs |]. split; [| apply NoDup_singleton].
  intros y Hy Hy'. apply list_elem_of_singleton in Hy' as ->. contradiction.
Qed.

Lemma sliceClosedAt_mono (g : IR) (s s' : list OpId) (us us' : list OpUseInfo)
    (p : OpId) :
  (∀ x, x ∈ s → x ∈ s') → (∀ u, u ∈ us → u ∈ us') →
  sliceClosedAt g s us p → sliceClosedAt g s' us' p.
Proof.
  intros Hs Hu (op & Hop & Hn & Hr). exists op. split; [exact Hop |]. split.
  - intros b blk x Hb Hblk Hx. eapply Hs, Hn; eauto.
  - intros i user k opu Hi Hu' Hk.
    destruct (Hr i user k opu Hi Hu' Hk). auto.
Qed.

Lemma sliceGrows_refl (g : IR) (pending : list OpId) acc :
  sliceGrows g pending acc acc.
Proof. unfold sliceGrows. auto 10. Qed.

Lemma sliceGrows_trans (g : IR) (pending : list OpId) a b c :
  sliceGrows g pending a b → sliceGrows g pending b c → sliceGrows g pending a c.
Proof.
  intros (H1 & H2 & H3 & H4 & H5) (K1 & K2 & K3 & K4 & K5).
  split; [auto |]. split; [auto |]. split; [| split; [| auto]].
  - intros p Hp. destruct (K3 p Hp) as [Hb | Hc]; [| auto].
    destruct (H3 p Hb) as [Ha | Hc]; [auto |]. right.
    eapply sliceClosedAt_mono; eauto.
  - intros u Hu. destruct (K4 u Hu) as [Hb | Hc]; [| auto].
    destruct (H4 u Hb) as [Ha | (Hg & Ho & p & i & Hv & Hp)]; [auto |]. right.
    split; [exact Hg |]. split; [auto |]. exists p, i. split; [exact Hv |].
    destruct Hp; auto.
Qed.

Lemma sliceGrows_pending (g : IR) (pending : list OpId) a b :
  sliceGrows g [] a b → sliceGrows g pending a b.
Proof.
  intros (H1 & H2 & H3 & H4 & H5). split; [auto |]. split; [auto |].
  split; [auto |]. split; [| auto].
  intros u Hu. destruct (H4 u Hu) as [Ha | (Hg & Ho & p & i & Hv & Hp)]; [auto |].
  right. split; [exact Hg |]. split; [exact Ho |]. exists p, i.
  split; [exact Hv |]. destruct Hp as [Hp | Hp]; [auto | inversion Hp].
Qed.

(** A loop that takes the accumulators through [sliceGrows] and leaves
    each element it passes in the set. *)
Lemma foldResult_sliceGrows {A} (g : IR) (pending : list OpId)
    (Q : A → list OpId * list OpUseInfo → Prop)
    (f : list OpId * list OpUseInfo → A → Result (list OpId * list OpUseInfo))
    (l : list A) :
  (∀ x a b, Q x a → sliceGrows g pending a b → Q x b) →
  (∀ a x b, x ∈ l → f a x = Done b → sliceGrows g pending a b ∧ Q x b) →
  ∀ a b, foldResult f l a = Done b →
         sliceGrows g pending a b ∧ ∀ x, x ∈ l → Q x b.
Proof.
  intros Hmono. induction l as [| y l IH]; intros Hstep a b Hrun.
  - injection Hrun as <-. split; [apply sliceGrows_refl |].
    intros x Hx. inversion Hx.
  - simpl in Hrun. destruct (f a y) as [a1 | |] eqn:Hf; try discriminate.
    simpl in Hrun.
    destruct (Hstep a y a1 (list_elem_of_here _ _) Hf) as [Hg Hq].
    destruct (IH (λ a' x b' Hx, Hstep a' x b' (list_elem_of_further _ _ _ Hx))
                 a1 b Hrun) as [Hg' Hq'].
    split; [eapply sliceGrows_trans; eauto |].
    intros x Hx. apply elem_of_cons in Hx as [-> | Hx]; [| auto].
    eapply Hmono; eauto.
Qed.

Lemma getForwardSliceOpUseInfo_grows (g : IR) (fuel : nat) :
  ∀ o acc acc',
  getForwardSliceOpUseInfo fuel g (Some o) acc = Done acc' →
  sliceGrows g [] acc acc' ∧ o ∈ fst acc'.
Proof.
  induction fuel as [| fuel IH]; intros o acc acc' Hrun; [discriminate |].
  cbn [getForwardSliceOpUseInfo] in Hrun.
  destruct (getOp g o) as [opr |] eqn:Hop; [| discriminate].
  cbn [ofOption mbind Result_bind] in Hrun.
  destruct (regionOps g opr) as [nested |] eqn:Hreg; [| discriminate].
  cbn [ofOption mbind Result_bind] in Hrun.
  destruct (foldResult _ nested acc) as [acc1 | |] eqn:Hf1; try discriminate.
  cbn [mbind Result_bind] in Hrun.
  destruct (foldResult _ (resultUses g o opr) acc1) as [acc2 | |] eqn:Hf2;
    try discriminate.
  cbn [mbind Result_bind] in Hrun. injection Hrun as <-.
  apply (foldResult_sliceGrows g [] (λ x a, x ∈ fst a)) in Hf1.
  2:{ intros x a b Hx (Hs & _). auto. }
  2:{ intros a x b _ Hstep.
      destruct (setContains x (fst a)) eqn:Hc.
      - injection Hstep as <-. split; [apply sliceGrows_refl |].
        unfold setContains in Hc. apply bool_decide_eq_true in Hc. exact Hc.
      - apply IH, Hstep. }
  destruct Hf1 as [Hg1 Hin1].
  apply (foldResult_sliceGrows g [o]
           (λ (x : Value * (OpId * nat)) a,
              fst (snd x) ∈ fst a ∧
              mkUse (fst x) (fst (snd x)) (snd (snd x)) ∈ snd a)) in Hf2.
  2:{ intros x a b [Hx Hu] (Hs & Hus & _). auto. }
  2:{ intros a [v [b k]] a' Hin Hstep. cbn [fst snd] in *.
      apply elem_of_resultUses in Hin as (i & -> & Hi & opu & Hopu & Hk).
      assert (Hpush : sliceGrows g [o] a
                        (fst a, snd a ++ [mkUse (OpResult o i) b k]) → 
                      b ∈ fst a →
                      sliceGrows g [o] a
                        (fst a, snd a ++ [mkUse (OpResult o i) b k]) ∧
                      b ∈ fst a ∧
                      mkUse (OpResult o i) b k
                        ∈ snd a ++ [mkUse (OpResult o i) b k]).
      { intros Hg Hb. split; [exact Hg |]. split; [exact Hb |].
        apply elem_of_app. right. apply list_elem_of_singleton. reflexivity. }
      destruct (setContains b (fst a)) eqn:Hc.
      - injection Hstep as <-. cbn [fst snd].
        unfold setContains in Hc. apply bool_decide_eq_true in Hc.
        apply Hpush; [| exact Hc].
        split; [auto |]. cbn [fst snd]. split.
        { intros u Hu. apply elem_of_app. auto. }
        split.
        { intros p Hp. auto. }
        split; [| auto].
        intros u Hu. apply elem_of_app in Hu as [Hu | Hu]; [auto |].
        apply list_elem_of_singleton in Hu as ->. right. cbn [useOp useValue].
        split; [exists opu; auto |]. split; [exact Hc |].
        exists o, i. split; [reflexivity |]. right. left.
      - destruct (IH _ _ _ Hstep) as [Hg Hb]. cbn [fst snd] in *.
        apply sliceGrows_pending with (pending := [o]) in Hg.
        destruct Hg as (G1 & G2 & G3 & G4 & G5). cbn [fst snd] in *.
        split; [| split; [exact Hb |]].
        + split; [auto |]. split.
          { intros u Hu. apply G2, elem_of_app. auto. }
          split; [auto |]. split; [| auto].
          intros u Hu. destruct (G4 u Hu) as [Hold | Hnew]; [| auto].
          apply elem_of_app in Hold as [Hold | Hold]; [auto |].
          apply list_elem_of_singleton in Hold as ->. right.
          cbn [useOp useValue useIndex].
          split; [exists opu; auto |]. split; [exact Hb |].
          exists o, i. split; [reflexivity |]. right. left.
        + apply G2, elem_of_app. right. apply list_elem_of_singleton.
          reflexivity. }
  destruct Hf2 as [Hg2 Hin2].
  apply sliceGrows_pending with (pending := [o]) in Hg1.
  pose proof (sliceGrows_trans _ _ _ _ _ Hg1 Hg2) as (G1 & G2 & G3 & G4 & G5).
  cbn [fst snd].
  assert (Hsub : ∀ x, x ∈ fst acc2 → x ∈ setInsert o (fst acc2)).
  { intros x Hx. apply elem_of_setInsert. auto. }
  split; [| apply setInsert_self].
  split; [cbn [fst]; auto |]. split; [cbn [snd]; auto |]. cbn [fst snd].
  split; [| split].
  - intros p Hp. apply elem_of_setInsert in Hp as [-> | Hp].
    + right. exists opr. split; [exact Hop |]. split.
      * intros b blk x Hb Hblk Hx. apply Hsub.
        destruct Hg2 as (K1 & _). apply K1, Hin1.
        apply (elem_of_regionOps g opr nested x Hreg). eauto.
      * intros i user k opu Hi Hopu Hk.
        destruct (Hin2 (OpResult o i, (user, k))) as [Hu1 Hu2].
        { apply elem_of_resultUses. exists i. eauto 6. }
        cbn [fst snd] in *. auto.
    + destruct (G3 p Hp) as [Hold | Hc]; [auto |]. right.
      eapply sliceClosedAt_mono; [exact Hsub | | exact Hc]. auto.
  - intros u Hu. destruct (G4 u Hu) as [Hold | (Hg & Ho & p & i & Hv & Hp)];
      [auto |].
    right. split; [exact Hg |]. split; [auto |]. exists p, i.
    split; [exact Hv |]. left.
    destruct Hp as [Hp | Hp]; [auto |].
    apply list_elem_of_singleton in Hp as ->. apply setInsert_self.
  - intros Hnd. apply NoDup_setInsert. auto.
Qed.

(** X8.  What [getForwardSliceOpUseInfo] returns when it is started on
    empty accumulators: the set holds the start operation, holds no
    operation twice, and is closed (with every member it holds the
    operations nested in it and every user of its results, each such use
    being recorded); every recorded use names an operand slot that does hold
    the recorded value, a result of a member of the set, in an operation of
    the set. *)
Theorem forward_slice_closed_and_genuine (fuel : nat) (g : IR) (start : OpId)
    (slice : list OpId) (uses : list OpUseInfo) :
  getForwardSliceOpUseInfo fuel g (Some start) ([], []) = Done (slice, uses) →
  start ∈ slice ∧ NoDup slice ∧
  (∀ p, p ∈ slice → sliceClosedAt g slice uses p) ∧
  (∀ u, u ∈ uses →
     genuineUse g u ∧ useOp u ∈ slice ∧
     ∃ p i, useValue u = OpResult p i ∧ p ∈ slice).
Proof.
  intros Hrun.
  destruct (getForwardSliceOpUseInfo_grows g fuel _ _ _ Hrun)
    as [(_ & _ & Hc & Hu & Hnd) Hin].
  cbn [fst snd] in *. split; [exact Hin |].
  split; [apply Hnd; constructor |]. split.
  - intros p Hp. destruct (Hc p Hp) as [Hold | Hcl]; [inversion Hold | exact Hcl].
  - intros u Hin'.
    destruct (Hu u Hin') as [Hold | (Hg & Ho & p & i & Hv & Hp)];
      [inversion Hold |].
    split; [exact Hg |]. split; [exact Ho |]. exists p, i. split; [exact Hv |].
    destruct Hp as [Hp | Hp]; [exact Hp | inversion Hp].
Qed.

Lemma forward_slice_closed_and_genuine_witness :
  getForwardSliceOpUseInfo 5 loopGraph (Some 2) ([], [])
  = Done ([4; 3; 2], [mkUse (OpResult 2 0) 3 0; mkUse (OpResult 3 0) 4 0]) ∧
  2 ∈ [4; 3; 2] ∧ NoDup [4; 3; 2] ∧
  (∀ p, p ∈ [4; 3; 2] →
     sliceClosedAt loopGraph [4; 3; 2]
       [mkUse (OpResult 2 0) 3 0; mkUse (OpResult 3 0) 4 0] p) ∧
  (∀ u, u ∈ [mkUse (OpResult 2 0) 3 0; mkUse (OpResult 3 0) 4 0] →
     genuineUse loopGraph u ∧ useOp u ∈ [4; 3; 2] ∧
     ∃ p i, useValue u = OpResult p i ∧ p ∈ [4; 3; 2]).
Proof.
  split; [reflexivity |].
  apply (forward_slice_closed_and_genuine 5 loopGraph 2 [4; 3; 2]
           [mkUse (OpResult 2 0) 3 0; mkUse (OpResult 3 0) 4 0]).
  reflexivity.
Defined.

(** *** The forward slice is found *)

Lemma foldResult_defined {A S} (f : S → A → Result S) (l : list A) :
  (∀ s x, x ∈ l → ∃ s', f s x = Done s') →
  ∀ s, ∃ s', foldResult f l s = Done s'.
Proof.
  induction l as [| x l IH]; intros Hf s; [eexists; reflexivity |].
  cbn [foldResult]. destruct (Hf s x (list_elem_of_here _ _)) as [s1 ->].
  cbn [mbind Result_bind].
  apply IH. intros s2 y Hy. apply Hf. right. exact Hy.
Qed.

(** X9.  [getForwardSliceOpUseInfo] returns.  On an IR in which the
    operations nested in an operation and the users of its results are
    operations of the arena that come strictly below it in some ranking (as
    they do when uses follow definitions), the recursion from [start] ends
    within [rank start + 1] nested calls, whatever the accumulators. *)
Theorem forward_slice_terminates (g : IR) (rank : OpId → nat) (start : OpId)
    (acc : list OpId * list OpUseInfo) :
  is_Some (getOp g start) →
  (∀ o op, getOp g o = Some op →
     (∀ b, b ∈ concat (opRegions op) → is_Some (getBlock g b)) ∧
     (∀ b blk x, b ∈ concat (opRegions op) → getBlock g b = Some blk →
                 x ∈ blockOps blk → is_Some (getOp g x) ∧ rank x < rank o) ∧
     (∀ i user k opu, getOp g user = Some opu →
                      opOperands opu !! k = Some (OpResult o i) →
                      rank user < rank o)) →
  ∃ acc', getForwardSliceOpUseInfo (S (rank start)) g (Some start) acc
          = Done acc'.
Proof.
  intros Hstart Hwf.
  assert (Hgen : ∀ fuel o acc0, is_Some (getOp g o) → rank o < fuel →
            ∃ acc', getForwardSliceOpUseInfo fuel g (Some o) acc0 = Done acc').
  { induction fuel as [| fuel IH]; intros o acc0 [op Hop] Hlt; [lia |].
    cbn [getForwardSliceOpUseInfo]. rewrite Hop.
    cbn [ofOption mbind Result_bind].
    destruct (Hwf o op Hop) as (Hblocks & Hnested & Husers).
    assert (Hreg : ∃ nested, regionOps g op = Some nested).
    { unfold regionOps.
      assert (Hm : ∃ blocks, mapM (getBlock g) (concat (opRegions op))
                             = Some blocks).
      { clear -Hblocks. induction (concat (opRegions op)) as [| b l IHl];
          [eexists; reflexivity |].
        destruct (Hblocks b (list_elem_of_here _ _)) as [blk Hblk].
        destruct IHl as [blocks Hbl];
          [intros b' Hb'; apply Hblocks; right; exact Hb' |].
        exists (blk :: blocks). cbn [mapM]. rewrite Hblk. cbn [mbind option_bind].
        rewrite Hbl. reflexivity. }
      destruct Hm as [blocks ->]. eexists. reflexivity. }
    destruct Hreg as [nested Hreg]. rewrite Hreg.
    cbn [ofOption mbind Result_bind].
    destruct (foldResult_defined
                (λ acc blockOp,
                   if setContains blockOp (fst acc) then Done acc
                   else getForwardSliceOpUseInfo fuel g (Some blockOp) acc)
                nested) with (s := acc0) as [acc1 Hf1].
    { intros s x Hx. destruct (setContains x (fst s)); [eauto |].
      apply (elem_of_regionOps g op nested x Hreg) in Hx as (b & blk & Hb & Hblk & Hx).
      destruct (Hnested b blk x Hb Hblk Hx) as [Hsome Hr].
      apply IH; [exact Hsome | lia]. }
    rewrite Hf1. cbn [mbind Result_bind].
    match goal with
    | |- context [foldResult ?f (resultUses g o op) acc1] =>
        destruct (foldResult_defined f (resultUses g o op)) with (s := acc1)
          as [acc2 Hf2]
    end.
    { intros s [v [b k]] Hx. cbn [fst snd].
      destruct (setContains b (fst s)); [eauto |].
      apply elem_of_resultUses in Hx as (i & -> & _ & opu & Hopu & Hk).
      apply IH; [rewrite Hopu; eauto |].
      specialize (Husers i b k opu Hopu Hk). lia. }
    rewrite Hf2. cbn [mbind Result_bind]. eauto. }
  apply Hgen; [exact Hstart | lia].
Qed.

Lemma forward_slice_terminates_witness :
  ∃ acc', getForwardSliceOpUseInfo (S ((λ o, 5 - o) 2)) loopGraph (Some 2)
            ([], []) = Done acc'.
Proof.
  apply (forward_slice_terminates loopGraph (λ o, 5 - o) 2 ([], [])).
  - eexists. reflexivity.
  - intros o op Hop.
    assert (Ho : o < 5) by (apply (getOp_lt loopGraph o); rewrite Hop; eauto).
    destruct o as [| [| [| [| [| o]]]]]; [| | | | | lia];
      injection Hop as <-; cbn [opRegions concat app plainOp elementwiseOp].
    + split; [| split].
      * intros b Hb. apply list_elem_of_singleton in Hb as ->. eexists. reflexivity.
      * intros b blk x Hb Hblk Hx. apply list_elem_of_singleton in Hb as ->.
        injection Hblk as <-. cbn [blockOps] in Hx.
        repeat (apply elem_of_cons in Hx as [-> | Hx];
                [split; [eexists; reflexivity | lia] |]).
        inversion Hx.
      * intros i user k opu Hu Hk.
        assert (Hlt : user < 5)
          by (apply (getOp_lt loopGraph user); rewrite Hu; eauto).
        destruct user as [| [| [| [| [| user]]]]]; [| | | | | lia];
          injection Hu as <-;
          repeat (destruct k as [| k]; try discriminate Hk).
    + split; [intros b Hb; inversion Hb |].
      split; [intros b blk x Hb; inversion Hb |].
      intros i user k opu Hu Hk.
      assert (Hlt : user < 5)
        by (apply (getOp_lt loopGraph user); rewrite Hu; eauto).
      destruct user as [| [| [| [| [| user]]]]]; [| | | | | lia];
        injection Hu as <-;
        repeat (destruct k as [| k]; try discriminate Hk); lia.
    + split; [intros b Hb; inversion Hb |].
      split; [intros b blk x Hb; inversion Hb |].
      intros i user k opu Hu Hk.
      assert (Hlt : user < 5)
        by (apply (getOp_lt loopGraph user); rewrite Hu; eauto).
      destruct user as [| [| [| [| [| user]]]]]; [| | | | | lia];
        injection Hu as <-;
        repeat (destruct k as [| k]; try discriminate Hk); lia.
    + split; [intros b Hb; inversion Hb |].
      split; [intros b blk x Hb; inversion Hb |].
      intros i user k opu Hu Hk.
      assert (Hlt : user < 5)
        by (apply (getOp_lt loopGraph user); rewrite Hu; eauto).
      destruct user as [| [| [| [| [| user]]]]]; [| | | | | lia];
        injection Hu as <-;
        repeat (destruct k as [| k]; try discriminate Hk); lia.
    + split; [intros b Hb; inversion Hb |].
      split; [intros b blk x Hb; inversion Hb |].
      intros i user k opu Hu Hk.
      assert (Hlt : user < 5)
        by (apply (getOp_lt loopGraph user); rewrite Hu; eauto).
      destruct user as [| [| [| [| [| user]]]]]; [| | | | | lia];
        injection Hu as <-;
        repeat (destruct k as [| k]; try discriminate Hk); lia.
Defined.

(** *** The hoisting decision, beyond the skipped conversions *)

(** What one user does to the locals of [canMoveOutOfLoop]. *)
Lemma classifyUser_grows (g : IR) (oldType : Ty) (oldEnc : Attribute)
    (st : HoistState) (u : OpId) :
  getEncoding oldType = Some oldEnc → wellFormedUser g u →
  ∃ st', classifyUser g oldType st u = Done st' ∧
    (∀ x, x ∈ hsCvts st → x ∈ hsCvts st') ∧
    (∀ t, t ∈ hsCvtTypes st → t ∈ hsCvtTypes st') ∧
    (∀ t, keptConversion g oldEnc u t → u ∈ hsCvts st' ∧ t ∈ hsCvtTypes st') ∧
    (noopConversion g oldType u ∨ notConversion g u →
     hsCvts st' = hsCvts st ∧ hsCvtTypes st' = hsCvtTypes st).
Proof.
  intros Hold (op & Hop & Hres). unfold classifyUser. rewrite Hop.
  cbn [ofOption mbind Result_bind]. unfold isConvertLayoutOp.
  destruct (decide (opKind op = ConvertLayoutOp)) as [Hk | Hk].
  - rewrite bool_decide_eq_true_2 by exact Hk.
    destruct (Hres Hk) as (shape & elt & enc & Hty). rewrite Hty.
    cbn [ofOption mbind Result_bind isRankedTensorType getEncoding].
    rewrite Hold. cbn [ofOption mbind Result_bind].
    destruct (isSharedEncoding oldEnc && isDotOperandEncoding enc) eqn:Hc1;
      [| destruct (isSharedEncoding enc && bool_decide (getVec enc = 1%N))
           eqn:Hc2].
    + eexists. split; [reflexivity |]. split; [auto |]. split; [auto |].
      split; [| auto].
      intros t (op' & sh & el & ne & Hop' & _ & Hty' & -> & Hn1 & _).
      rewrite Hop in Hop'. injection Hop' as <-. rewrite Hty in Hty'.
      injection Hty' as <- <- <-. congruence.
    + eexists. split; [reflexivity |]. split; [auto |]. split; [auto |].
      split; [| auto].
      intros t (op' & sh & el & ne & Hop' & _ & Hty' & -> & _ & Hn2).
      rewrite Hop in Hop'. injection Hop' as <-. rewrite Hty in Hty'.
      injection Hty' as <- <- <-. congruence.
    + eexists. split; [reflexivity |]. cbn [hsCvts hsCvtTypes].
      split; [intros x Hx; apply elem_of_app; auto |].
      split; [intros t Ht; apply elem_of_setInsert; auto |]. split.
      * intros t (op' & sh & el & ne & Hop' & _ & Hty' & -> & _).
        rewrite Hop in Hop'. injection Hop' as <-. rewrite Hty in Hty'.
        injection Hty' as <- <- <-.
        split; [apply elem_of_app; right; apply list_elem_of_singleton;
                reflexivity | apply setInsert_self].
      * intros [(op' & nt & oe & ne & Hop' & _ & Hty' & _ & Ho & Hn & Hc)
               | (op' & Hop' & Hnk)].
        -- rewrite Hop in Hop'. injection Hop' as <-. rewrite Hty in Hty'.
           injection Hty' as <-. rewrite Hold in Ho. injection Ho as <-.
           simpl in Hn. injection Hn as <-. exfalso.
           destruct Hc as [[Hs Hd] | [Hs Hv]].
           ++ rewrite Hs, Hd in Hc1. discriminate.
           ++ rewrite Hs, Hv in Hc2. discriminate.
        -- rewrite Hop in Hop'. injection Hop' as <-. contradiction.
  - rewrite bool_decide_eq_false_2 by exact Hk.
    eexists. split; [reflexivity |]. cbn [hsCvts hsCvtTypes].
    split; [auto |]. split; [auto |]. split; [| auto].
    intros t (op' & sh & el & ne & Hop' & Hk' & _).
    rewrite Hop in Hop'. injection Hop' as <-. contradiction.
Qed.

Lemma foldResult_classifyUser_grows (g : IR) (oldType : Ty) (oldEnc : Attribute)
    (users : list OpId) :
  getEncoding oldType = Some oldEnc →
  (∀ u, u ∈ users → wellFormedUser g u) →
  ∀ st, ∃ st', foldResult (classifyUser g oldType) users st = Done st' ∧
    (∀ x, x ∈ hsCvts st → x ∈ hsCvts st') ∧
    (∀ t, t ∈ hsCvtTypes st → t ∈ hsCvtTypes st') ∧
    (∀ u t, u ∈ users → keptConversion g oldEnc u t →
            u ∈ hsCvts st' ∧ t ∈ hsCvtTypes st') ∧
    ((∀ u, u ∈ users → noopConversion g oldType u ∨ notConversion g u) →
     hsCvts st' = hsCvts st ∧ hsCvtTypes st' = hsCvtTypes st).
Proof.
  intros Hold. induction users as [| u users IH]; intros Hwf st.
  - exists st. split; [reflexivity |]. split; [auto |]. split; [auto |].
    split; [| auto]. intros u t Hu. inversion Hu.
  - destruct (classifyUser_grows g oldType oldEnc st u Hold
                (Hwf u (list_elem_of_here _ _)))
      as (st1 & Hrun1 & Hc1 & Ht1 & Hk1 & Hs1).
    destruct (IH (λ x Hx, Hwf x (list_elem_of_further _ _ _ Hx)) st1)
      as (st' & Hrun & Hc & Ht & Hk & Hs).
    exists st'. cbn [foldResult]. rewrite Hrun1. cbn [mbind Result_bind].
    split; [exact Hrun |]. split; [auto |]. split; [auto |]. split.
    + intros x t Hx Hkept. apply elem_of_cons in Hx as [-> | Hx]; [| eauto].
      destruct (Hk1 t Hkept). auto.
    + intros Hall.
      destruct (Hs1 (Hall u (list_elem_of_here _ _))) as [<- <-].
      apply Hs. intros x Hx. apply Hall. right. exact Hx.
Qed.

(** X10.  The first condition of [canMoveOutOfLoop]: when no user of the
    argument of a [scf.for] is a conversion the decision counts (each user is
    a skipped conversion or no conversion at all), the decision is success
    with the list of conversions still empty, whatever the other users are:
    they are collected but never examined. *)
Theorem hoisting_succeeds_without_conversions `{Framework}
    (fuel : nat) (g : IR) (arg : BlockArgument) (owner : Block)
    (forOp : OpId) (parent : Operation) (oldType : Ty) (oldEnc : Attribute) :
  getBlock g (argOwner arg) = Some owner →
  blockParentOp owner = Some forOp →
  getOp g forOp = Some parent →
  opKind parent = ForOp →
  getType g (BlockArg arg) = Some oldType →
  isRankedTensorType oldType = true →
  getEncoding oldType = Some oldEnc →
  (∀ u, u ∈ getUsers g (BlockArg arg) →
        wellFormedUser g u ∧ (noopConversion g oldType u ∨ notConversion g u)) →
  canMoveOutOfLoop fuel g arg [] = Done (true, []).
Proof.
  intros Hb Hp Hf Hk Ht Hr He Hall.
  destruct (foldResult_classifyUser_grows g oldType oldEnc
              (getUsers g (BlockArg arg)) He (λ u Hu, proj1 (Hall u Hu))
              (mkHoist [] [] []))
    as (st' & Hrun & _ & _ & _ & Hsame).
  destruct (Hsame (λ u Hu, proj2 (Hall u Hu))) as [Hc _]. simpl in Hc.
  unfold canMoveOutOfLoop.
  rewrite Hb. cbn [ofOption mbind Result_bind].
  rewrite Hp. cbn [ofOption mbind Result_bind].
  rewrite Hf. cbn [ofOption mbind Result_bind].
  rewrite Hk, Ht. cbn [ofOption mbind Result_bind bool_decide]. rewrite Hr.
  rewrite Hrun. cbn [mbind Result_bind]. rewrite Hc. reflexivity.
Qed.

Lemma hoisting_succeeds_without_conversions_witness :
  getUsers loopGraph (BlockArg (mkArg 1 1)) = [2] ∧
  canMoveOutOfLoop (H := exampleFramework) 0 loopGraph (mkArg 1 1) []
  = Done (true, []).
Proof.
  split; [reflexivity |].
  apply (hoisting_succeeds_without_conversions (H := exampleFramework) 0
           loopGraph (mkArg 1 1)
           (mkBlock [IntegerType 32; tensorOf blockedA] [1; 2; 3; 4] (Some 0)) 0
           (mkOp ForOp
              [BlockArg (mkArg 0 0); BlockArg (mkArg 0 1); BlockArg (mkArg 0 2);
               BlockArg (mkArg 0 3)]
              [tensorOf blockedA] [[1]] (Some 0) false false false)
           (tensorOf blockedA) blockedA);
    try reflexivity.
  intros u Hu. apply list_elem_of_singleton in Hu as ->.
  split; [| right];
    exists (elementwiseOp [BlockArg (mkArg 1 1)] [tensorOf blockedA] 1);
    (split; [reflexivity | discriminate]).
Defined.

(** X11.  The second condition of [canMoveOutOfLoop]: when two users of the
    argument of a [scf.for] are conversions the decision counts and their
    result types differ, the decision is failure, and both conversions are
    in the list handed back. *)
Theorem hoisting_fails_on_two_targets `{Framework}
    (fuel : nat) (g : IR) (arg : BlockArgument) (owner : Block)
    (forOp : OpId) (parent : Operation) (oldType : Ty) (oldEnc : Attribute)
    (cvts : list OpId) (u1 u2 : OpId) (t1 t2 : Ty) :
  getBlock g (argOwner arg) = Some owner →
  blockParentOp owner = Some forOp →
  getOp g forOp = Some parent →
  opKind parent = ForOp →
  getType g (BlockArg arg) = Some oldType →
  isRankedTensorType oldType = true →
  getEncoding oldType = Some oldEnc →
  (∀ u, u ∈ getUsers g (BlockArg arg) → wellFormedUser g u) →
  u1 ∈ getUsers g (BlockArg arg) → keptConversion g oldEnc u1 t1 →
  u2 ∈ getUsers g (BlockArg arg) → keptConversion g oldEnc u2 t2 →
  t1 ≠ t2 →
  ∃ cvts', canMoveOutOfLoop fuel g arg cvts = Done (false, cvts') ∧
           u1 ∈ cvts' ∧ u2 ∈ cvts'.
Proof.
  intros Hb Hp Hf Hk Ht Hr He Hall Hu1 Hk1 Hu2 Hk2 Hne.
  destruct (foldResult_classifyUser_grows g oldType oldEnc
              (getUsers g (BlockArg arg)) He Hall (mkHoist cvts [] []))
    as (st' & Hrun & _ & _ & Hkept & _).
  destruct (Hkept u1 t1 Hu1 Hk1) as [Hc1 Ht1].
  destruct (Hkept u2 t2 Hu2 Hk2) as [Hc2 Ht2].
  exists (hsCvts st'). split; [| auto].
  unfold canMoveOutOfLoop.
  rewrite Hb. cbn [ofOption mbind Result_bind].
  rewrite Hp. cbn [ofOption mbind Result_bind].
  rewrite Hf. cbn [ofOption mbind Result_bind].
  rewrite Hk, Ht. cbn [ofOption mbind Result_bind bool_decide]. rewrite Hr.
  rewrite Hrun. cbn [mbind Result_bind].
  destruct (hsCvts st') as [| c cs]; [inversion Hc1 |].
  destruct (hsCvtTypes st') as [| ta [| tb ts]]; [inversion Ht1 | | reflexivity].
  apply list_elem_of_singleton in Ht1, Ht2. congruence.
Qed.

Lemma hoisting_fails_on_two_targets_witness :
  ∃ cvts', canMoveOutOfLoop (H := exampleFramework) 0 twoTargetsGraph
             (mkArg 1 1) [] = Done (false, cvts') ∧
           1 ∈ cvts' ∧ 2 ∈ cvts'.
Proof.
  apply (hoisting_fails_on_two_targets (H := exampleFramework) 0
           twoTargetsGraph (mkArg 1 1)
           (mkBlock [IntegerType 32; tensorOf blockedA] [1; 2; 3] (Some 0)) 0
           (mkOp ForOp
              [BlockArg (mkArg 0 0); BlockArg (mkArg 0 1); BlockArg (mkArg 0 2);
               BlockArg (mkArg 0 3)]
              [tensorOf blockedA] [[1]] (Some 0) false false false)
           (tensorOf blockedA) blockedA [] 1 2
           (tensorOf blockedB) (tensorOf (SliceEncodingAttr 0 blockedB)));
    try reflexivity.
  - intros u Hu. change (u ∈ [1; 2; 3]) in Hu.
    repeat (apply elem_of_cons in Hu as [-> | Hu]); [| | | inversion Hu];
      eexists; (split; [reflexivity |]); intros Hk;
      try discriminate Hk; eexists _, _, _; reflexivity.
  - change (1 ∈ [1; 2; 3]). left.
  - eexists _, _, _, _. repeat split; reflexivity.
  - change (2 ∈ [1; 2; 3]). right. left.
  - eexists _, _, _, _. repeat split; reflexivity.
  - discriminate.
Defined.

(** *** One target *)

Lemma classifyUser_kept (g : IR) (oldType : Ty) (oldEnc : Attribute)
    (st : HoistState) (u : OpId) (T : Ty) :
  getEncoding oldType = Some oldEnc → keptConversion g oldEnc u T →
  classifyUser g oldType st u
  = Done (mkHoist (hsCvts st ++ [u]) (setInsert T (hsCvtTypes st)) (hsOthers st)).
Proof.
  intros Hold (op & shape & elt & newEnc & Hop & Hk & Hty & -> & Hn1 & Hn2).
  unfold classifyUser. rewrite Hop. cbn [ofOption mbind Result_bind].
  unfold isConvertLayoutOp. rewrite bool_decide_eq_true_2 by exact Hk.
  rewrite Hty. cbn [ofOption mbind Result_bind isRankedTensorType getEncoding].
  rewrite Hold. cbn [ofOption mbind Result_bind]. rewrite Hn1, Hn2. reflexivity.
Qed.

Lemma foldResult_classifyUser_one_target (g : IR) (oldType : Ty)
    (oldEnc : Attribute) (T : Ty) (users : list OpId) :
  getEncoding oldType = Some oldEnc →
  (∀ u, u ∈ users → keptConversion g oldEnc u T ∨ noopConversion g oldType u) →
  ∀ st, (hsCvtTypes st = [] ∨ hsCvtTypes st = [T]) →
  ∃ st', foldResult (classifyUser g oldType) users st = Done st' ∧
    hsOthers st' = hsOthers st ∧
    (hsCvtTypes st' = [] ∨ hsCvtTypes st' = [T]) ∧
    (∀ u, u ∈ users → keptConversion g oldEnc u T → hsCvtTypes st' = [T]) ∧
    (hsCvtTypes st = [T] → hsCvtTypes st' = [T]) ∧
    ∃ new, hsCvts st' = hsCvts st ++ new ∧
           (∀ c, c ∈ new → c ∈ users ∧ keptConversion g oldEnc c T) ∧
           (∀ u, u ∈ users → keptConversion g oldEnc u T → u ∈ new).
Proof.
  intros Hold. induction users as [| u users IH]; intros Hall st Hty.
  - exists st. split; [reflexivity |]. split; [reflexivity |].
    split; [exact Hty |]. split; [intros u Hu; inversion Hu |].
    split; [auto |]. exists []. rewrite app_nil_r. split; [reflexivity |].
    split; intros c Hc; inversion Hc.
  - assert (Hrest : ∀ x, x ∈ users →
              keptConversion g oldEnc x T ∨ noopConversion g oldType x).
    { intros x Hx. apply Hall. right. exact Hx. }
    cbn [foldResult].
    destruct (Hall u (list_elem_of_here _ _)) as [Hk | Hn].
    + rewrite (classifyUser_kept g oldType oldEnc st u T Hold Hk).
      cbn [mbind Result_bind].
      assert (Hty1 : setInsert T (hsCvtTypes st) = [T]).
      { destruct Hty as [-> | ->]; [reflexivity |].
        apply setInsert_elem_of. left. }
      destruct (IH Hrest (mkHoist (hsCvts st ++ [u]) (setInsert T (hsCvtTypes st))
                                  (hsOthers st)))
        as (st' & Hrun & Ho & Ht & _ & Hkeep & new & Hc & Hnew & Hall').
      { right. exact Hty1. }
      exists st'. split; [exact Hrun |]. split; [exact Ho |].
      split; [exact Ht |]. cbn [hsCvtTypes hsCvts] in *.
      split; [intros; apply Hkeep, Hty1 |].
      split; [intros; apply Hkeep, Hty1 |].
      exists (u :: new). rewrite Hc, <- app_assoc. split; [reflexivity |]. split.
      * intros c Hin. apply elem_of_cons in Hin as [-> | Hin];
          [split; [left | exact Hk] |].
        destruct (Hnew c Hin). split; [right |]; assumption.
      * intros x Hx Hkx. apply elem_of_cons in Hx as [-> | Hx]; [left |].
        right. auto.
    + rewrite (classifyUser_noop g oldType st u Hn). cbn [mbind Result_bind].
      destruct (IH Hrest st Hty)
        as (st' & Hrun & Ho & Ht & Hsome & Hkeep & new & Hc & Hnew & Hall').
      exists st'. split; [exact Hrun |]. split; [exact Ho |].
      split; [exact Ht |]. split.
      * intros x Hx Hkx. apply elem_of_cons in Hx as [-> | Hx]; [| eauto].
        exfalso.
        destruct Hkx as (op & sh & el & ne & Hop & _ & Hty' & -> & Hn1 & Hn2).
        destruct Hn as (op' & nt & oe & ne' & Hop' & _ & Hty'' & _ & Ho' & Hn'
                        & Hc').
        rewrite Hop in Hop'. injection Hop' as <-. rewrite Hty' in Hty''.
        injection Hty'' as <-. rewrite Hold in Ho'. injection Ho' as <-.
        simpl in Hn'. injection Hn' as <-.
        destruct Hc' as [[Hs Hd] | [Hs Hv]].
        -- rewrite Hs, Hd in Hn1. discriminate.
        -- rewrite Hs, Hv in Hn2. discriminate.
      * split; [exact Hkeep |]. exists new. split; [exact Hc |]. split.
        -- intros c Hin. destruct (Hnew c Hin). split; [right |]; assumption.
        -- intros x Hx Hkx. apply elem_of_cons in Hx as [-> | Hx]; [| eauto].
           exfalso.
           destruct Hkx as (op & sh & el & ne & Hop & _ & Hty' & -> & Hn1 & Hn2).
           destruct Hn as (op' & nt & oe & ne' & Hop' & _ & Hty'' & _ & Ho' & Hn'
                           & Hc').
           rewrite Hop in Hop'. injection Hop' as <-. rewrite Hty' in Hty''.
           injection Hty'' as <-. rewrite Hold in Ho'. injection Ho' as <-.
           simpl in Hn'. injection Hn' as <-.
           destruct Hc' as [[Hs Hd] | [Hs Hv]].
           ++ rewrite Hs, Hd in Hn1. discriminate.
           ++ rewrite Hs, Hv in Hn2. discriminate.
Qed.

(** X12.  The success of [canMoveOutOfLoop] on a single target.  When
    every user of the argument of a [scf.for] is a conversion, those the
    decision counts all have the result type [T] and sit in the body of the
    loop, and there is at least one of them, the decision is success and
    the list handed back holds exactly the conversions counted. *)
Theorem hoisting_succeeds_on_one_target `{Framework}
    (fuel : nat) (g : IR) (arg : BlockArgument) (owner : Block)
    (forOp : OpId) (parent : Operation) (body : BlockId)
    (oldType : Ty) (oldEnc : Attribute) (T : Ty) (u0 : OpId) :
  getBlock g (argOwner arg) = Some owner →
  blockParentOp owner = Some forOp →
  getOp g forOp = Some parent →
  opKind parent = ForOp → getBody parent = Some body →
  getType g (BlockArg arg) = Some oldType →
  isRankedTensorType oldType = true →
  getEncoding oldType = Some oldEnc →
  (∀ u, u ∈ getUsers g (BlockArg arg) →
        (keptConversion g oldEnc u T ∧
         ∃ op, getOp g u = Some op ∧ opBlock op = Some body) ∨
        noopConversion g oldType u) →
  u0 ∈ getUsers g (BlockArg arg) → keptConversion g oldEnc u0 T →
  ∃ cvts, canMoveOutOfLoop fuel g arg [] = Done (true, cvts) ∧
          ∀ c, c ∈ cvts ↔
               c ∈ getUsers g (BlockArg arg) ∧ keptConversion g oldEnc c T.
Proof.
  intros Hb Hp Hf Hk Hbody Ht Hr He Hall Hu0 Hk0.
  destruct (foldResult_classifyUser_one_target g oldType oldEnc T
              (getUsers g (BlockArg arg)) He) with (st := mkHoist [] [] [])
    as (st' & Hrun & Ho & _ & Hsome & _ & new & Hc & Hnew & Hall').
  { intros u Hu. destruct (Hall u Hu) as [[Hku _] | Hn]; auto. }
  { left. reflexivity. }
  cbn [hsCvts hsOthers app] in *.
  specialize (Hsome u0 Hu0 Hk0).
  destruct new as [| c0 new']; [specialize (Hall' u0 Hu0 Hk0); inversion Hall' |].
  set (new := c0 :: new') in *.
  exists new. split; [| intros c; split; [apply Hnew | intros [? ?]; auto]].
  unfold canMoveOutOfLoop.
  rewrite Hb. cbn [ofOption mbind Result_bind].
  rewrite Hp. cbn [ofOption mbind Result_bind].
  rewrite Hf. cbn [ofOption mbind Result_bind].
  rewrite Hk, Ht. cbn [ofOption mbind Result_bind bool_decide]. rewrite Hr.
  rewrite Hrun. cbn [mbind Result_bind]. rewrite Hc, Hsome, Ho.
  unfold new at 1. rewrite Hbody.
  cbn [ofOption mbind Result_bind].
  assert (Hblocks : allResult
            (λ cvt, op ← ofOption (getOp g cvt);
                    Done (bool_decide (opBlock op = Some body))) new
          = Done true).
  { assert (Hin : ∀ c, c ∈ new → ∃ op, getOp g c = Some op ∧ opBlock op = Some body).
    { intros c Hcin. destruct (Hnew c Hcin) as [Hcu Hck].
      destruct (Hall c Hcu) as [[_ Hop] | Hn]; [exact Hop |].
      exfalso.
      destruct Hck as (op & sh & el & ne & Hop & _ & Hty' & -> & Hn1 & Hn2).
      destruct Hn as (op' & nt & oe & ne' & Hop' & _ & Hty'' & _ & Ho' & Hn'
                      & Hc').
      rewrite Hop in Hop'. injection Hop' as <-. rewrite Hty' in Hty''.
      injection Hty'' as <-. rewrite He in Ho'. injection Ho' as <-.
      simpl in Hn'. injection Hn' as <-.
      destruct Hc' as [[Hs Hd] | [Hs Hv]].
      - rewrite Hs, Hd in Hn1. discriminate.
      - rewrite Hs, Hv in Hn2. discriminate. }
    clear -Hin. induction new as [| c new IH]; [reflexivity |].
    cbn [allResult]. destruct (Hin c (list_elem_of_here _ _)) as (op & -> & Hbl).
    cbn [ofOption mbind Result_bind].
    rewrite bool_decide_eq_true_2 by exact Hbl.
    apply IH. intros x Hx. apply Hin. right. exact Hx. }
  rewrite Hblocks. cbn [mbind Result_bind].
  destruct Hk0 as (op & sh & el & ne & _ & _ & _ & -> & _).
  cbn [getEncoding ofOption mbind Result_bind allResult]. reflexivity.
Qed.

Lemma hoisting_succeeds_on_one_target_witness :
  ∃ cvts, canMoveOutOfLoop (H := exampleFramework) 0 oneTargetGraph
            (mkArg 1 1) [] = Done (true, cvts) ∧
          ∀ c, c ∈ cvts ↔
               c ∈ getUsers oneTargetGraph (BlockArg (mkArg 1 1)) ∧
               keptConversion oneTargetGraph blockedA c (tensorOf blockedB).
Proof.
  apply (hoisting_succeeds_on_one_target (H := exampleFramework) 0
           oneTargetGraph (mkArg 1 1)
           (mkBlock [IntegerType 32; tensorOf blockedA] [1; 2; 3; 4] (Some 0)) 0
           (mkOp ForOp
              [BlockArg (mkArg 0 0); BlockArg (mkArg 0 1); BlockArg (mkArg 0 2);
               BlockArg (mkArg 0 3)]
              [tensorOf blockedA] [[1]] (Some 0) false false false)
           1 (tensorOf blockedA) blockedA (tensorOf blockedB) 1);
    try reflexivity.
  - intros u Hu. change (u ∈ [1; 2]) in Hu.
    apply elem_of_cons in Hu as [-> | Hu];
      [| apply list_elem_of_singleton in Hu as ->].
    + left. split.
      * eexists _, _, _, _. repeat split; reflexivity.
      * eexists. split; reflexivity.
    + right.
      exists (plainOp ConvertLayoutOp [BlockArg (mkArg 1 1)] [tensorOf sharedVec1] 1),
             (tensorOf sharedVec1), blockedA, sharedVec1.
      repeat split; try reflexivity. right. split; reflexivity.
  - change (1 ∈ [1; 2]). left.
  - eexists _, _, _, _. repeat split; reflexivity.
Defined.

(** *** The sentinel *)

(** X13.  The three ways in which the first operand of a cheap seed makes
    the simulator return the sentinel: the layout cannot be inverted through
    the seed, the operand is already recorded with another layout, or the
    operand is a pointer to a tensor.  The seed and its layout have been
    recorded by then, and the map is as it was. *)
Theorem sentinel_at_first_operand `{Framework} (fuel : nat) (g : IR)
    (o : OpId) (op : Operation) (L : Attribute) (st : SimState)
    (v : Value) (rest : list Value) :
  getOp g o = Some op → isExpensiveToRemat g (Some o) L = Some false →
  opOperands op = v :: rest →
  invertEncoding L op = None ∨
  (∃ newEncoding L', invertEncoding L op = Some newEncoding ∧
     mapLookup v (toConvert st) = Some L' ∧ L' ≠ newEncoding) ∨
  (∃ newEncoding ty, invertEncoding L op = Some newEncoding ∧
     (mapLookup v (toConvert st) = None ∨
      mapLookup v (toConvert st) = Some newEncoding) ∧
     getType g v = Some ty ∧ isPointerToTensor ty = true) →
  simulateBackwardRematerialization (S fuel) g (Some o) st L
  = Done (INT_MAX, mkSim (setInsert o (processed st)) (setInsert L (layout st))
                         (toConvert st)).
Proof.
  intros Hop Hcheap Hargs Hcause.
  unfold simulateBackwardRematerialization.
  cbn [simulateLoop lsQueue]. unfold simulateStep. cbn [lsQueue lsNumCvts lsSim].
  rewrite Hcheap. cbn [mbind option_bind]. rewrite Hop. cbn [mbind option_bind].
  rewrite Hargs. cbn [visitOperands].
  destruct Hcause as [-> | [(ne & L' & -> & Hl & Hne) | (ne & ty & -> & Hl & Ht & Hp)]].
  - reflexivity.
  - rewrite Hl. rewrite bool_decide_eq_true_2 by eauto.
    rewrite bool_decide_eq_true_2 by congruence. reflexivity.
  - replace (bool_decide (is_Some (mapLookup v (toConvert st))) &&
             bool_decide (mapLookup v (toConvert st) ≠ Some ne)) with false.
    + rewrite Ht. cbn [mbind option_bind]. rewrite Hp. reflexivity.
    + destruct Hl as [-> | ->].
      * rewrite bool_decide_eq_false_2; [reflexivity |]. intros [x Hx]. discriminate.
      * rewrite (bool_decide_eq_false_2 (Some ne ≠ Some ne)) by auto.
        rewrite andb_false_r. reflexivity.
Qed.

Lemma sentinel_at_first_operand_witness :
  simulateBackwardRematerialization (H := exampleFramework) 1 addGraph (Some 2)
    (mkSim [] [] [(OpResult 0 0, blockedA)]) blockedB
  = Done (INT_MAX, mkSim (setInsert 2 []) (setInsert blockedB [])
                         [(OpResult 0 0, blockedA)]).
Proof.
  apply (sentinel_at_first_operand (H := exampleFramework) 0 addGraph 2
           (elementwiseOp [OpResult 0 0; OpResult 1 0] [tensorOf blockedA] 0)
           blockedB (mkSim [] [] [(OpResult 0 0, blockedA)])
           (OpResult 0 0) [OpResult 1 0]);
    [reflexivity | reflexivity | reflexivity |].
  right. left. exists blockedB, blockedA.
  split; [reflexivity |]. split; [reflexivity | discriminate].
Defined.

(** *** The types of a clone *)

(** X14.  [cloneWithInferType] on an operation without the type inference
    interface changes at most the layout of result 0: the clone has as many
    results as the original, results 1 and up keep their types, and result 0
    keeps its type or, when that is a tensor type, its shape and element
    type. *)
Theorem cloneWithInferType_changes_layout_only `{Framework} (fuel : nat)
    (g g' : IR) (m m' : gmap Value Value) (o c : OpId) (op : Operation) :
  getOp g o = Some op → hasInferTypeOpInterface op = false →
  cloneWithInferType fuel g m o = Done (g', m', c) →
  ∃ opc, getOp g' c = Some opc ∧
    length (opResultTypes opc) = length (opResultTypes op) ∧
    drop 1 (opResultTypes opc) = drop 1 (opResultTypes op) ∧
    ∀ t', opResultTypes opc !! 0 = Some t' →
      ∃ t, opResultTypes op !! 0 = Some t ∧
        (t' = t ∨
         ∃ shape elt enc enc',
           t = RankedTensorType shape elt enc ∧
           t' = RankedTensorType shape elt enc').
Proof.
  intros Hop Hinfer. unfold cloneWithInferType. rewrite Hop.
  cbn [ofOption mbind Result_bind]. intros Hrun.
  destruct (cloneOp fuel g m o None) as [[[g1 m1] c1] | |] eqn:Hclone;
    try discriminate.
  destruct (cloneOp_spec _ _ _ _ _ _ _ _ Hclone)
    as (_ & -> & op' & regions & Hop' & Hc).
  rewrite Hop in Hop'. injection Hop' as <-.
  assert (Hbase : ∃ opc, getOp g1 (length (irOps g)) = Some opc ∧
            length (opResultTypes opc) = length (opResultTypes op) ∧
            drop 1 (opResultTypes opc) = drop 1 (opResultTypes op) ∧
            ∀ t', opResultTypes opc !! 0 = Some t' →
              ∃ t, opResultTypes op !! 0 = Some t ∧
                (t' = t ∨
                 ∃ shape elt enc enc',
                   t = RankedTensorType shape elt enc ∧
                   t' = RankedTensorType shape elt enc')).
  { eexists. split; [exact Hc |]. cbn [opResultTypes setRegions setBlock setOperands].
    split; [reflexivity |]. split; [reflexivity |]. intros t' Ht'. eauto. }
  cbn [mbind Result_bind] in Hrun.
  destruct (allResult _ _) as [[|] | |]; try discriminate;
    cbn [mbind Result_bind] in Hrun; [injection Hrun as <- <- <-; exact Hbase |].
  rewrite Hc in Hrun. cbn [ofOption mbind Result_bind] in Hrun.
  cbn [opResultTypes setRegions setBlock setOperands] in Hrun.
  destruct (opResultTypes op) as [| t0 rest] eqn:Hres;
    [injection Hrun as <- <- <-; exact Hbase |].
  cbn [lookup list_lookup ofOption mbind Result_bind] in Hrun.
  destruct (ofOption (opOperands _ !! 0)) as [arg0 | |]; try discriminate.
  cbn [mbind Result_bind] in Hrun.
  destruct (ofOption (getType g1 arg0)) as [argType | |]; try discriminate.
  cbn [mbind Result_bind] in Hrun.
  destruct t0 as [| | | shape elt enc];
    try (injection Hrun as <- <- <-; exact Hbase).
  destruct argType as [| | | ashape aelt aenc];
    try (injection Hrun as <- <- <-; exact Hbase).
  cbn [hasInferTypeOpInterface setRegions setBlock setOperands] in Hrun.
  rewrite Hinfer in Hrun. injection Hrun as <- <- <-.
  eexists. rewrite getOp_updateOp_eq, Hc. split; [reflexivity |].
  cbn [opResultTypes setResultTypes setRegions setBlock setOperands].
  split; [reflexivity |]. split; [reflexivity |].
  intros t' [= <-]. eexists. split; [reflexivity |]. right. eauto 6.
Qed.

Lemma cloneWithInferType_changes_layout_only_witness :
  ∃ opc, getOp (addOp chainConverted
                  (mkOp (OtherOp 0) [OpResult 2 0] [tensorOf blockedB] [] None
                        false true false)) 3
         = Some opc ∧
    length (opResultTypes opc)
    = length (opResultTypes
                (elementwiseOp [BlockArg (mkArg 0 0)] [tensorOf blockedA] 0)) ∧
    drop 1 (opResultTypes opc)
    = drop 1 (opResultTypes
                (elementwiseOp [BlockArg (mkArg 0 0)] [tensorOf blockedA] 0)) ∧
    ∀ t', opResultTypes opc !! 0 = Some t' →
      ∃ t, opResultTypes
             (elementwiseOp [BlockArg (mkArg 0 0)] [tensorOf blockedA] 0) !! 0
           = Some t ∧
        (t' = t ∨
         ∃ shape elt enc enc',
           t = RankedTensorType shape elt enc ∧
           t' = RankedTensorType shape elt enc').
Proof.
  apply (cloneWithInferType_changes_layout_only (H := exampleFramework) 1
           chainConverted
           (addOp chainConverted
              (mkOp (OtherOp 0) [OpResult 2 0] [tensorOf blockedB] [] None
                    false true false))
           {[ BlockArg (mkArg 0 0) := OpResult 2 0 ]}
           (<[ OpResult 0 0 := OpResult 3 0 ]>
              {[ BlockArg (mkArg 0 0) := OpResult 2 0 ]})
           0 3 (elementwiseOp [BlockArg (mkArg 0 0)] [tensorOf blockedA] 0));
    reflexivity.
Defined.

(** *** When the fix-up pattern fires *)

Lemma typesDiffer_decides (g : IR) (initArgs : list Value) (tys : list Ty) :
  Forall2 (λ v t, getType g v = Some t) initArgs tys →
  ∀ iterArgTypes resultTypes,
  length iterArgTypes = length tys → length resultTypes = length tys →
  typesDiffer g initArgs iterArgTypes resultTypes
  = Done (bool_decide (iterArgTypes ≠ tys ∨ resultTypes ≠ tys)).
Proof.
  induction 1 as [| v t initArgs tys Hv _ IH]; intros its rts Hi Hr.
  - destruct its; [| discriminate]. destruct rts; [| discriminate].
    cbn [typesDiffer]. rewrite bool_decide_eq_false_2; [reflexivity |].
    intros [Hn | Hn]; contradiction.
  - destruct its as [| it its]; [discriminate |].
    destruct rts as [| rt rts]; [discriminate |].
    simpl in Hi, Hr. injection Hi as Hi. injection Hr as Hr.
    cbn [typesDiffer]. rewrite Hv. cbn [ofOption mbind Result_bind head].
    destruct (decide (t = it)) as [<- | Hne].
    + rewrite (bool_decide_eq_false_2 (t ≠ t)) by auto.
      destruct (decide (t = rt)) as [<- | Hne].
      * rewrite (bool_decide_eq_false_2 (t ≠ t)) by auto.
        cbn [tail]. rewrite (IH its rts Hi Hr). f_equal.
        apply bool_decide_ext. split.
        -- intros [Hn | Hn]; [left | right]; congruence.
        -- intros [Hn | Hn]; [left | right]; intros ->; contradiction.
      * rewrite bool_decide_eq_true_2 by exact Hne.
        rewrite bool_decide_eq_true_2; [reflexivity |]. right. congruence.
    + rewrite bool_decide_eq_true_2 by exact Hne.
      rewrite bool_decide_eq_true_2; [reflexivity |]. left. congruence.
Qed.

(** Whether the pattern fires on a loop that passes the verifier. *)
Lemma matchAndRewrite_decides (fuel : nat) (g : IR) (forOp : OpId)
    (op : Operation) (body : BlockId) (blk : Block) (ivType : Ty)
    (iterArgTypes tys : list Ty) :
  getOp g forOp = Some op → opKind op = ForOp →
  getBody op = Some body → getBlock g body = Some blk →
  blockArgTypes blk = ivType :: iterArgTypes →
  Forall2 (λ v t, getType g v = Some t) (getInitArgs op) tys →
  length iterArgTypes = length tys → length (opResultTypes op) = length tys →
  shouldRematerialize g op
  = Done (bool_decide (iterArgTypes ≠ tys ∨ opResultTypes op ≠ tys)) ∧
  (FixupLoop.matchAndRewrite fuel g forOp = Done None ↔
   iterArgTypes = tys ∧ opResultTypes op = tys).
Proof.
  intros Hop Hk Hbody Hblk Hat Hinit Hi Hr.
  assert (Hshould : shouldRematerialize g op
            = Done (bool_decide (iterArgTypes ≠ tys ∨ opResultTypes op ≠ tys))).
  { unfold shouldRematerialize. rewrite Hbody. cbn [ofOption mbind Result_bind].
    rewrite Hblk. cbn [ofOption mbind Result_bind]. rewrite Hat.
    change (drop 1 (ivType :: iterArgTypes)) with iterArgTypes.
    apply typesDiffer_decides; assumption. }
  split; [exact Hshould |].
  unfold FixupLoop.matchAndRewrite. rewrite Hop. cbn [ofOption mbind Result_bind].
  rewrite bool_decide_eq_true_2 by exact Hk. rewrite Hshould.
  cbn [mbind Result_bind].
  destruct (decide (iterArgTypes ≠ tys ∨ opResultTypes op ≠ tys)) as [Hd | Hs].
  - rewrite bool_decide_eq_true_2 by exact Hd. split.
    + rewrite Hbody. cbn [ofOption mbind Result_bind].
      rewrite Hblk. cbn [ofOption mbind Result_bind].
      destruct (nestedOps fuel g forOp) as [owned | |]; try discriminate.
      cbn [mbind Result_bind].
      destruct (FixupLoop.rewriteLoop _ _ _ _ _ _ _); discriminate.
    + intros [H1 H2]. destruct Hd; contradiction.
  - rewrite bool_decide_eq_false_2 by exact Hs. split; [| reflexivity].
    intros _. split.
    + destruct (decide (iterArgTypes = tys)); [assumption |].
      exfalso. apply Hs. auto.
    + destruct (decide (opResultTypes op = tys)); [assumption |].
      exfalso. apply Hs. auto.
Qed.

(** X15.  [FixupLoop] fires exactly on a stale loop.  For a loop that
    passes the verifier of [scf.for] (one region argument after the
    induction variable and one result per initial value, the initial values
    typed), [shouldRematerialize] is true exactly when the types of the
    region arguments or the types of the results are not the types of the
    initial values; so the pattern leaves the loop alone exactly when the
    three lists of types agree. *)
Theorem fixup_fires_exactly_on_stale_loops (fuel : nat) (g : IR) (forOp : OpId)
    (op : Operation) (body : BlockId) (blk : Block) (ivType : Ty)
    (iterArgTypes tys : list Ty) :
  getOp g forOp = Some op → opKind op = ForOp →
  getBody op = Some body → getBlock g body = Some blk →
  blockArgTypes blk = ivType :: iterArgTypes →
  Forall2 (λ v t, getType g v = Some t) (getInitArgs op) tys →
  length iterArgTypes = length tys → length (opResultTypes op) = length tys →
  shouldRematerialize g op
  = Done (bool_decide (iterArgTypes ≠ tys ∨ opResultTypes op ≠ tys)) ∧
  (FixupLoop.matchAndRewrite fuel g forOp = Done None ↔
   iterArgTypes = tys ∧ opResultTypes op = tys).
Proof. apply matchAndRewrite_decides. Qed.

Lemma fixup_fires_exactly_on_stale_loops_witness :
  shouldRematerialize staleLoopGraph
    (mkOp ForOp
       [BlockArg (mkArg 0 0); BlockArg (mkArg 0 1); BlockArg (mkArg 0 2);
        BlockArg (mkArg 0 3)]
       [tensorOf blockedA] [[1]] (Some 0) false false false)
  = Done (bool_decide ([tensorOf blockedA] ≠ [tensorOf blockedB] ∨
                       [tensorOf blockedA] ≠ [tensorOf blockedB])) ∧
  (FixupLoop.matchAndRewrite 5 staleLoopGraph 0 = Done None ↔
   [tensorOf blockedA] = [tensorOf blockedB] ∧
   [tensorOf blockedA] = [tensorOf blockedB]).
Proof.
  apply (fixup_fires_exactly_on_stale_loops 5 staleLoopGraph 0
           (mkOp ForOp
              [BlockArg (mkArg 0 0); BlockArg (mkArg 0 1); BlockArg (mkArg 0 2);
               BlockArg (mkArg 0 3)]
              [tensorOf blockedA] [[1]] (Some 0) false false false)
           1 (mkBlock [IntegerType 32; tensorOf blockedA] [1; 2] (Some 0))
           (IntegerType 32) [tensorOf blockedA] [tensorOf blockedB]);
    try reflexivity.
  repeat constructor.
Defined.

(** *** What the fix-up does to the rest of the module *)

Lemma getOp_updateBlock (g : IR) (b : BlockId) (f : Block → Block) (x : OpId) :
  getOp (updateBlock g b f) x = getOp g x.
Proof. reflexivity. Qed.

Lemma getOp_addBlock (g : IR) (blk : Block) (x : OpId) :
  getOp (addBlock g blk) x = getOp g x.
Proof. reflexivity. Qed.

Lemma replaceResult_fresh (o new : OpId) (v : Value) (i : nat) :
  new ≠ o → replaceResult o new v ≠ OpResult o i.
Proof.
  intros Hne. destruct v as [o' j | a]; simpl; [| discriminate].
  destruct (decide (o' = o)) as [-> | Hne']; congruence.
Qed.

Lemma rewriteLoop_outside (fuel : nat) (g g' : IR) (forOp : OpId)
    (op : Operation) (body : BlockId) (blk : Block) (owned : list OpId) :
  getOp g forOp = Some op → forOp ∈ owned →
  FixupLoop.rewriteLoop fuel g forOp op body blk owned = Done g' →
  (∀ x, x ∈ owned → getOp g' x = None) ∧
  (∀ x opx, x ∉ owned → getOp g x = Some opx →
     getOp g' x
     = Some (setOperands (replaceResult forOp (length (irOps g))
                            <$> opOperands opx) opx)) ∧
  (∀ x opx i, getOp g' x = Some opx → OpResult forOp i ∉ opOperands opx).
Proof.
  intros Hop Hself Hrun. unfold FixupLoop.rewriteLoop in Hrun.
  destruct (opOperands op !! 0) as [lb |]; [| discriminate].
  cbn [ofOption mbind Result_bind] in Hrun.
  destruct (opOperands op !! 1); [| discriminate].
  cbn [ofOption mbind Result_bind] in Hrun.
  destruct (opOperands op !! 2); [| discriminate].
  cbn [ofOption mbind Result_bind] in Hrun.
  destruct (getType g lb) as [ivType |]; [| discriminate].
  cbn [ofOption mbind Result_bind] in Hrun.
  destruct (mapM (getType g) (getInitArgs op)) as [initTypes |]; [| discriminate].
  cbn [ofOption mbind Result_bind] in Hrun.
  set (newOp := mkOp ForOp (take 3 (opOperands op) ++ getInitArgs op) initTypes
                     [[length (irBlocks g)]] None
                     (hasSameOperandsAndResultEncoding op) (hasElementwise op)
                     (hasInferTypeOpInterface op)) in *.
  set (newBlk := mkBlock (ivType :: initTypes) [] (Some (length (irOps g)))) in *.
  set (g2 := addBlock (addOp g newOp) newBlk) in *.
  destruct (moveBefore g2 (length (irOps g)) forOp) as [g3 |] eqn:Hmove;
    [| discriminate].
  cbn [ofOption mbind Result_bind] in Hrun.
  destruct (decide (length (blockArgTypes blk) ≤ S (length initTypes)));
    [| discriminate].
  destruct (foldResult _ _ _) as [[[g4 m4] ops] | |] eqn:Hfold; try discriminate.
  cbn [mbind Result_bind] in Hrun.
  destruct (decide (length (opResultTypes op) = length initTypes));
    [| discriminate].
  injection Hrun as <-.
  apply cloneBlockOps_extends in Hfold. simpl in Hfold.
  pose proof (getOp_lt g forOp ltac:(rewrite Hop; eauto)) as Hlt.
  assert (H3 : ∀ x, x < length (irOps g) → getOp g3 x = getOp g x).
  { intros x Hx. unfold moveBefore in Hmove.
    destruct (getOp g2 forOp) as [a |]; [| discriminate]. simpl in Hmove.
    destruct (opBlock a) as [b |]; [| discriminate]. injection Hmove as <-.
    unfold linkWith. rewrite getOp_updateOp_ne by lia.
    rewrite getOp_updateBlock, getOp_unlink_ne by lia.
    unfold g2. rewrite getOp_addBlock. apply getOp_addOp_old. exact Hx. }
  assert (Hlen3 : length (irOps g) < length (irOps g3)).
  { unfold moveBefore in Hmove.
    destruct (getOp g2 forOp) as [a |]; [| discriminate]. simpl in Hmove.
    destruct (opBlock a) as [b |]; [| discriminate]. injection Hmove as <-.
    unfold linkWith, updateOp, updateBlock, unlink. simpl.
    rewrite length_alter.
    destruct (getOp g2 (length (irOps g)) ≫= opBlock); simpl;
      rewrite ?length_alter, length_app; simpl; lia. }
  split; [| split].
  - intros x Hx. apply getOp_freeOps_dead, Hx.
  - intros x opx Hx Hopx.
    pose proof (getOp_lt g x ltac:(rewrite Hopx; eauto)) as Hxlt.
    rewrite getOp_freeOps_other by exact Hx.
    rewrite getOp_unlink_ne by (intros ->; contradiction).
    rewrite getOp_replaceAllUsesWith, getOp_updateBlock.
    rewrite (extends_getOp _ _ _ Hfold) by lia.
    rewrite H3, Hopx by exact Hxlt. reflexivity.
  - intros x opx i Hopx Hin.
    destruct (decide (x ∈ owned)) as [Hx | Hx];
      [rewrite getOp_freeOps_dead in Hopx by exact Hx; discriminate |].
    rewrite getOp_freeOps_other in Hopx by exact Hx.
    rewrite getOp_unlink_ne in Hopx by (intros ->; contradiction).
    rewrite getOp_replaceAllUsesWith in Hopx.
    destruct (getOp _ x) as [op5 |]; [| discriminate].
    simpl in Hopx. injection Hopx as <-. simpl in Hin.
    apply list_elem_of_fmap in Hin as (w & Hw & _).
    symmetry in Hw. revert Hw. apply replaceResult_fresh. lia.
Qed.

(** X16.  What [FixupLoop] does outside the loop it rebuilds: the loop
    and every operation nested in it are erased; every other operation of
    the module is as it was, except that each operand that was result [i] of
    the old loop is now result [i] of the new one; and no operation that is
    left has a result of the old loop among its operands. *)
Theorem fixup_redirects_every_use (fuel : nat) (g g' : IR) (forOp : OpId)
    (owned : list OpId) :
  FixupLoop.matchAndRewrite fuel g forOp = Done (Some g') →
  nestedOps fuel g forOp = Done owned →
  (∀ x, x ∈ owned → getOp g' x = None) ∧
  (∀ x opx, x ∉ owned → getOp g x = Some opx →
     getOp g' x
     = Some (setOperands (replaceResult forOp (length (irOps g))
                            <$> opOperands opx) opx)) ∧
  (∀ x opx i, getOp g' x = Some opx → OpResult forOp i ∉ opOperands opx).
Proof.
  unfold FixupLoop.matchAndRewrite. intros Hrun Hown.
  destruct (getOp g forOp) as [op |] eqn:Hop; [| discriminate].
  cbn [ofOption mbind Result_bind] in Hrun.
  destruct (bool_decide (opKind op = ForOp)); [| discriminate].
  destruct (shouldRematerialize g op) as [[|] | |]; try discriminate.
  cbn [mbind Result_bind] in Hrun.
  destruct (getBody op) as [body |]; [| discriminate].
  cbn [ofOption mbind Result_bind] in Hrun.
  destruct (getBlock g body) as [blk |]; [| discriminate].
  cbn [ofOption mbind Result_bind] in Hrun.
  rewrite Hown in Hrun. cbn [mbind Result_bind] in Hrun.
  destruct (FixupLoop.rewriteLoop _ _ _ _ _ _ _) as [g1 | |] eqn:Hrw;
    try discriminate.
  cbn [mbind Result_bind] in Hrun. injection Hrun as <-.
  destruct (nestedOps_spec _ _ _ _ Hown) as [Hself _].
  eapply rewriteLoop_outside; eauto.
Qed.

Lemma fixup_redirects_every_use_witness :
  (∀ x, x ∈ [0; 1; 2] → getOp staleLoopFixed x = None) ∧
  (∀ x opx, x ∉ [0; 1; 2] → getOp staleLoopGraph x = Some opx →
     getOp staleLoopFixed x
     = Some (setOperands (replaceResult 0 (length (irOps staleLoopGraph))
                            <$> opOperands opx) opx)) ∧
  (∀ x opx i, getOp staleLoopFixed x = Some opx →
              OpResult 0 i ∉ opOperands opx).
Proof.
  apply (fixup_redirects_every_use 5 staleLoopGraph staleLoopFixed 0 [0; 1; 2]);
    reflexivity.
Defined.

(** *** The order of the rewrite *)

Section SortProps.
Context `{Framework}.

Lemma sortValues_fold (toConvert : list (Value * Attribute)) :
  ∀ (tmp : list OpId) (sortedValues : list Value),
  NoDup tmp →
  ∃ tmp',
    foldl (λ '(tmp, sortedValues) '(v, _),
             match getDefiningOp v with
             | Some o => (setInsert o tmp, sortedValues)
             | None => (tmp, sortedValues ++ [v])
             end)
          (tmp, sortedValues) toConvert
    = (tmp', sortedValues
             ++ filter (λ v, getDefiningOp v = None) toConvert.*1) ∧
    NoDup tmp' ∧
    ∀ o, o ∈ tmp' ↔ o ∈ tmp ∨ ∃ i, OpResult o i ∈ toConvert.*1.
Proof.
  induction toConvert as [| [v L] tc IH]; intros tmp sv Hnd.
  - exists tmp. cbn [foldl fmap list_fmap filter list_filter]. rewrite app_nil_r.
    split; [reflexivity |]. split; [exact Hnd |].
    intros o. split; [auto |]. intros [Ho | [i Hi]]; [exact Ho | inversion Hi].
  - cbn [foldl fmap list_fmap fst]. destruct v as [p j | a]; cbn [getDefiningOp].
    + destruct (IH (setInsert p tmp) sv) as (tmp' & Hrun & Hnd' & Hmem).
      { unfold setInsert. destruct (decide (p ∈ tmp)); [exact Hnd |].
        apply NoDup_app. split; [exact Hnd |].
        split; [| apply NoDup_singleton].
        intros y Hy Hy'. apply list_elem_of_singleton in Hy' as ->. contradiction. }
      exists tmp'. rewrite Hrun. rewrite filter_cons_False by discriminate.
      split; [reflexivity |]. split; [exact Hnd' |].
      intros o. rewrite Hmem, elem_of_setInsert. split.
      * intros [[-> | Ho] | [i Hi]]; [right; exists j; left | auto |].
        right. exists i. right. exact Hi.
      * intros [Ho | [i Hi]]; [auto |].
        apply elem_of_cons in Hi as [[= -> _] | Hi]; [auto | eauto].
    + destruct (IH tmp (sv ++ [BlockArg a]) Hnd) as (tmp' & Hrun & Hnd' & Hmem).
      exists tmp'. rewrite Hrun. rewrite filter_cons_True by reflexivity.
      rewrite <- app_assoc. split; [reflexivity |]. split; [exact Hnd' |].
      intros o. rewrite Hmem. split.
      * intros [Ho | [i Hi]]; [auto |]. right. exists i. right. exact Hi.
      * intros [Ho | [i Hi]]; [auto |].
        apply elem_of_cons in Hi as [[=] | Hi]. eauto.
Qed.

End SortProps.

Lemma sortValues_shape `{Framework} (g : IR)
    (toConvert : list (Value * Attribute)) :
  (∀ l, multiRootTopologicalSort g l ≡ₚ l) →
  ∃ producers,
    sortValues g toConvert
    = filter (λ v, getDefiningOp v = None) toConvert.*1
      ++ ((λ o, OpResult o 0) <$> producers) ∧
    NoDup producers ∧
    ∀ o, o ∈ producers ↔ ∃ i, OpResult o i ∈ toConvert.*1.
Proof.
  intros Hsort. unfold sortValues.
  destruct (sortValues_fold toConvert [] [] (NoDup_nil_2))
    as (tmp & Hrun & Hnd & Hmem).
  rewrite Hrun. cbn [app]. exists (multiRootTopologicalSort g tmp).
  split; [reflexivity |]. split; [rewrite Hsort; exact Hnd |].
  intros o. rewrite Hsort, Hmem. split.
  - intros [Ho | Hi]; [inversion Ho | exact Hi].
  - auto.
Qed.

(** X17.  The work list of [rematerializeConversionChain], provided the
    topological sort returns the operations it is given: first the block
    arguments of the plan, in the order of the plan; then result 0 of every
    operation that produces a value of the plan, once each.  A plan entry
    for another result of an operation puts result 0 of that operation on
    the list, and not the entry itself. *)
Theorem sortValues_members `{Framework} (g : IR)
    (toConvert : list (Value * Attribute)) :
  (∀ l, multiRootTopologicalSort g l ≡ₚ l) →
  ∃ producers,
    sortValues g toConvert
    = filter (λ v, getDefiningOp v = None) toConvert.*1
      ++ ((λ o, OpResult o 0) <$> producers) ∧
    NoDup producers ∧
    ∀ o, o ∈ producers ↔ ∃ i, OpResult o i ∈ toConvert.*1.
Proof. apply sortValues_shape. Qed.

Lemma sortValues_members_witness :
  ∃ producers,
    sortValues (H := exampleFramework) chainGraph
      [(OpResult 1 1, blockedB); (BlockArg (mkArg 0 0), blockedB);
       (OpResult 0 0, blockedB)]
    = filter (λ v, getDefiningOp v = None)
        [(OpResult 1 1, blockedB); (BlockArg (mkArg 0 0), blockedB);
         (OpResult 0 0, blockedB)].*1
      ++ ((λ o, OpResult o 0) <$> producers) ∧
    NoDup producers ∧
    ∀ o, o ∈ producers ↔
         ∃ i, OpResult o i ∈ [(OpResult 1 1, blockedB);
                              (BlockArg (mkArg 0 0), blockedB);
                              (OpResult 0 0, blockedB)].*1.
Proof.
  apply (sortValues_members (H := exampleFramework) chainGraph
           [(OpResult 1 1, blockedB); (BlockArg (mkArg 0 0), blockedB);
            (OpResult 0 0, blockedB)]).
  intros l. apply merge_sort_Permutation.
Defined.

(** *** The whole chain *)

Lemma mapResults_lookup_other (o new n : nat) (m : gmap Value Value) (w : Value) :
  (∀ i, w ≠ OpResult o i) → mapResults o new n m !! w = m !! w.
Proof.
  intros Hw. unfold mapResults. induction (seq 0 n) as [| i l IH]; [reflexivity |].
  simpl. rewrite lookup_insert_ne by (intros Heq; apply (Hw i); auto). exact IH.
Qed.

(** The clone of an operation without regions maps its results and nothing
    else. *)
Lemma cloneOp_flat (fuel : nat) (g g' : IR) (m m' : gmap Value Value)
    (o c : OpId) (dest : option BlockId) (op : Operation) :
  getOp g o = Some op → opRegions op = [] →
  cloneOp fuel g m o dest = Done (g', m', c) →
  m' = mapResults o c (length (opResultTypes op)) m.
Proof.
  intros Hop Hreg Hrun. destruct fuel as [| fuel]; [discriminate |].
  cbn [cloneOp] in Hrun. rewrite Hop in Hrun.
  cbn [ofOption mbind Result_bind] in Hrun. rewrite Hreg in Hrun.
  cbn [foldResult mbind Result_bind] in Hrun. injection Hrun as <- <- <-.
  reflexivity.
Qed.

Section ChainProps.
Context `{Framework}.

(** [cloneWithInferType] hands back the mapping of the clone. *)
Lemma cloneWithInferType_mapping (fuel : nat) (g g' : IR)
    (m m' : gmap Value Value) (o c : OpId) :
  cloneWithInferType fuel g m o = Done (g', m', c) →
  ∃ g1, cloneOp fuel g m o None = Done (g1, m', c).
Proof.
  unfold cloneWithInferType. intros Hrun.
  destruct (getOp g o) as [op |]; [| discriminate].
  cbn [ofOption mbind Result_bind] in Hrun.
  destruct (cloneOp fuel g m o None) as [[[g1 m1] c1] | |]; try discriminate.
  cbn [mbind Result_bind] in Hrun. exists g1.
  destruct (allResult _ _) as [[|] | |]; try discriminate;
    cbn [mbind Result_bind] in Hrun; [congruence |].
  destruct (ofOption (getOp g1 c1)) as [new | |]; try discriminate.
  cbn [mbind Result_bind] in Hrun.
  destruct (opResultTypes new) as [| t0 rest]; [congruence |].
  destruct (ofOption (opResultTypes op !! 0)) as [origType | |]; try discriminate.
  cbn [mbind Result_bind] in Hrun.
  destruct (ofOption (opOperands new !! 0)) as [arg0 | |]; try discriminate.
  cbn [mbind Result_bind] in Hrun.
  destruct (ofOption (getType g1 arg0)) as [argType | |]; try discriminate.
  cbn [mbind Result_bind] in Hrun.
  destruct origType; try congruence.
  destruct argType; try congruence.
  destruct (hasInferTypeOpInterface new); [| congruence].
  destruct (inferReturnTypes _ _); [| congruence].
  destruct (ofOption (setInferredTypes _ _)) as [types | |]; try discriminate.
  cbn [mbind Result_bind] in Hrun. congruence.
Qed.

Lemma moveAfter_kept (g g' : IR) (o anchor : OpId) :
  moveAfter g o anchor = Some g' → signaturesKept g g'.
Proof.
  unfold moveAfter. intros Hm.
  destruct (getOp g anchor) as [a |]; [| discriminate]. simpl in Hm.
  destruct (opBlock a); [| discriminate]. injection Hm as <-.
  apply signaturesKept_linkWith.
Qed.

(** The conversion made for [orig]: the operations and blocks that were
    there keep their signatures, and only the entry for [orig] changes. *)
Lemma convertOperand_keeps (L : option Attribute) (g g' : IR)
    (m m' : gmap Value Value) (orig src : Value) (cur : option OpId) :
  convertOperand L g m orig cur src = Done (g', m') →
  signaturesKept g g' ∧ m' = <[orig := OpResult (length (irOps g)) 0]> m ∧
  ∃ cvtOp shape elt,
    getOp g' (length (irOps g)) = Some cvtOp ∧ opKind cvtOp = ConvertLayoutOp ∧
    opResultTypes cvtOp = [RankedTensorType shape elt L].
Proof.
  unfold convertOperand. intros Hrun.
  destruct (getType g src) as [ty |]; [| discriminate].
  cbn [ofOption mbind Result_bind] in Hrun.
  destruct ty as [| | | shape elt enc]; try discriminate.
  set (cvtOp := mkOp ConvertLayoutOp [src] [RankedTensorType shape elt L] []
                     None false false false) in *.
  assert (Hlink : ∀ place b,
    signaturesKept g (linkWith place (addOp g cvtOp) (length (irOps g)) b) ∧
    ∃ cvtOp' shape' elt',
      getOp (linkWith place (addOp g cvtOp) (length (irOps g)) b)
            (length (irOps g)) = Some cvtOp' ∧
      opKind cvtOp' = ConvertLayoutOp ∧
      opResultTypes cvtOp' = [RankedTensorType shape' elt' L]).
  { intros place b. split.
    - eapply signaturesKept_trans; [| apply signaturesKept_linkWith].
      apply signaturesKept_extends, extends_addOp.
    - destruct (conversion_linked g place b src (RankedTensorType shape elt L))
        as (_ & (c & Hc & Hk & _ & Hr) & _).
      exists c, shape, elt. auto. }
  destruct cur as [c |].
  - unfold moveAfter in Hrun.
    destruct (getOp (addOp g cvtOp) c) as [a |]; [| discriminate].
    cbn [mbind option_bind] in Hrun.
    destruct (opBlock a) as [b |]; [| discriminate].
    cbn [mbind option_bind ofOption Result_bind] in Hrun.
    injection Hrun as <- <-.
    destruct (Hlink (insertAfterIn c (length (irOps g))) b) as [Hk Hc].
    split; [exact Hk |]. split; [reflexivity | exact Hc].
  - destruct src as [? ? | a]; [discriminate |].
    unfold moveToStart in Hrun.
    destruct (getBlock (addOp g cvtOp) (argOwner a)) as [blk |]; [| discriminate].
    cbn [mbind option_bind ofOption Result_bind] in Hrun.
    injection Hrun as <- <-.
    destruct (Hlink (λ ops, length (irOps g) :: ops) (argOwner a)) as [Hk Hc].
    split; [exact Hk |]. split; [reflexivity | exact Hc].
Qed.

(** One pass of the loop over the work list. *)
Lemma rematerializeOperand_step (fuel : nat)
    (toConvert : list (Value * Attribute)) (processed : list OpId)
    (g g' : IR) (m m' : gmap Value Value) (v : Value) :
  (∀ p, p ∈ processed → ∃ op, getOp g p = Some op ∧ opRegions op = []) →
  rematerializeOperand fuel toConvert processed (g, m) v = Done (g', m') →
  signaturesKept g g' ∧ convertedTo g' m' toConvert v ∧
  ∀ w, w ≠ v → (∀ p i, getDefiningOp v = Some p → w ≠ OpResult p i) →
       m' !! w = m !! w.
Proof.
  intros Hflat Hrun. unfold rematerializeOperand in Hrun.
  destruct (rematerializeProducer fuel processed g m v)
    as [[[[g1 m1] currOperation] currOperand] | |] eqn:Hprod; try discriminate.
  cbn [mbind Result_bind] in Hrun.
  destruct (convertOperand_keeps _ _ _ _ _ _ _ _ Hrun)
    as (Hk2 & -> & cvtOp & shape & elt & Hcvt & Hkind & Hty).
  assert (Hprod' : signaturesKept g g1 ∧
            ∀ w, (∀ p i, getDefiningOp v = Some p → w ≠ OpResult p i) →
                 m1 !! w = m !! w).
  { unfold rematerializeProducer in Hprod.
    destruct (getDefiningOp v) as [p |] eqn:Hdef;
      [| injection Hprod as <- <- <- <-; split;
         [apply signaturesKept_refl | reflexivity]].
    destruct (setContains p processed) eqn:Hin;
      [| injection Hprod as <- <- <- <-; split;
         [apply signaturesKept_refl | reflexivity]].
    destruct (cloneWithInferType fuel g m p) as [[[g0 m0] c0] | |] eqn:Hclone;
      try discriminate.
    cbn [mbind Result_bind] in Hprod.
    destruct (moveAfter g0 c0 p) as [g2 |] eqn:Hmove; [| discriminate].
    cbn [ofOption mbind Result_bind] in Hprod.
    injection Hprod as <- <- <- <-.
    destruct (cloneWithInferType_spec _ _ _ _ _ _ _ Hclone) as (Hext & _).
    split.
    - eapply signaturesKept_trans; [apply signaturesKept_extends, Hext |].
      eapply moveAfter_kept, Hmove.
    - intros w Hw.
      destruct (cloneWithInferType_mapping _ _ _ _ _ _ _ Hclone) as [g3 Hc].
      unfold setContains in Hin. apply bool_decide_eq_true in Hin.
      destruct (Hflat p Hin) as (op & Hop & Hreg).
      rewrite (cloneOp_flat _ _ _ _ _ _ _ _ _ Hop Hreg Hc).
      apply mapResults_lookup_other. intros i. apply (Hw p i). reflexivity. }
  destruct Hprod' as [Hk1 Hmap].
  split; [eapply signaturesKept_trans; eauto |]. split.
  - exists (length (irOps g1)), cvtOp, shape, elt.
    split; [apply lookup_insert_eq |]. auto.
  - intros w Hne Hw. rewrite lookup_insert_ne by congruence. apply Hmap, Hw.
Qed.

Lemma convertedTo_kept (g g' : IR) (m : gmap Value Value)
    (toConvert : list (Value * Attribute)) (v : Value) :
  signaturesKept g g' → convertedTo g m toConvert v → convertedTo g' m toConvert v.
Proof.
  intros [Kop _] (cvt & cvtOp & shape & elt & Hm & Hc & Hk & Ht).
  destruct (Kop _ _ Hc) as (op' & Hop' & Hk' & Ht' & _).
  exists cvt, op', shape, elt. repeat split; congruence.
Qed.

Lemma chain_fold (fuel : nat) (toConvert : list (Value * Attribute))
    (processed : list OpId) (g0 : IR) (worklist : list Value) :
  (∀ p, p ∈ processed → ∃ op, getOp g0 p = Some op ∧ opRegions op = []) →
  ∀ (done : list Value) (g g' : IR) (m m' : gmap Value Value),
  NoDup (done ++ worklist) →
  (∀ p i, OpResult p i ∈ done ++ worklist → i = 0) →
  signaturesKept g0 g → (∀ v, v ∈ done → convertedTo g m toConvert v) →
  foldResult (rematerializeOperand fuel toConvert processed) worklist (g, m)
  = Done (g', m') →
  signaturesKept g0 g' ∧ ∀ v, v ∈ done ++ worklist → convertedTo g' m' toConvert v.
Proof.
  intros Hflat. induction worklist as [| v worklist IH];
    intros done g g' m m' Hnd Hzero Hk Hdone Hrun.
  - injection Hrun as <- <-. rewrite app_nil_r. auto.
  - cbn [foldResult] in Hrun.
    destruct (rematerializeOperand fuel toConvert processed (g, m) v)
      as [[g1 m1] | |] eqn:Hstep; try discriminate.
    cbn [mbind Result_bind] in Hrun.
    destruct (rematerializeOperand_step fuel toConvert processed g g1 m m1 v)
      as (Hk1 & Hconv & Hmap); [| exact Hstep |].
    { intros p Hp. destruct (Hflat p Hp) as (op & Hop & Hreg).
      destruct Hk as [Kop _]. destruct (Kop _ _ Hop) as (op' & Hop' & _ & _ & Hr).
      exists op'. split; [exact Hop' | congruence]. }
    replace (done ++ v :: worklist) with ((done ++ [v]) ++ worklist) in *
      by (rewrite <- app_assoc; reflexivity).
    apply (IH (done ++ [v]) g1 g' m1 m' Hnd Hzero);
      [eapply signaturesKept_trans; eauto | | exact Hrun].
    intros w Hw. apply elem_of_app in Hw as [Hw | Hw].
    + assert (Hne : w ≠ v).
      { intros ->. apply NoDup_app in Hnd as [Hnd _].
        apply NoDup_app in Hnd as (_ & Hdis & _). apply (Hdis v Hw). left. }
      apply (convertedTo_kept g g1); [exact Hk1 |].
      destruct (Hdone w Hw) as (cvt & cvtOp & shape & elt & Hm & Hrest).
      exists cvt, cvtOp, shape, elt. split; [| exact Hrest].
      rewrite Hmap; [exact Hm | exact Hne |].
      intros p i Hdef ->. destruct v as [p' j | a]; [| discriminate].
      injection Hdef as ->.
      assert (i = 0) by (apply (Hzero p i); apply elem_of_app; left;
                         apply elem_of_app; left; exact Hw).
      assert (j = 0) by (apply (Hzero p j); apply elem_of_app; left;
                         apply elem_of_app; right; left).
      subst. contradiction.
    + apply list_elem_of_singleton in Hw as ->. exact Hconv.
Qed.
End ChainProps.

Lemma sortValues_NoDup `{Framework} (g : IR)
    (toConvert : list (Value * Attribute)) :
  (∀ l, multiRootTopologicalSort g l ≡ₚ l) → NoDup toConvert.*1 →
  NoDup (sortValues g toConvert) ∧
  ∀ p i, OpResult p i ∈ sortValues g toConvert → i = 0.
Proof.
  intros Hsort Hkeys.
  destruct (sortValues_shape g toConvert Hsort) as (producers & -> & Hnd & _).
  split.
  - apply NoDup_app. split; [apply NoDup_filter, Hkeys |]. split.
    + intros v Hv Hv'. apply list_elem_of_filter in Hv as [Harg _].
      apply list_elem_of_fmap in Hv' as (o & -> & _). discriminate.
    + apply NoDup_fmap_2; [| exact Hnd]. intros o o' [= ->]. reflexivity.
  - intros p i Hin. apply elem_of_app in Hin as [Hin | Hin].
    + apply list_elem_of_filter in Hin as [Harg _]. discriminate.
    + apply list_elem_of_fmap in Hin as (o & [= -> ->] & _). reflexivity.
Qed.

(** X18.  The rewrite of a whole chain.  Provided the topological sort
    returns the operations it is given, the plan has one entry per value,
    and the operations marked processed are operations of the module
    without regions: when [rematerializeConversionChain] returns, every
    value of its work list is mapped to the result of a conversion whose
    result type carries the layout the plan records for that value, and
    every operation and block that was there keeps its kind, result types,
    regions, argument types and parent. *)
Theorem chain_converts_every_plan_value `{Framework} (fuel : nat) (g g' : IR)
    (toConvert : list (Value * Attribute)) (processed : list OpId)
    (mapping mapping' : gmap Value Value) :
  (∀ l, multiRootTopologicalSort g l ≡ₚ l) → NoDup toConvert.*1 →
  (∀ p, p ∈ processed → ∃ op, getOp g p = Some op ∧ opRegions op = []) →
  rematerializeConversionChain fuel g toConvert processed mapping
  = Done (g', mapping') →
  signaturesKept g g' ∧
  ∀ v, v ∈ sortValues g toConvert → convertedTo g' mapping' toConvert v.
Proof.
  intros Hsort Hkeys Hflat Hrun. unfold rematerializeConversionChain in Hrun.
  destruct (sortValues_NoDup g toConvert Hsort Hkeys) as [Hnd Hzero].
  apply (chain_fold fuel toConvert processed g (sortValues g toConvert) Hflat
           [] g g' mapping mapping'); auto.
  - apply signaturesKept_refl.
  - intros v Hv. inversion Hv.
Qed.

Lemma chain_converts_every_plan_value_witness :
  ∃ g' mapping',
    rematerializeConversionChain (H := exampleFramework) 5 transGraph chainPlan
      [1; 0] ∅ = Done (g', mapping') ∧
    signaturesKept transGraph g' ∧
    ∀ v, v ∈ sortValues (H := exampleFramework) transGraph chainPlan →
         convertedTo g' mapping' chainPlan v.
Proof.
  eexists _, _. split; [vm_compute; reflexivity |].
  apply (chain_converts_every_plan_value (H := exampleFramework) 5 transGraph _
           chainPlan [1; 0] ∅ _).
  - intros l. apply merge_sort_Permutation.
  - apply (bool_decide_unpack (NoDup chainPlan.*1)). exact I.
  - intros p Hp.
    repeat (apply elem_of_cons in Hp as [-> | Hp];
            [eexists; split; reflexivity |]).
    inversion Hp.
  - vm_compute. reflexivity.
Defined.

(** *** After the fix-up *)

Lemma firstRewrite_None_all (fuel : nat) (g : IR) (l : list OpId) :
  firstRewrite fuel g l = Done None →
  ∀ o op, o ∈ l → getOp g o = Some op → opKind op = ForOp →
          FixupLoop.matchAndRewrite fuel g o = Done None.
Proof.
  induction l as [| x l IH]; intros Hrun o op Hin Hop Hk; [inversion Hin |].
  cbn [firstRewrite] in Hrun.
  apply elem_of_cons in Hin as [-> | Hin].
  - rewrite Hop in Hrun. rewrite bool_decide_eq_true_2 in Hrun by exact Hk.
    destruct (FixupLoop.matchAndRewrite fuel g x) as [[g1 |] | |];
      try discriminate. reflexivity.
  - refine (IH _ o op Hin Hop Hk).
    destruct (getOp g x) as [opx |]; [| exact Hrun].
    destruct (bool_decide (opKind opx = ForOp)); [| exact Hrun].
    destruct (FixupLoop.matchAndRewrite fuel g x) as [[g1 |] | |];
      try discriminate. exact Hrun.
Qed.

(** X19.  What a successful [fixupLoops] leaves: in the module it hands
    back, every loop that passes the verifier of [scf.for] has region
    arguments and results of the types of its initial values, position by
    position. *)
Theorem fixupLoops_leaves_no_stale_loop (maxRewrites fuel : nat) (g g' : IR)
    (forOp : OpId) (op : Operation) (body : BlockId) (blk : Block)
    (ivType : Ty) (iterArgTypes tys : list Ty) :
  fixupLoops maxRewrites fuel g = Done (true, g') →
  getOp g' forOp = Some op → opKind op = ForOp →
  getBody op = Some body → getBlock g' body = Some blk →
  blockArgTypes blk = ivType :: iterArgTypes →
  Forall2 (λ v t, getType g' v = Some t) (getInitArgs op) tys →
  length iterArgTypes = length tys → length (opResultTypes op) = length tys →
  iterArgTypes = tys ∧ opResultTypes op = tys.
Proof.
  intros Hrun Hop Hk Hbody Hblk Hat Hinit Hi Hr.
  apply applyPatternsAndFoldGreedily_converged in Hrun.
  destruct (matchAndRewrite_decides fuel g' forOp op body blk ivType
              iterArgTypes tys Hop Hk Hbody Hblk Hat Hinit Hi Hr) as [_ Hiff].
  apply Hiff. apply (firstRewrite_None_all fuel g' _ Hrun forOp op);
    [| exact Hop | exact Hk].
  apply elem_of_seq. pose proof (getOp_lt g' forOp ltac:(rewrite Hop; eauto)).
  lia.
Qed.

Lemma fixupLoops_leaves_no_stale_loop_witness :
  fixupLoops 3 5 staleLoopGraph = Done (true, staleLoopFixed) ∧
  [tensorOf blockedB] = [tensorOf blockedB] ∧
  opResultTypes
    (mkOp ForOp
       [BlockArg (mkArg 0 0); BlockArg (mkArg 0 1); BlockArg (mkArg 0 2);
        BlockArg (mkArg 0 3)]
       [tensorOf blockedB] [[2]] (Some 0) false false false)
  = [tensorOf blockedB].
Proof.
  split; [vm_compute; reflexivity |].
  apply (fixupLoops_leaves_no_stale_loop 3 5 staleLoopGraph staleLoopFixed 4
           (mkOp ForOp
              [BlockArg (mkArg 0 0); BlockArg (mkArg 0 1); BlockArg (mkArg 0 2);
               BlockArg (mkArg 0 3)]
              [tensorOf blockedB] [[2]] (Some 0) false false false)
           2 (mkBlock [IntegerType 32; tensorOf blockedB] [5; 6] (Some 4))
           (IntegerType 32) [tensorOf blockedB] [tensorOf blockedB]);
    try reflexivity.
  repeat constructor.
Defined.

(** *** The list of conversions *)

Lemma foldResult_Done_in {A S} (R : S → S → Prop) (f : S → A → Result S)
    (l : list A) :
  (∀ s, R s s) → (∀ s1 s2 s3, R s1 s2 → R s2 s3 → R s1 s3) →
  (∀ s x s', x ∈ l → f s x = Done s' → R s s') →
  ∀ s s', foldResult f l s = Done s' → R s s'.
Proof.
  intros Hrefl Htrans. induction l as [| x l IH]; intros Hstep s s' Hrun.
  - injection Hrun as <-. apply Hrefl.
  - simpl in Hrun. destruct (f s x) as [s1 | |] eqn:Hf; try discriminate.
    simpl in Hrun. eapply Htrans; [eapply Hstep; [left | exact Hf] |].
    apply IH; [| exact Hrun]. intros s2 y s3 Hy. apply Hstep. right. exact Hy.
Qed.

(** X20.  [canMoveOutOfLoop] only appends to the vector [cvts] it is
    handed: whatever the decision, the vector handed back starts with the
    entries it had, in their order, and each entry added is a user of the
    argument and a conversion. *)
Theorem hoisting_only_appends `{Framework} (fuel : nat) (g : IR)
    (arg : BlockArgument) (cvts cvts' : list OpId) (ok : bool) :
  canMoveOutOfLoop fuel g arg cvts = Done (ok, cvts') →
  ∃ new, cvts' = cvts ++ new ∧
    ∀ c, c ∈ new →
      c ∈ getUsers g (BlockArg arg) ∧
      ∃ op, getOp g c = Some op ∧ opKind op = ConvertLayoutOp.
Proof.
  unfold canMoveOutOfLoop. intros Hrun.
  assert (Hnone : ∃ new, cvts = cvts ++ new ∧
            ∀ c, c ∈ new →
              c ∈ getUsers g (BlockArg arg) ∧
              ∃ op, getOp g c = Some op ∧ opKind op = ConvertLayoutOp).
  { exists []. rewrite app_nil_r. split; [reflexivity |].
    intros c Hc. inversion Hc. }
  destruct (ofOption (getBlock g (argOwner arg))) as [owner | |];
    try discriminate.
  cbn [mbind Result_bind] in Hrun.
  destruct (ofOption (blockParentOp owner)) as [parentOp | |]; try discriminate.
  cbn [mbind Result_bind] in Hrun.
  destruct (ofOption (getOp g parentOp)) as [parent | |]; try discriminate.
  cbn [mbind Result_bind] in Hrun.
  destruct (bool_decide (opKind parent = WhileOp));
    [injection Hrun as <- <-; exact Hnone |].
  destruct (bool_decide (opKind parent ≠ ForOp));
    [injection Hrun as <- <-; exact Hnone |].
  destruct (ofOption (getType g (BlockArg arg))) as [oldType | |];
    try discriminate.
  cbn [mbind Result_bind] in Hrun.
  destruct (isRankedTensorType oldType); [| discriminate].
  destruct (foldResult _ _ _) as [st | |] eqn:Hfold; try discriminate.
  cbn [mbind Result_bind] in Hrun.
  apply (foldResult_Done_in
           (λ s s', ∃ new, hsCvts s' = hsCvts s ++ new ∧
              ∀ c, c ∈ new →
                c ∈ getUsers g (BlockArg arg) ∧
                ∃ op, getOp g c = Some op ∧ opKind op = ConvertLayoutOp))
    in Hfold.
  - cbn [hsCvts] in Hfold.
    assert (Hcv : cvts' = hsCvts st).
    { destruct (hsCvts st) as [| c0 cs]; [injection Hrun as <- <-; reflexivity |].
      destruct (hsCvtTypes st) as [| t0 [| t1 ts]];
        try (injection Hrun as <- <-; reflexivity).
      destruct (ofOption (getBody parent)) as [body | |]; try discriminate.
      cbn [mbind Result_bind] in Hrun.
      destruct (allResult _ (c0 :: cs)) as [[|] | |]; try discriminate;
        cbn [mbind Result_bind] in Hrun;
        [| injection Hrun as <- <-; reflexivity].
      destruct (ofOption (getEncoding t0)) as [enc | |]; try discriminate.
      cbn [mbind Result_bind] in Hrun.
      destruct (allResult _ (hsOthers st)) as [ok' | |]; try discriminate.
      cbn [mbind Result_bind] in Hrun. injection Hrun as <- <-. reflexivity. }
    rewrite Hcv. exact Hfold.
  - intros s. exists []. rewrite app_nil_r. split; [reflexivity |].
    intros c Hc. inversion Hc.
  - intros s1 s2 s3 (n1 & -> & H1) (n2 & -> & H2). exists (n1 ++ n2).
    rewrite app_assoc. split; [reflexivity |].
    intros c Hc. apply elem_of_app in Hc as [Hc | Hc]; auto.
  - intros s u s' Hu Hstep. unfold classifyUser in Hstep.
    destruct (getOp g u) as [op |] eqn:Hop; [| discriminate].
    cbn [ofOption mbind Result_bind] in Hstep.
    destruct (isConvertLayoutOp op) eqn:Hk.
    + unfold isConvertLayoutOp in Hk. apply bool_decide_eq_true in Hk.
      destruct (ofOption (opResultTypes op !! 0)) as [newType | |];
        try discriminate.
      cbn [mbind Result_bind] in Hstep.
      destruct (isRankedTensorType newType); [| discriminate].
      destruct (ofOption (getEncoding oldType)) as [oldEnc | |]; try discriminate.
      cbn [mbind Result_bind] in Hstep.
      destruct (ofOption (getEncoding newType)) as [newEnc | |]; try discriminate.
      cbn [mbind Result_bind] in Hstep.
      assert (Hsame : ∃ new, hsCvts s = hsCvts s ++ new ∧
                ∀ c, c ∈ new →
                  c ∈ getUsers g (BlockArg arg) ∧
                  ∃ op, getOp g c = Some op ∧ opKind op = ConvertLayoutOp).
      { exists []. rewrite app_nil_r. split; [reflexivity |].
        intros c Hc. inversion Hc. }
      destruct (isSharedEncoding oldEnc && isDotOperandEncoding newEnc);
        [injection Hstep as <-; exact Hsame |].
      destruct (isSharedEncoding newEnc && bool_decide (getVec newEnc = 1%N));
        [injection Hstep as <-; exact Hsame |].
      injection Hstep as <-. exists [u]. split; [reflexivity |].
      intros c Hc. apply list_elem_of_singleton in Hc as ->. eauto.
    + injection Hstep as <-. exists []. rewrite app_nil_r. split; [reflexivity |].
      intros c Hc. inversion Hc.
Qed.

Lemma hoisting_only_appends_witness :
  ∃ new, [0; 1; 2] = [0] ++ new ∧
    ∀ c, c ∈ new →
      c ∈ getUsers twoTargetsGraph (BlockArg (mkArg 1 1)) ∧
      ∃ op, getOp twoTargetsGraph c = Some op ∧ opKind op = ConvertLayoutOp.
Proof.
  apply (hoisting_only_appends (H := exampleFramework) 0 twoTargetsGraph
           (mkArg 1 1) [0] [0; 1; 2] false).
  reflexivity.
Defined.

(** *** The instruction shape *)

(** The first element of a descending list that passes a test is the
    greatest that does. *)
Lemma find_descending (P : Z → bool) (l : list Z) (n : Z) :
  StronglySorted (λ a b, (b ≤ a)%Z) l → List.find P l = Some n →
  n ∈ l ∧ P n = true ∧ ∀ m, m ∈ l → P m = true → (m ≤ n)%Z.
Proof.
  induction 1 as [| a l Hs IH Hall]; intros Hf; [discriminate |].
  simpl in Hf. destruct (P a) eqn:Ha.
  - injection Hf as <-. split; [left |]. split; [exact Ha |].
    intros m Hm _. apply elem_of_cons in Hm as [-> | Hm]; [lia |].
    rewrite List.Forall_forall in Hall. apply Hall, list_elem_of_In, Hm.
  - destruct (IH Hf) as (Hin & Hn & Hmax). split; [right; exact Hin |].
    split; [exact Hn |]. intros m Hm Hpm.
    apply elem_of_cons in Hm as [-> | Hm]; [congruence | auto].
Qed.

(** [validN] is one of the two lists for the six element types the
    function knows, and empty for every other. *)
Lemma validN_cases (eltType : ElementType) :
  (mmaV3ElementType eltType = true ∧
   (validN eltType
    = [256; 248; 240; 232; 224; 216; 208; 200; 192; 184; 176;
       168; 160; 152; 144; 136; 128; 120; 112; 104; 96; 88;
       80; 72; 64; 56; 48; 40; 32; 24; 16; 8]%Z ∨
    validN eltType
    = [224; 208; 192; 176; 160; 144; 128; 112; 96; 80; 64; 48; 32;
       24; 16; 8]%Z)) ∨
  (mmaV3ElementType eltType = false ∧ validN eltType = []).
Proof.
  destruct eltType as [| | | | | w | w];
    try (left; split; [reflexivity | left; reflexivity]);
    try (right; split; reflexivity).
  destruct (decide (w = 8%N)) as [-> | Hne];
    [left; split; [reflexivity | right; reflexivity] |].
  right. unfold validN, mmaV3ElementType. destruct w as [| p]; [auto |].
  destruct p as [p | p |]; auto.
  destruct p as [p | p |]; auto.
  destruct p as [p | p |]; auto.
  destruct p; auto. contradiction.
Qed.

Lemma validN_descending (eltType : ElementType) :
  StronglySorted (λ a b, (b ≤ a)%Z) (validN eltType).
Proof.
  destruct (validN_cases eltType) as [[_ [-> | ->]] | [_ ->]];
    [| | constructor];
    repeat (constructor; [| repeat (constructor; [lia |]); constructor]);
    constructor.
Qed.

Lemma validN_supported (eltType : ElementType) :
  mmaV3ElementType eltType = true ↔ (8%Z ∈ validN eltType).
Proof.
  destruct (validN_cases eltType) as [[-> [-> | ->]] | [-> ->]].
  - split; [intros _; set_solver | reflexivity].
  - split; [intros _; set_solver | reflexivity].
  - split; [discriminate | intros Hin; inversion Hin].
Qed.

Lemma validN_positive (eltType : ElementType) (n : Z) :
  n ∈ validN eltType → (8 ≤ n ≤ 256)%Z ∧ Z.rem n 8 = 0%Z.
Proof.
  destruct (validN_cases eltType) as [[_ [-> | ->]] | [_ ->]]; intros Hin;
    [| | inversion Hin];
    repeat (apply elem_of_cons in Hin as [-> | Hin];
            [split; [lia | reflexivity] |]);
    inversion Hin.
Qed.

(** X21.  For version 3 the function returns a shape exactly when the
    element type is one of the six it knows, the first dimension is a
    multiple of 64 and the second a multiple of 8; every other input it can
    read without undefined behaviour runs into [assert(false)]. *)
Theorem mma_v3_supported_exactly (shape : list Z) (eltType : ElementType) :
  ((∃ dims, mmaVersionToInstrShape 3 shape eltType = Done (Shape dims)) ↔
   mmaV3ElementType eltType = true ∧
   ∃ shape0 shape1, shape !! 0 = Some shape0 ∧ shape !! 1 = Some shape1 ∧
                    Z.rem shape0 64 = 0%Z ∧ Z.rem shape1 8 = 0%Z) ∧
  (∀ r, mmaVersionToInstrShape 3 shape eltType = Done r →
        (∃ dims, r = Shape dims) ∨ r = Unsupported [0; 0; 0]%Z).
Proof.
  unfold mmaVersionToInstrShape.
  rewrite decide_False by lia. rewrite decide_False by lia.
  rewrite decide_True by reflexivity. split; [split |].
  - intros [dims Hrun].
    destruct (decide (getElementTypeBitWidth eltType = 0%N)); [discriminate |].
    destruct (shape !! 0) as [s0 |]; [| discriminate].
    cbn [ofOption mbind Result_bind] in Hrun.
    destruct (decide (Z.rem s0 64 ≠ 0%Z)) as [| H0]; [discriminate |].
    apply dec_stable in H0.
    destruct (shape !! 1) as [s1 |]; [| discriminate].
    cbn [ofOption mbind Result_bind] in Hrun.
    destruct (decide (Z.rem s1 8 ≠ 0%Z)) as [| H1]; [discriminate |].
    apply dec_stable in H1.
    destruct (List.find _ (validN eltType)) as [n' |] eqn:Hf; [| discriminate].
    split; [| eauto 6].
    destruct (validN_cases eltType) as [[Hs _] | [_ Hnil]]; [exact Hs |].
    rewrite Hnil in Hf. discriminate.
  - intros (Hs & s0 & s1 & -> & -> & H0 & H1).
    rewrite decide_False
      by (destruct eltType as [| | | | | w | [| p]]; try discriminate).
    cbn [ofOption mbind Result_bind].
    rewrite decide_False by (intros Hn; contradiction).
    cbn [ofOption mbind Result_bind].
    rewrite decide_False by (intros Hn; contradiction).
    destruct (List.find _ (validN eltType)) as [n' |] eqn:Hf; [eauto |].
    exfalso. apply validN_supported in Hs.
    apply list_elem_of_In in Hs.
    pose proof (List.find_none _ _ Hf _ Hs) as Hno. simpl in Hno.
    apply bool_decide_eq_false in Hno. contradiction.
  - intros r Hrun.
    destruct (decide (getElementTypeBitWidth eltType = 0%N)); [discriminate |].
    destruct (shape !! 0) as [s0 |]; [| discriminate].
    cbn [ofOption mbind Result_bind] in Hrun.
    destruct (decide (Z.rem s0 64 ≠ 0%Z)); [injection Hrun as <-; auto |].
    destruct (shape !! 1) as [s1 |]; [| discriminate].
    cbn [ofOption mbind Result_bind] in Hrun.
    destruct (decide (Z.rem s1 8 ≠ 0%Z)); [injection Hrun as <-; auto |].
    destruct (List.find _ (validN eltType)); injection Hrun as <-; eauto.
Qed.

(** X22.  On a supported input of version 3 the shape is [{16, n, k}]
    where [k] is 256 divided by the bit width of the element type and [n] is
    the greatest entry of [validN] that divides the second dimension: the
    larger instruction shape is preferred. *)
Theorem mma_v3_prefers_largest (shape : list Z) (eltType : ElementType)
    (dims : list Z) (shape1 : Z) :
  mmaVersionToInstrShape 3 shape eltType = Done (Shape dims) →
  shape !! 1 = Some shape1 →
  ∃ n, dims = [16%Z; n; (256 / Z.of_N (getElementTypeBitWidth eltType))%Z] ∧
       n ∈ validN eltType ∧ (8 ≤ n ≤ 256)%Z ∧ Z.rem shape1 n = 0%Z ∧
       ∀ m, m ∈ validN eltType → Z.rem shape1 m = 0%Z → (m ≤ n)%Z.
Proof.
  unfold mmaVersionToInstrShape.
  rewrite decide_False by lia. rewrite decide_False by lia.
  rewrite decide_True by reflexivity. intros Hrun H1.
  destruct (decide (getElementTypeBitWidth eltType = 0%N)); [discriminate |].
  destruct (shape !! 0) as [s0 |]; [| discriminate].
  cbn [ofOption mbind Result_bind] in Hrun.
  destruct (decide (Z.rem s0 64 ≠ 0%Z)); [discriminate |].
  rewrite H1 in Hrun. cbn [ofOption mbind Result_bind] in Hrun.
  destruct (decide (Z.rem shape1 8 ≠ 0%Z)); [discriminate |].
  destruct (List.find _ (validN eltType)) as [n' |] eqn:Hf; [| discriminate].
  injection Hrun as <-. exists n'. split; [reflexivity |].
  destruct (find_descending _ _ _ (validN_descending eltType) Hf)
    as (Hin & Hn & Hmax).
  split; [exact Hin |]. split; [apply (validN_positive eltType n' Hin) |].
  split; [apply bool_decide_eq_true in Hn; exact Hn |].
  intros m Hm Hdiv. apply Hmax; [exact Hm |].
  apply bool_decide_eq_true. exact Hdiv.
Qed.

Lemma mma_v3_prefers_largest_witness :
  mmaVersionToInstrShape 3 [128; 192]%Z F16 = Done (Shape [16; 192; 16]%Z) ∧
  ∃ n, [16; 192; 16]%Z
       = [16%Z; n; (256 / Z.of_N (getElementTypeBitWidth F16))%Z] ∧
       n ∈ validN F16 ∧ (8 ≤ n ≤ 256)%Z ∧ Z.rem 192 n = 0%Z ∧
       ∀ m, m ∈ validN F16 → Z.rem 192 m = 0%Z → (m ≤ n)%Z.
Proof.
  split; [reflexivity |].
  apply (mma_v3_prefers_largest [128; 192]%Z F16 [16; 192; 16]%Z 192%Z);
    reflexivity.
Defined.

(** *** Index arithmetic *)

Lemma wrap_small (z : Z) : (- 2 ^ 31 ≤ z < 2 ^ 31)%Z → wrap 32 z = z.
Proof.
  intros Hz. unfold wrap. change (2 ^ (Z.of_N 32 - 1))%Z with (2 ^ 31)%Z.
  rewrite Z.mod_small by lia. lia.
Qed.

Lemma drop_back_app {A} (l : list A) (x : A) : drop_back (l ++ [x]) = Some l.
Proof.
  unfold drop_back. destruct (l ++ [x]) eqn:Heq.
  - destruct l; discriminate.
  - rewrite <- Heq, length_app. simpl.
    replace (length l + 1 - 1) with (length l) by lia.
    rewrite take_app_length. reflexivity.
Qed.

Section Arithmetic.
Variable env : nat → Z.

Lemma evalIndex_dimSize (d : N) :
  (Z.of_N d < 2 ^ 31)%Z →
  evalIndex env (ConstantIntOp (Z.of_N d) 32) = Some (Z.of_N d).
Proof. intros Hd. simpl. rewrite wrap_small by lia. reflexivity. Qed.

(** The quotient and the remainder that one round of the loop of
    [delinearize] emits. *)
Lemma evalIndex_divrem (r : IndexValue) (x : Z) (d : N) :
  evalIndex env r = Some x → (0 ≤ x)%Z → (0 < Z.of_N d < 2 ^ 31)%Z →
  evalIndex env (RemSIOp r (ConstantIntOp (Z.of_N d) 32))
  = Some (x mod Z.of_N d)%Z ∧
  evalIndex env (DivSIOp r (ConstantIntOp (Z.of_N d) 32))
  = Some (x / Z.of_N d)%Z.
Proof.
  intros Hr Hx Hd. cbn [evalIndex]. rewrite Hr.
  cbn [mbind option_bind]. rewrite wrap_small by lia.
  rewrite !decide_False by lia.
  rewrite Z.rem_mod_nonneg, Z.quot_div_nonneg by lia. auto.
Qed.

(** One round of the loop of [linearize], when nothing overflows. *)
Lemma evalIndex_linearizeStep (acc e : IndexValue) (d : N) (a m : Z) :
  evalIndex env acc = Some a → evalIndex env e = Some m →
  (0 ≤ Z.of_N d < 2 ^ 31)%Z →
  (- 2 ^ 31 ≤ a * Z.of_N d < 2 ^ 31)%Z →
  (- 2 ^ 31 ≤ a * Z.of_N d + m < 2 ^ 31)%Z →
  evalIndex env (linearizeStep acc (e, d)) = Some (a * Z.of_N d + m)%Z.
Proof.
  intros Ha He Hd H1 H2. cbn [linearizeStep evalIndex].
  rewrite Ha, He. cbn [mbind option_bind].
  rewrite (wrap_small (Z.of_N d)) by lia.
  rewrite (wrap_small (a * Z.of_N d)) by lia.
  rewrite wrap_small by lia. reflexivity.
Qed.

(** [linearize] undoes the loop of [delinearize]. *)
Lemma delinearizeLoop_linearize (dims : list N) :
  ∀ (r : IndexValue) (x : Z) multiDim last,
  evalIndex env r = Some x → (0 ≤ x < 2 ^ 31)%Z →
  Forall (λ d, 0 < Z.of_N d < 2 ^ 31)%Z dims →
  delinearizeLoop r dims = (multiDim, last) →
  length multiDim = length dims ∧
  evalIndex env (foldr (flip linearizeStep) last (zip multiDim dims)) = Some x ∧
  ∃ coords rest,
    Forall2 (λ e m, evalIndex env e = Some m) multiDim coords ∧
    evalIndex env last = Some rest ∧ (0 ≤ rest)%Z ∧
    Forall2 (λ m d, 0 ≤ m < Z.of_N d)%Z coords dims ∧
    linearIndex coords dims rest = x.
Proof.
  induction dims as [| d dims IH]; intros r x multiDim last Hr Hx Hd Hloop.
  - injection Hloop as <- <-. split; [reflexivity |]. split; [exact Hr |].
    exists [], x. repeat split; try constructor; try lia. exact Hr.
  - cbn [delinearizeLoop] in Hloop.
    destruct (delinearizeLoop _ dims) as [multi' last'] eqn:Hrest.
    injection Hloop as <- <-.
    apply Forall_cons_1 in Hd as [Hd0 Hd].
    destruct (evalIndex_divrem r x d Hr ltac:(lia) Hd0) as [Hrem Hdiv].
    assert (Hq : (0 ≤ x / Z.of_N d < 2 ^ 31)%Z).
    { split; [apply Z.div_pos; lia |].
      apply Z.le_lt_trans with x; [| lia].
      apply Z.div_le_upper_bound; [lia |].
      rewrite <- (Z.mul_1_l x) at 1. apply Z.mul_le_mono_nonneg_r; lia. }
    destruct (IH _ _ _ _ Hdiv Hq Hd Hrest)
      as (Hlen & Hlin & coords & rest & Hc & Hl & Hrest0 & Hrange & Hidx).
    split; [simpl; lia |]. split.
    + cbn [zip zip_with foldr flip].
      pose proof (Z.mod_pos_bound x (Z.of_N d) ltac:(lia)) as Hm.
      pose proof (Z.div_mod x (Z.of_N d) ltac:(lia)) as Hdm.
      rewrite (evalIndex_linearizeStep _ _ d _ _ Hlin Hrem) by nia.
      f_equal. lia.
    + exists ((x mod Z.of_N d)%Z :: coords), rest.
      split; [constructor; assumption |]. split; [exact Hl |].
      split; [exact Hrest0 |]. split.
      * constructor; [| exact Hrange]. apply Z.mod_pos_bound. lia.
      * cbn [linearIndex]. rewrite Hidx.
        pose proof (Z.div_mod x (Z.of_N d) ltac:(lia)). lia.
Qed.

(** The loop of [linearize] computes [linearIndex]. *)
Lemma linearize_fold (dims : list N) :
  ∀ (es : list IndexValue) (coords : list Z) (back : IndexValue) (rest : Z),
  Forall2 (λ e m, evalIndex env e = Some m) es coords →
  evalIndex env back = Some rest → (0 ≤ rest)%Z →
  Forall2 (λ m d, 0 ≤ m < Z.of_N d ∧ Z.of_N d < 2 ^ 31)%Z coords dims →
  (linearIndex coords dims rest < 2 ^ 31)%Z →
  evalIndex env (foldr (flip linearizeStep) back (zip es dims))
  = Some (linearIndex coords dims rest) ∧
  (0 ≤ linearIndex coords dims rest)%Z.
Proof.
  induction dims as [| d dims IH]; intros es coords back rest Hes Hb Hr Hrange Hlt.
  - apply Forall2_nil_inv_r in Hrange as ->. apply Forall2_nil_inv_r in Hes as ->.
    simpl. auto.
  - apply Forall2_cons_inv_r in Hrange as (m & coords' & [Hm Hd] & Hrange & ->).
    apply Forall2_cons_inv_r in Hes as (e & es' & He & Hes & ->).
    cbn [linearIndex] in Hlt |- *.
    assert (Hinner : (0 ≤ linearIndex coords' dims rest)%Z ∧
                     (linearIndex coords' dims rest < 2 ^ 31)%Z).
    { assert (H0 : (0 ≤ linearIndex coords' dims rest)%Z).
      { clear -Hrange Hr. revert coords' Hrange.
        induction dims as [| d' dims IHd]; intros coords' Hrange.
        - apply Forall2_nil_inv_r in Hrange as ->. simpl. lia.
        - apply Forall2_cons_inv_r in Hrange as (m' & c' & [Hm' _] & Hr' & ->).
          simpl. specialize (IHd c' Hr'). nia. }
      split; [exact H0 | nia]. }
    destruct Hinner as [H0 Hlt'].
    destruct (IH es' coords' back rest Hes Hb Hr Hrange Hlt') as [Hev _].
    split; [| nia].
    cbn [zip zip_with foldr flip].
    rewrite (evalIndex_linearizeStep _ _ d _ _ Hev He) by nia.
    f_equal. lia.
Qed.

(** The loop of [delinearize] recovers the coordinates of a linear
    index. *)
Lemma delinearizeLoop_coords (dims : list N) :
  ∀ (r : IndexValue) (coords : list Z) (rest : Z) multiDim last,
  evalIndex env r = Some (linearIndex coords dims rest) →
  Forall2 (λ m d, 0 ≤ m < Z.of_N d ∧ Z.of_N d < 2 ^ 31)%Z coords dims →
  (0 ≤ rest)%Z →
  delinearizeLoop r dims = (multiDim, last) →
  Forall2 (λ e m, evalIndex env e = Some m) multiDim coords ∧
  evalIndex env last = Some rest.
Proof.
  induction dims as [| d dims IH]; intros r coords rest multiDim last Hr Hrange
                                          Hrest Hloop.
  - apply Forall2_nil_inv_r in Hrange as ->. injection Hloop as <- <-.
    split; [constructor | exact Hr].
  - apply Forall2_cons_inv_r in Hrange as (m & coords' & [Hm Hd] & Hrange & ->).
    cbn [delinearizeLoop] in Hloop.
    destruct (delinearizeLoop _ dims) as [multi' last'] eqn:Hloop'.
    injection Hloop as <- <-. cbn [linearIndex] in Hr.
    assert (H0 : (0 ≤ linearIndex coords' dims rest)%Z).
    { clear -Hrange Hrest. revert coords' Hrange.
      induction dims as [| d' dims IHd]; intros coords' Hrange.
      - apply Forall2_nil_inv_r in Hrange as ->. simpl. lia.
      - apply Forall2_cons_inv_r in Hrange as (m' & c' & [Hm' _] & Hr' & ->).
        simpl. specialize (IHd c' Hr'). nia. }
    destruct (evalIndex_divrem r _ d Hr ltac:(nia) ltac:(lia)) as [Hrem Hdiv].
    assert (Hmod : ((m + Z.of_N d * linearIndex coords' dims rest) mod Z.of_N d
                    = m)%Z).
    { rewrite (Z.mul_comm (Z.of_N d)), Z.mod_add by lia.
      apply Z.mod_small. lia. }
    assert (Hquot : ((m + Z.of_N d * linearIndex coords' dims rest) / Z.of_N d
                     = linearIndex coords' dims rest)%Z).
    { rewrite (Z.mul_comm (Z.of_N d)), Z.div_add by lia.
      rewrite Z.div_small by lia. lia. }
    rewrite Hmod in Hrem. rewrite Hquot in Hdiv.
    destruct (IH _ coords' rest _ _ Hdiv Hrange Hrest Hloop') as [Hc Hl].
    split; [constructor; assumption | exact Hl].
Qed.
End Arithmetic.

Lemma foldl_reverse {A B} (f : B → A → B) (l : list A) (b : B) :
  foldl f b (reverse l) = foldr (flip f) b l.
Proof.
  induction l as [| x l IH]; [reflexivity |].
  rewrite reverse_cons, foldl_app. simpl. rewrite IH. reflexivity.
Qed.

Lemma linearize_app (es : list IndexValue) (back : IndexValue) (dims : list N)
    (d : N) :
  length es = length dims →
  linearize (es ++ [back]) (dims ++ [d])
  = Some (foldr (flip linearizeStep) back (zip es dims)).
Proof.
  intros Hlen. unfold linearize. rewrite reverse_app. cbn [reverse app].
  change (reverse [back]) with [back]. cbn [app].
  rewrite drop_back_app. cbn [mbind option_bind]. f_equal.
  rewrite <- foldl_reverse.
  replace (reverse (zip es dims)) with (zip (reverse es) (reverse dims));
    [reflexivity |].
  clear back d. revert dims Hlen.
  induction es as [| e es IH]; intros [| d' dims] Hlen; try discriminate;
    [reflexivity |].
  simpl in Hlen. injection Hlen as Hlen. cbn [zip zip_with].
  rewrite !reverse_cons.
  rewrite (zip_with_app pair (reverse es) [e] (reverse dims) [d'])
    by (rewrite !length_reverse; exact Hlen).
  rewrite (IH dims Hlen). reflexivity.
Qed.

Lemma delinearize_app (linear : IndexValue) (dims : list N) (d : N) :
  delinearize linear (dims ++ [d])
  = Some (fst (delinearizeLoop linear dims) ++ [snd (delinearizeLoop linear dims)]).
Proof.
  unfold delinearize. rewrite length_app. simpl.
  rewrite decide_False by lia.
  destruct dims as [| d0 dims].
  - reflexivity.
  - rewrite decide_False by (simpl; lia).
    change ((d0 :: dims) ++ [d]) with ((d0 :: dims) ++ [d]).
    rewrite drop_back_app. cbn [mbind option_bind].
    destruct (delinearizeLoop linear (d0 :: dims)). reflexivity.
Qed.

(** X23.  Round trip from a linear index: on a non-empty shape whose
    dimensions but the last are positive and below [2^31], [delinearize]
    applied to a value [x] with [0 ≤ x < 2^31] yields one coordinate per
    dimension, each but the last within its dimension, and [linearize]
    applied to these coordinates yields a value equal to [x].  The last
    dimension is not read, and the last coordinate is not bounded by it. *)
Theorem linearize_delinearize (env : nat → Z) (linear : IndexValue)
    (dims : list N) (d : N) (x : Z) :
  evalIndex env linear = Some x → (0 ≤ x < 2 ^ 31)%Z →
  Forall (λ d, 0 < Z.of_N d < 2 ^ 31)%Z dims →
  ∃ multiDim coords rest,
    delinearize linear (dims ++ [d]) = Some multiDim ∧
    Forall2 (λ e m, evalIndex env e = Some m) multiDim (coords ++ [rest]) ∧
    Forall2 (λ m d, 0 ≤ m < Z.of_N d)%Z coords dims ∧
    linearIndex coords dims rest = x ∧
    ∃ lin, linearize multiDim (dims ++ [d]) = Some lin ∧
           evalIndex env lin = Some x.
Proof.
  intros Hl Hx Hd. rewrite delinearize_app.
  destruct (delinearizeLoop linear dims) as [multi last] eqn:Hloop.
  destruct (delinearizeLoop_linearize env dims _ _ _ _ Hl Hx Hd Hloop)
    as (Hlen & Hlin & coords & rest & Hc & Hlast & _ & Hrange & Hidx).
  cbn [fst snd]. exists (multi ++ [last]), coords, rest.
  split; [reflexivity |].
  split; [apply Forall2_app; [exact Hc | constructor; [exact Hlast | constructor]] |].
  split; [exact Hrange |]. split; [exact Hidx |].
  rewrite linearize_app by exact Hlen. eauto.
Qed.

Lemma linearize_delinearize_witness :
  ∃ multiDim coords rest,
    delinearize (Given 0) ([4; 8] ++ [2])%N = Some multiDim ∧
    Forall2 (λ e m, evalIndex (λ _, 45%Z) e = Some m) multiDim
            (coords ++ [rest]) ∧
    Forall2 (λ m d, 0 ≤ m < Z.of_N d)%Z coords [4; 8]%N ∧
    linearIndex coords [4; 8]%N rest = 45%Z ∧
    ∃ lin, linearize multiDim ([4; 8] ++ [2])%N = Some lin ∧
           evalIndex (λ _, 45%Z) lin = Some 45%Z.
Proof.
  apply (linearize_delinearize (λ _, 45%Z) (Given 0) [4; 8]%N 2%N 45%Z).
  - reflexivity.
  - lia.
  - repeat constructor.
Defined.

(** X24.  Round trip from coordinates: when every coordinate but the last
    is within its dimension, the last is not negative and the linear index
    is below [2^31], [linearize] yields a value equal to the linear index,
    and [delinearize] applied to it yields values equal to the
    coordinates. *)
Theorem delinearize_linearize (env : nat → Z) (es : list IndexValue)
    (back : IndexValue) (coords : list Z) (rest : Z) (dims : list N) (d : N) :
  Forall2 (λ e m, evalIndex env e = Some m) es coords →
  evalIndex env back = Some rest → (0 ≤ rest)%Z →
  Forall2 (λ m d, 0 ≤ m < Z.of_N d ∧ Z.of_N d < 2 ^ 31)%Z coords dims →
  (linearIndex coords dims rest < 2 ^ 31)%Z →
  ∃ lin multiDim,
    linearize (es ++ [back]) (dims ++ [d]) = Some lin ∧
    evalIndex env lin = Some (linearIndex coords dims rest) ∧
    delinearize lin (dims ++ [d]) = Some multiDim ∧
    Forall2 (λ e m, evalIndex env e = Some m) multiDim (coords ++ [rest]).
Proof.
  intros Hes Hb Hrest Hrange Hlt.
  assert (Hlen : length es = length dims).
  { rewrite (Forall2_length _ _ _ Hes). apply (Forall2_length _ _ _ Hrange). }
  rewrite linearize_app by exact Hlen.
  destruct (linearize_fold env dims es coords back rest Hes Hb Hrest Hrange Hlt)
    as [Hev _].
  eexists _, _. split; [reflexivity |]. split; [exact Hev |].
  rewrite delinearize_app. split; [reflexivity |].
  destruct (delinearizeLoop _ dims) as [multi last] eqn:Hloop. cbn [fst snd].
  destruct (delinearizeLoop_coords env dims _ coords rest _ _ Hev Hrange Hrest
              Hloop) as [Hc Hl].
  apply Forall2_app; [exact Hc | constructor; [exact Hl | constructor]].
Qed.

Lemma delinearize_linearize_witness :
  ∃ lin multiDim,
    linearize ([Given 0; Given 1] ++ [Given 2]) ([4; 8] ++ [2])%N = Some lin ∧
    evalIndex (λ n, Z.of_nat n + 1)%Z lin
    = Some (linearIndex [1; 2]%Z [4; 8]%N 3%Z) ∧
    delinearize lin ([4; 8] ++ [2])%N = Some multiDim ∧
    Forall2 (λ e m, evalIndex (λ n, Z.of_nat n + 1)%Z e = Some m) multiDim
            ([1; 2] ++ [3])%Z.
Proof.
  apply (delinearize_linearize (λ n, Z.of_nat n + 1)%Z [Given 0; Given 1]
           (Given 2) [1; 2]%Z 3%Z [4; 8]%N 2%N).
  - repeat constructor.
  - reflexivity.
  - lia.
  - repeat constructor; lia.
  - simpl. lia.
Defined.

(** *** With an order *)

Lemma delinearizeLoop_length (dims : list N) (r : IndexValue) :
  length (fst (delinearizeLoop r dims)) = length dims.
Proof.
  revert r. induction dims as [| d dims IH]; intros r; [reflexivity |].
  cbn [delinearizeLoop]. specialize (IH (DivSIOp r (ConstantIntOp (Z.of_N d) 32))).
  destruct (delinearizeLoop _ dims). simpl in *. lia.
Qed.

Lemma scatter_spec (order : list nat) :
  ∀ (rm md0 : list IndexValue),
  NoDup order → Forall (λ o, o < length md0) order →
  length order ≤ length rm →
  ∃ md, scatter order rm md0 = Some md ∧ length md = length md0 ∧
        (∀ i o, order !! i = Some o → md !! o = rm !! i) ∧
        (∀ j, j ∉ order → md !! j = md0 !! j).
Proof.
  induction order as [| o order IH]; intros rm md0 Hnd Hlt Hlen.
  - exists md0. destruct rm; simpl; (split; [reflexivity |]);
      (split; [reflexivity |]); (split; [intros ? ? Hi; discriminate | auto]).
  - destruct rm as [| x rm]; [simpl in Hlen; lia |].
    apply NoDup_cons in Hnd as [Hnotin Hnd].
    apply Forall_cons_1 in Hlt as [Ho Hlt].
    cbn [scatter]. rewrite decide_True by exact Ho.
    destruct (IH rm (<[o := x]> md0) Hnd) as (md & Hrun & Hl & Hset & Hkeep).
    { rewrite length_insert. exact Hlt. }
    { simpl in Hlen. lia. }
    exists md. split; [exact Hrun |]. rewrite length_insert in Hl.
    split; [exact Hl |]. split.
    + intros [| i] o' Hi.
      * injection Hi as <-. rewrite (Hkeep o Hnotin).
        apply list_lookup_insert_eq. exact Ho.
      * apply Hset. exact Hi.
    + intros j Hj. rewrite Hkeep by (intros Hin; apply Hj; right; exact Hin).
      apply list_lookup_insert_ne. intros ->. apply Hj. left.
Qed.

(** X25.  Round trip with an order.  Provided [reorder] picks
    [input[order[i]]] for position [i], and [order] lists each dimension of
    a non-empty shape once: on a shape whose dimensions are positive and
    below [2^31], [delinearize] with the order yields one coordinate per
    dimension, none of them null, and [linearize] with the same order
    applied to these coordinates yields a value equal to the linear
    index. *)
Theorem linearize_delinearize_ordered
    (reorder : ∀ A : Type, list A → list nat → list A)
    (env : nat → Z) (linear : IndexValue)
    (shape : list N) (order : list nat) (x : Z) :
  (∀ (A : Type) (input : list A) (order : list nat),
     Forall (λ o, o < length input) order →
     Forall2 (λ x o, input !! o = Some x) (reorder A input order) order) →
  shape ≠ [] → length order = length shape → NoDup order →
  Forall (λ o, o < length shape) order →
  Forall (λ d, 0 < Z.of_N d < 2 ^ 31)%Z shape →
  evalIndex env linear = Some x → (0 ≤ x < 2 ^ 31)%Z →
  ∃ multiDim lin,
    delinearizeOrdered reorder linear shape order = Some multiDim ∧
    length multiDim = length shape ∧ (NullValue ∉ multiDim) ∧
    linearizeOrdered reorder multiDim shape order = Some lin ∧
    evalIndex env lin = Some x.
Proof.
  intros reorder_spec Hne Hlen Hnd Hlt Hd Hl Hx.
  pose proof (reorder_spec N shape order Hlt) as Hre.
  assert (Hrlen : length (reorder N shape order) = length shape).
  { rewrite (Forall2_length _ _ _ Hre). exact Hlen. }
  assert (Hrd : Forall (λ d, 0 < Z.of_N d < 2 ^ 31)%Z (reorder N shape order)).
  { apply Forall_forall. intros d Hin.
    apply list_elem_of_lookup in Hin as [i Hi].
    destruct (Forall2_lookup_l _ _ _ _ _ Hre Hi) as (o & _ & Ho).
    rewrite Forall_forall in Hd. apply Hd. eapply list_elem_of_lookup_2, Ho. }
  destruct (reorder N shape order) as [| r0 rs] eqn:Hreo using rev_ind.
  { destruct shape; [contradiction | discriminate]. }
  clear IHrs. rename rs into rdims. rename r0 into rd.
  apply Forall_app in Hrd as [Hrd _].
  destruct (linearize_delinearize env linear rdims rd x Hl Hx Hrd)
    as (rm & coords & rest & Hdel & Hev & _ & _ & lin & Hlin & Hlinev).
  assert (Hrmlen : length rm = length shape).
  { rewrite delinearize_app in Hdel. injection Hdel as <-.
    rewrite <- Hrlen, !length_app, delinearizeLoop_length. reflexivity. }
  destruct (scatter_spec order rm (replicate (length shape) NullValue) Hnd)
    as (md & Hsc & Hmdlen & Hset & _).
  { rewrite length_replicate. exact Hlt. }
  { lia. }
  rewrite length_replicate in Hmdlen.
  assert (Hrm : Forall2 (λ x o, md !! o = Some x) rm order).
  { apply Forall2_same_length_lookup. split; [lia |].
    intros i e o He Ho. rewrite (Hset i o Ho). exact He. }
  assert (Hback : reorder IndexValue md order = rm).
  { pose proof (reorder_spec IndexValue md order) as Hmd.
    rewrite Hmdlen in Hmd. specialize (Hmd Hlt).
    clear -Hmd Hrm. revert rm Hrm.
    induction Hmd as [| y o l k Hy _ IH]; intros rm Hrm.
    - apply Forall2_nil_inv_r in Hrm as ->. reflexivity.
    - apply Forall2_cons_inv_r in Hrm as (e & rm' & He & Hrm & ->).
      rewrite Hy in He. injection He as <-. f_equal. apply IH, Hrm. }
  exists md, lin. unfold delinearizeOrdered, linearizeOrdered.
  rewrite decide_True by lia. rewrite Hreo, Hdel. cbn [mbind option_bind].
  split; [exact Hsc |]. split; [exact Hmdlen |]. split.
  - intros Hin. apply list_elem_of_lookup in Hin as [j Hj].
    assert (Hjlt : j < length order).
    { rewrite Hlen, <- Hmdlen. eapply lookup_lt_Some, Hj. }
    assert (Hjin : j ∈ order).
    { clear -Hnd Hlt Hlen Hjlt. rewrite Hlen in Hjlt.
      destruct (decide (j ∈ order)) as [| Hnot]; [assumption | exfalso].
      assert (Hsub : order ⊆ filter (λ i, i ≠ j) (seq 0 (length shape))).
      { intros o Ho. apply list_elem_of_filter. split; [congruence |].
        apply elem_of_seq. rewrite Forall_forall in Hlt. specialize (Hlt o Ho).
        lia. }
      apply (NoDup_submseteq _ _ Hnd), submseteq_length in Hsub.
      assert (Hf : length (filter (λ i, i ≠ j) (seq 0 (length shape)))
                   < length shape).
      { clear -Hjlt.
        assert (Hsplit : seq 0 (length shape)
                         = seq 0 j ++ j :: seq (S j) (length shape - S j)).
        { replace (length shape) with (j + S (length shape - S j)) at 1 by lia.
          rewrite seq_app. reflexivity. }
        rewrite Hsplit, list.filter_app, filter_cons_False by auto.
        rewrite length_app.
        pose proof (list.length_filter (λ i, i ≠ j) (seq 0 j)).
        pose proof (list.length_filter (λ i, i ≠ j)
                      (seq (S j) (length shape - S j))).
        rewrite !length_seq in *. lia. }
      lia. }
    apply list_elem_of_lookup in Hjin as [i Hi].
    rewrite (Hset i j Hi) in Hj.
    destruct (Forall2_lookup_l _ _ _ _ _ Hev Hj) as (m & _ & Hm). discriminate.
  - rewrite Hback. split; [exact Hlin | exact Hlinev].
Qed.

Lemma exampleReorder_spec (A : Type) (input : list A) (order : list nat) :
  Forall (λ o, o < length input) order →
  Forall2 (λ x o, input !! o = Some x) (exampleReorder A input order) order.
Proof.
  unfold exampleReorder. induction 1 as [| o order Ho _ IH]; [constructor |].
  cbn [omap list_omap]. destruct (lookup_lt_is_Some_2 input o Ho) as [x Hx].
  rewrite Hx. constructor; [exact Hx | exact IH].
Qed.

Lemma linearize_delinearize_ordered_witness :
  ∃ multiDim lin,
    delinearizeOrdered exampleReorder (Given 0) [4; 8; 2]%N [2; 0; 1]
    = Some multiDim ∧
    length multiDim = length [4; 8; 2]%N ∧ (NullValue ∉ multiDim) ∧
    linearizeOrdered exampleReorder multiDim [4; 8; 2]%N [2; 0; 1] = Some lin ∧
    evalIndex (λ _, 45%Z) lin = Some 45%Z.
Proof.
  apply (linearize_delinearize_ordered exampleReorder
           (λ _, 45%Z) (Given 0) [4; 8; 2]%N [2; 0; 1] 45%Z).
  - apply exampleReorder_spec.
  - discriminate.
  - reflexivity.
  - apply (bool_decide_unpack (NoDup [2; 0; 1])). exact I.
  - repeat constructor.
  - repeat constructor.
  - reflexivity.
  - lia.
Defined.

(** *** The first user *)






(** *** Colours *)

(** X27.  [GraphLayoutMarker::getColor] tells the five layout variants
    apart: two tensors with a layout get the same colour exactly when their
    layouts are of the same variant, and white is the colour of the types
    that are not tensors and of no other. *)
Theorem getColor_separates_layouts :
  (∀ shape elt a shape' elt' a',
     getColor (RankedTensorType shape elt (Some a))
     = getColor (RankedTensorType shape' elt' (Some a'))
     ↔ layoutVariant a = layoutVariant a') ∧
  (∀ t, getColor t = Some "white" ↔ isRankedTensorType t = false).
Proof.
  split.
  - intros shape elt a shape' elt' a'.
    destruct a, a'; cbn [getColor layoutVariant]; split;
      first [reflexivity | discriminate].
  - intros [w | w | p | shape elt [a |]]; cbn [getColor isRankedTensorType];
      try (split; [reflexivity | reflexivity]);
      try (split; discriminate).
    destruct a; split; discriminate.
Qed.
